(** * Critical-CSS extraction and page transform of pagespeed-ai

    A shallow embedding of [critical_css_extractor.py] ([parse_css],
    [find_above_fold_elements], [match_selectors], [generate_critical_css])
    and of [SiteOptimizer._optimize_html] ([site_optimizer.py]), followed
    by the properties stated of them.

    - A Python [str] is a list of 8-bit characters ([list ascii], code
      points 0..255).
    - The regular expressions of the source are kept as syntax trees and
      run by a backtracking matcher with the semantics of Python's [re].
    - A Python set of strings is a stdpp [gset]; the insertion-ordered dict
      [css_contents] is an association list.
    - The BeautifulSoup document is a store of nodes addressed by identity,
      shared by the tree of the caller and the tree the transform builds;
      a Python exception is a [Raise] result.
    - A Python [int] is a [Z]; [int(s)] and [str(n)] keep the
      interpreter's bound of 4300 digits on decimal conversions.
    - What lies outside the repository is an argument of the transform:
      the node table html.parser builds from [str(dom)], the length of
      [repr(tag)], [urlparse(url).netloc].  The file the critical CSS is
      read from appears as the argument [critical_css], the file written
      as the returned tree. *)

From Stdlib Require Import ZArith Ascii String List Lia Bool.
From Stdlib Require Import Numbers.DecimalString Numbers.DecimalPos.
From Stdlib Require Numbers.DecimalZ.
From stdpp Require Import base list gmap strings.

Local Open Scope char_scope.
Local Open Scope list_scope.
Local Open Scope nat_scope.

(** ** Python strings *)

Abbreviation pystr := (list ascii).

(** A Rocq string literal read as a Python string. *)
Definition str (s : string) : pystr := list_ascii_of_string s.
Arguments str s%_string.

Definition nl : pystr := ["010"].

Module Py.

Definition code (c : ascii) : nat := nat_of_ascii c.

(** [str.isspace] on one character, for code points below 256:
    TAB..CR, FS..US, SPACE, NEL and NBSP. *)
Definition isspace (c : ascii) : bool :=
  let n := code c in
  ((9 <=? n) && (n <=? 13)) || ((28 <=? n) && (n <=? 32))
  || (n =? 133) || (n =? 160).

Fixpoint lstrip (s : pystr) : pystr :=
  match s with
  | c :: s' => if isspace c then lstrip s' else s
  | [] => []
  end.

Definition rstrip (s : pystr) : pystr := rev (lstrip (rev s)).

(** [s.strip()] *)
Definition strip (s : pystr) : pystr := rstrip (lstrip s).

(** [s.startswith(c)] for a one-character prefix. *)
Definition startswith (c : ascii) (s : pystr) : bool :=
  match s with
  | x :: _ => Ascii.eqb x c
  | [] => false
  end.

(** [s.split(sep)] for a one-character separator: never empty,
    [''.split(',') = ['']]. *)
Fixpoint split (sep : ascii) (s : pystr) : list pystr :=
  match s with
  | [] => [[]]
  | c :: s' =>
      if Ascii.eqb c sep then [] :: split sep s'
      else match split sep s' with
           | part :: parts => (c :: part) :: parts
           | [] => [[c]]
           end
  end.

Fixpoint is_prefix (p s : pystr) : bool :=
  match p, s with
  | [], _ => true
  | a :: p', b :: s' => Ascii.eqb a b && is_prefix p' s'
  | _ :: _, [] => false
  end.

(** [needle in hay] on strings. *)
Fixpoint contains (needle hay : pystr) : bool :=
  is_prefix needle hay ||
  match hay with
  | [] => false
  | _ :: hay' => contains needle hay'
  end.

(** The substring relation that [contains] decides. *)
Definition substring (needle hay : pystr) : Prop :=
  exists pre post, hay = pre ++ needle ++ post.

End Py.

(** ** Regular expressions

    The fragment of Python's [re] syntax that the source uses, with the
    backtracking semantics of the [re] engine: quantifiers are greedy, an
    alternative is abandoned only when the rest of the pattern fails, and
    the search takes the leftmost start. *)

Module Re.

Inductive regex : Type :=
| Lit (c : ascii)                  (* a literal character *)
| Cls (p : ascii -> bool)          (* [...] once *)
| StarCls (p : ascii -> bool)      (* [...]* *)
| PlusCls (p : ascii -> bool)      (* [...]+ *)
| Opt (r : regex)                  (* r? *)
| Seq (r1 r2 : regex)
| Grp (r : regex).                 (* ( r ), capturing *)

(** Greedy repetition of a character class: the longest run first, one
    character given back at a time while the continuation [k] fails. *)
Fixpoint star_cls {R} (p : ascii -> bool) (s : pystr)
    (k : pystr -> option R) : option R :=
  match s with
  | c :: s' =>
      if p c then
        match star_cls p s' k with
        | Some x => Some x
        | None => k s
        end
      else k s
  | [] => k []
  end.

(** [rmatch r caps s k]: match [r] at the head of [s]; [caps] are the
    groups closed so far, [k] receives them and the unread text.  (No
    pattern here nests groups, so closing order is opening order.) *)
Fixpoint rmatch {R} (r : regex) (caps : list pystr) (s : pystr)
    (k : list pystr -> pystr -> option R) : option R :=
  match r with
  | Lit c =>
      match s with
      | x :: s' => if Ascii.eqb x c then k caps s' else None
      | [] => None
      end
  | Cls p =>
      match s with
      | x :: s' => if p x then k caps s' else None
      | [] => None
      end
  | StarCls p => star_cls p s (k caps)
  | PlusCls p =>
      match s with
      | x :: s' => if p x then star_cls p s' (k caps) else None
      | [] => None
      end
  | Opt r1 =>
      match rmatch r1 caps s k with
      | Some x => Some x
      | None => k caps s
      end
  | Seq r1 r2 => rmatch r1 caps s (fun caps' s' => rmatch r2 caps' s' k)
  | Grp r1 =>
      rmatch r1 caps s
        (fun caps' s' => k (caps' ++ [take (length s - length s') s]) s')
  end.

(** A match anchored at the head of [s]: the groups and the unread text. *)
Definition match_at (r : regex) (s : pystr) : option (list pystr * pystr) :=
  rmatch r [] s (fun caps rest => Some (caps, rest)).

(** [re.findall]: non-overlapping matches, left to right.  [skip] counts
    the characters of the current match still to be passed over. *)
Fixpoint findall_from (r : regex) (skip : nat) (s : pystr)
    : list (list pystr) :=
  match s with
  | [] => []
  | _ :: s' =>
      match skip with
      | S n => findall_from r n s'
      | O =>
          match match_at r s with
          | Some (caps, rest) =>
              caps :: findall_from r (length s - length rest - 1) s'
          | None => findall_from r 0 s'
          end
      end
  end.

Definition findall (r : regex) (s : pystr) : list (list pystr) :=
  findall_from r 0 s.

(** [re.sub(r, '', s)]: every match is deleted, the rest is copied. *)
Fixpoint sub_from (r : regex) (skip : nat) (s : pystr) : pystr :=
  match s with
  | [] => []
  | c :: s' =>
      match skip with
      | S n => sub_from r n s'
      | O =>
          match match_at r s with
          | Some (_, rest) =>
              match length s - length rest with
              | O => c :: sub_from r 0 s'
              | S n => sub_from r n s'
              end
          | None => c :: sub_from r 0 s'
          end
      end
  end.

Definition sub_empty (r : regex) (s : pystr) : pystr := sub_from r 0 s.

Definition not_char (c : ascii) : ascii -> bool :=
  fun x => negb (Ascii.eqb x c).

(** [[a-zA-Z-]] *)
Definition ident_char (c : ascii) : bool :=
  let n := nat_of_ascii c in
  ((97 <=? n) && (n <=? 122)) || ((65 <=? n) && (n <=? 90)) || (n =? 45).

End Re.

Import Re.

(** ** critical_css_extractor.py *)

(** [r'([^{]+){[^}]*}'] *)
Definition selector_pattern : regex :=
  Seq (Grp (PlusCls (not_char "{")))
      (Seq (Lit "{") (Seq (StarCls (not_char "}")) (Lit "}"))).

(** [rule_pattern] of [generate_critical_css]: the same pattern with the
    declaration block [[^}]*] captured as a second group. *)
Definition rule_pattern : regex :=
  Seq (Grp (PlusCls (not_char "{")))
      (Seq (Lit "{") (Seq (Grp (StarCls (not_char "}"))) (Lit "}"))).

(** [r'::?[a-zA-Z-]+(\([^)]*\))?'] *)
Definition pseudo_pattern : regex :=
  Seq (Lit ":")
      (Seq (Opt (Lit ":"))
           (Seq (PlusCls ident_char)
                (Opt (Grp (Seq (Lit "(")
                               (Seq (StarCls (not_char ")")) (Lit ")"))))))).

(** The inner loop of [parse_css]: [selectors.append(s.strip())] for every
    comma-separated part. *)
Definition split_selectors (selector : pystr) : list pystr :=
  map Py.strip (Py.split "," selector).

(** [parse_css]: one step of [for match in matches]. *)
Definition parse_match (m : pystr) : list pystr :=
  let selector := Py.strip m in
  if Py.startswith "@" selector then []            (* continue *)
  else split_selectors selector.

(** [selector_pattern.findall(css_content)]: with one group, the list of
    its captures. *)
Definition selector_matches (css_content : pystr) : list pystr :=
  map (fun caps => nth 0 caps []) (findall selector_pattern css_content).

Definition parse_css (css_content : pystr) : list pystr :=
  let matches := selector_matches css_content in
  flat_map parse_match matches.

(** [base_selector = re.sub(r'::?[a-zA-Z-]+(\([^)]*\))?', '', css_selector)] *)
Definition base_selector (css_selector : pystr) : pystr :=
  sub_empty pseudo_pattern css_selector.

(** The inner loop of [match_selectors]: [for element_selector in
    element_selectors], left at the first signature found in the base
    selector; [true] when [matching_selectors.add] was reached. *)
Fixpoint scan_signatures (element_selectors : list pystr) (base : pystr) : bool :=
  match element_selectors with
  | [] => false
  | element_selector :: rest =>
      if Py.contains element_selector base then true      (* add; break *)
      else scan_signatures rest base
  end.

(** The outer loop, over [css_selectors], threading [matching_selectors]. *)
Fixpoint match_loop (element_selectors : list pystr) (css_selectors : list pystr)
    (matching_selectors : gset pystr) : gset pystr :=
  match css_selectors with
  | [] => matching_selectors
  | css_selector :: rest =>
      let base := base_selector css_selector in
      match_loop element_selectors rest
        (if scan_signatures element_selectors base
         then matching_selectors ∪ {[ css_selector ]}
         else matching_selectors)
  end.

(** [match_selectors]: the signature set is iterated in the order
    [elements] lists it. *)
Definition match_selectors (element_selectors : gset pystr)
    (css_selectors : list pystr) : gset pystr :=
  match_loop (elements element_selectors) css_selectors ∅.

Definition header_comment : pystr :=
  str "/* Critical CSS extracted by PageSpeed AI */" ++ nl.

(** The triple-quoted literal appended unconditionally. *)
Definition preamble : pystr :=
  nl ++ str "html, body {" ++ nl
     ++ str "    margin: 0;" ++ nl
     ++ str "    padding: 0;" ++ nl
     ++ str "    box-sizing: border-box;" ++ nl
     ++ str "}" ++ nl
     ++ nl
     ++ str "*, *::before, *::after {" ++ nl
     ++ str "    box-sizing: inherit;" ++ nl
     ++ str "}" ++ nl.

(** [[r.strip() for r in rules.split(';') if r.strip()]] *)
Definition rule_parts (rules : pystr) : list pystr :=
  map Py.strip
      (filter (fun r => negb (Nat.eqb (length (Py.strip r)) 0)) (Py.split ";" rules)).

(** The text appended for a critical rule: the selector group, the
    declarations one per line, the closing brace and a blank line. *)
Definition format_rule (selector rules : pystr) : pystr :=
  selector ++ str " {" ++ nl
    ++ fold_left (fun css rule => css ++ str "    " ++ rule ++ str ";" ++ nl)
                 (rule_parts rules) []
    ++ str "}" ++ nl ++ nl.

(** [any(s in critical_selectors for s in selector_parts)] *)
Definition any_critical (critical_selectors : gset pystr)
    (selector_parts : list pystr) : bool :=
  existsb (fun s => bool_decide (s ∈ critical_selectors)) selector_parts.

(** One step of [for selector, rules in matches]: what is appended to
    [critical_css]. *)
Definition emit_rule (critical_selectors : gset pystr) (m : pystr * pystr) : pystr :=
  let selector := Py.strip (fst m) in
  if Py.startswith "@" selector then []              (* continue *)
  else
    let selector_parts := split_selectors selector in
    if any_critical critical_selectors selector_parts
    then format_rule selector (snd m)
    else [].

(** [rule_pattern.findall(css_content)]: pairs of the two groups. *)
Definition rule_matches (css_content : pystr) : list (pystr * pystr) :=
  map (fun caps => (nth 0 caps [], nth 1 caps [])) (findall rule_pattern css_content).

(** [generate_critical_css]; [css_contents] is [self.css_contents.items()]. *)
Definition generate_critical_css (css_contents : list (pystr * pystr))
    (critical_selectors : gset pystr) : pystr :=
  let critical_css := header_comment in
  let critical_css := critical_css ++ preamble in
  fold_left
    (fun critical_css entry =>
       fold_left (fun critical_css m => critical_css ++ emit_rule critical_selectors m)
                 (rule_matches (snd entry)) critical_css)
    css_contents critical_css.


(** *** Notions used to state the composer's properties *)

(** Every (selector group, declaration block) pair the composer visits, in
    stylesheet order then rule order. *)
Definition all_rule_matches (css_contents : list (pystr * pystr))
    : list (pystr * pystr) :=
  flat_map (fun entry => rule_matches (snd entry)) css_contents.

(** The guard under which a visited rule is written to the output. *)
Definition is_emitted (critical_selectors : gset pystr) (m : pystr * pystr) : bool :=
  negb (Py.startswith "@" (Py.strip (fst m)))
  && any_critical critical_selectors (split_selectors (Py.strip (fst m))).

Definition emitted_rules (css_contents : list (pystr * pystr))
    (critical_selectors : gset pystr) : list (pystr * pystr) :=
  List.filter (is_emitted critical_selectors) (all_rule_matches css_contents).

(** *** The shape of an at-rule block, for the parser's treatment of it *)

(** [sel{body}] *)
Definition css_rule (r : pystr * pystr) : pystr :=
  fst r ++ "{" :: snd r ++ ["}"].

(** A rule as the patterns expect it: a selector text that is not empty
    and has no opening brace, a declaration block with no closing brace. *)
Definition plain_rule (r : pystr * pystr) : Prop :=
  fst r <> [] /\ ("{" ∉ fst r) /\ ("}" ∉ snd r).

(** A stylesheet made of rules written one after the other. *)
Definition css_rules (rules : list (pystr * pystr)) : pystr :=
  flat_map css_rule rules.

(** [@prelude{ first later... closing], where [closing] holds the brace
    that ends the block. *)
Definition at_rule_block (prelude : pystr) (first : pystr * pystr)
    (later : list (pystr * pystr)) (closing : pystr) : pystr :=
  "@" :: prelude ++ "{" :: css_rule first ++ css_rules later ++ closing.

(** *** The shape of a pseudo-class or pseudo-element suffix *)

(** [:name], [::name], [:name(arg)] or [::name(arg)]. *)
Definition pseudo_text (double : bool) (name : pystr) (arg : option pystr) : pystr :=
  ":" :: (if double then [":"] else [])
    ++ name
    ++ match arg with
       | Some a => "(" :: a ++ [")"]
       | None => []
       end.

(** The text after a suffix does not continue it: it does not start with an
    identifier character, nor with an argument list when the suffix has
    none. *)
Definition ends_pseudo (arg : option pystr) (rest : pystr) : Prop :=
  match rest with
  | [] => True
  | c :: _ =>
      ident_char c = false
      /\ match arg with Some _ => True | None => c <> "(" end
  end.

(** ** The document tree

    BeautifulSoup objects are mutable and compared by identity in places
    and by structure in others, so the document lives in a store: a node is
    addressed by its index, [Tag.parent] and [Tag.contents] hold indices.
    The original tree of the caller and the tree the transform builds share
    the one store. *)

Module Dom.

(** An attribute value: a string, or the token list bs4 keeps for the
    multi-valued attributes ([class], [rel], ...). *)
Inductive attr_value : Type :=
| AStr (s : pystr)
| AList (l : list pystr).

#[global] Instance attr_value_eq_dec : EqDecision attr_value.
Proof. solve_decision. Defined.

Record node : Type := mkNode {
  n_text : option pystr;               (* [Some t]: a NavigableString *)
  n_name : pystr;                      (* tag name; [[document]] for the soup *)
  n_attrs : list (pystr * attr_value); (* [Tag.attrs], insertion order *)
  n_contents : list nat;               (* [Tag.contents] *)
  n_parent : option nat                (* [Tag.parent] *)
}.

Abbreviation store := (list node).

Definition new_node (name : pystr) : node := mkNode None name [] [] None.
Definition text_node (t : pystr) (parent : option nat) : node :=
  mkNode (Some t) [] [] [] parent.

(** *** Reading the store *)

Definition is_tag (σ : store) (i : nat) : bool :=
  match σ !! i with
  | Some nd => match n_text nd with None => true | Some _ => false end
  | None => false
  end.

Definition name_of (σ : store) (i : nat) : pystr :=
  match σ !! i with Some nd => n_name nd | None => [] end.

Definition attrs_of (σ : store) (i : nat) : list (pystr * attr_value) :=
  match σ !! i with Some nd => n_attrs nd | None => [] end.

Definition contents_of (σ : store) (i : nat) : list nat :=
  match σ !! i with Some nd => n_contents nd | None => [] end.

Definition parent_of (σ : store) (i : nat) : option nat :=
  match σ !! i with Some nd => n_parent nd | None => None end.

(** [attrs.get(k)] *)
Fixpoint attr_get (k : pystr) (attrs : list (pystr * attr_value))
    : option attr_value :=
  match attrs with
  | [] => None
  | (k', v) :: rest => if bool_decide (k' = k) then Some v else attr_get k rest
  end.

(** [attrs[k] = v]: an existing key keeps its place. *)
Fixpoint attr_set (k : pystr) (v : attr_value)
    (attrs : list (pystr * attr_value)) : list (pystr * attr_value) :=
  match attrs with
  | [] => [(k, v)]
  | (k', v') :: rest =>
      if bool_decide (k' = k) then (k, v) :: rest
      else (k', v') :: attr_set k v rest
  end.

(** [tag.has_attr(k)], [k in tag.attrs] *)
Definition has_attr (σ : store) (i : nat) (k : pystr) : bool :=
  match attr_get k (attrs_of σ i) with Some _ => true | None => false end.

(** Equality of two attribute dicts: the same keys with the same values,
    in any order. *)
Definition attrs_eqb (a b : list (pystr * attr_value)) : bool :=
  Nat.eqb (length a) (length b)
  && forallb (fun kv => bool_decide (attr_get (fst kv) b = Some (snd kv))) a.

(** The descendants of a node in document order: [Tag.descendants].  The
    depth of a tree is below the number of nodes of the store, which is
    the fuel [all_descendants] gives. *)
Fixpoint descendants (fuel : nat) (σ : store) (i : nat) : list nat :=
  match fuel with
  | O => []
  | S f => flat_map (fun c => c :: descendants f σ c) (contents_of σ i)
  end.

Definition all_descendants (σ : store) (i : nat) : list nat :=
  descendants (length σ) σ i.

(** [root.find_all(...)]: the tags below [root] that satisfy the filter,
    in document order. *)
Definition find_all (σ : store) (root : nat) (matches : store -> nat -> bool)
    : list nat :=
  List.filter (fun i => is_tag σ i && matches σ i) (all_descendants σ root).

(** [root.find(...)] *)
Definition find (σ : store) (root : nat) (matches : store -> nat -> bool)
    : option nat :=
  head (find_all σ root matches).

(** *** Search filters, as [SoupStrainer] applies them *)

(** A tag name, or one of a list of tag names. *)
Definition name_in (names : list pystr) (σ : store) (i : nat) : bool :=
  bool_decide (name_of σ i ∈ names).

Fixpoint join (sep : pystr) (l : list pystr) : pystr :=
  match l with
  | [] => []
  | [x] => x
  | x :: rest => x ++ sep ++ join sep rest
  end.

(** A function filter on an attribute: called on [None] when the attribute
    is missing (the filters of the source answer false there), on the
    string, or on each token of a multi-valued attribute and then on the
    tokens joined by spaces. *)
Definition attr_satisfies (k : pystr) (f : pystr -> bool) (σ : store) (i : nat)
    : bool :=
  match attr_get k (attrs_of σ i) with
  | None => false
  | Some (AStr s) => f s
  | Some (AList l) => existsb f l || f (join (str " ") l)
  end.

(** A string filter on an attribute: [rel='stylesheet']. *)
Definition attr_is (k : pystr) (target : pystr) (σ : store) (i : nat) : bool :=
  attr_satisfies k (fun s => bool_decide (s = target)) σ i.

(** [src=True]: the attribute is present. *)
Definition attr_present (k : pystr) (σ : store) (i : nat) : bool :=
  has_attr σ i k.

(** [Tag.__eq__]: the same object, or the same name, attributes and
    contents, recursively; strings compare as strings. *)
Fixpoint node_eqb (fuel : nat) (σ : store) (i j : nat) : bool :=
  match fuel with
  | O => false
  | S f =>
      Nat.eqb i j ||
      match σ !! i, σ !! j with
      | Some a, Some b =>
          match n_text a, n_text b with
          | Some s, Some t => bool_decide (s = t)
          | None, None =>
              bool_decide (n_name a = n_name b)
              && attrs_eqb (n_attrs a) (n_attrs b)
              && Nat.eqb (length (n_contents a)) (length (n_contents b))
              && forallb (fun p => node_eqb f σ (fst p) (snd p))
                   (combine (n_contents a) (n_contents b))
          | _, _ => false
          end
      | _, _ => false
      end
  end.

Definition tag_eq (σ : store) (i j : nat) : bool :=
  node_eqb (S (length σ)) σ i j.

(** *** Exceptions and the state monad of the transform *)

Inductive exn : Type := ValueError | KeyError | TypeError.

Inductive result (A : Type) : Type :=
| Ok (a : A)
| Raise (e : exn).
Arguments Ok {A} a.
Arguments Raise {A} e.

(** A computation on the store; the store is kept when it raises. *)
Definition M (A : Type) : Type := store -> result A * store.

#[global] Instance M_ret : MRet M := fun A a σ => (Ok a, σ).
#[global] Instance M_bind : MBind M := fun A B f m σ =>
  match m σ with
  | (Ok a, σ') => f a σ'
  | (Raise e, σ') => (Raise e, σ')
  end.

Definition raise {A} (e : exn) : M A := fun σ => (Raise e, σ).
Definition get_store : M store := fun σ => (Ok σ, σ).

(** Allocation of a new object. *)
Definition alloc (nd : node) : M nat := fun σ => (Ok (length σ), σ ++ [nd]).

(** In-place update of the object [i]. *)
Definition update (i : nat) (f : node -> node) : M unit :=
  fun σ => (Ok tt, alter f i σ).

Fixpoint for_each {A} (l : list A) (body : A -> M unit) : M unit :=
  match l with
  | [] => mret tt
  | x :: rest => body x ;; for_each rest body
  end.

(** A loop that threads local variables [st]. *)
Fixpoint fold_each {A S} (l : list A) (st : S) (body : A -> S -> M S) : M S :=
  match l with
  | [] => mret st
  | x :: rest => st' ← body x st; fold_each rest st' body
  end.

Definition when (b : bool) (m : M unit) : M unit :=
  if b then m else mret tt.

(** *** Tree surgery *)

(** [soup.new_tag(name)] *)
Definition new_tag (name : pystr) : M nat := alloc (new_node name).

(** [tag[k] = v] *)
Definition set_attr (i : nat) (k : pystr) (v : attr_value) : M unit :=
  update i (fun nd => mkNode (n_text nd) (n_name nd)
                        (attr_set k v (n_attrs nd)) (n_contents nd) (n_parent nd)).

(** [tag[k]]: [KeyError] when the attribute is missing. *)
Definition get_item (i : nat) (k : pystr) : M attr_value :=
  σ ← get_store;
  match attr_get k (attrs_of σ i) with
  | Some v => mret v
  | None => raise KeyError
  end.

Definition set_contents (i : nat) (cs : list nat) : M unit :=
  update i (fun nd => mkNode (n_text nd) (n_name nd) (n_attrs nd) cs (n_parent nd)).

Definition set_parent (i : nat) (p : option nat) : M unit :=
  update i (fun nd => mkNode (n_text nd) (n_name nd) (n_attrs nd) (n_contents nd) p).

(** [parent.index(child)]: the position of the object itself. *)
Fixpoint index_of (i : nat) (cs : list nat) : option nat :=
  match cs with
  | [] => None
  | c :: rest => if Nat.eqb c i then Some 0 else S <$> index_of i rest
  end.

(** [tag.extract()] *)
Definition extract (i : nat) : M unit :=
  σ ← get_store;
  match parent_of σ i with
  | None => mret tt
  | Some p =>
      match index_of i (contents_of σ p) with
      | None => raise ValueError
      | Some ix =>
          set_contents p (take ix (contents_of σ p) ++ drop (S ix) (contents_of σ p)) ;;
          set_parent i None
      end
  end.

(** [tag.insert(position, new_child)] *)
Definition insert (p : nat) (position : nat) (new_child : nat) : M unit :=
  if Nat.eqb new_child p then raise ValueError
  else
    σ ← get_store;
    let position := Nat.min position (length (contents_of σ p)) in
    let position :=
      match parent_of σ new_child with
      | Some q =>
          if Nat.eqb q p then
            match index_of new_child (contents_of σ p) with
            | Some current_index =>
                if current_index <? position then position - 1 else position
            | None => position
            end
          else position
      | None => position
      end in
    extract new_child ;;
    set_parent new_child (Some p) ;;
    σ ← get_store;
    set_contents p (take position (contents_of σ p) ++ new_child
                      :: drop position (contents_of σ p)).

(** [tag.append(new_child)] *)
Definition append (p : nat) (new_child : nat) : M unit :=
  σ ← get_store;
  insert p (length (contents_of σ p)) new_child.

(** [tag.insert_after(successor)] *)
Definition insert_after (i : nat) (successor : nat) : M unit :=
  σ ← get_store;
  match parent_of σ i with
  | None => raise ValueError
  | Some p =>
      if Nat.eqb successor i then raise ValueError
      else
        extract successor ;;
        σ ← get_store;
        match index_of i (contents_of σ p) with
        | None => raise ValueError
        | Some ix => insert p (ix + 1) successor
        end
  end.

(** [tag.string = text]: the contents become one new string. *)
Definition set_string (i : nat) (t : pystr) : M unit :=
  σ ← get_store;
  for_each (contents_of σ i) extract ;;
  s ← alloc (text_node t None);
  append i s.

End Dom.

Import Dom.

(** ** Python numbers in attribute values *)

Module PyInt.

Definition is_digit (c : ascii) : bool :=
  let n := nat_of_ascii c in (48 <=? n) && (n <=? 57).

Definition digit_val (c : ascii) : Z := Z.of_nat (nat_of_ascii c - 48).

(** The white space [int] accepts around a number, for code points below
    256: TAB..CR, SPACE, NEL, NBSP (not FS..US, which [strip] removes). *)
Definition isspace (c : ascii) : bool :=
  let n := nat_of_ascii c in
  ((9 <=? n) && (n <=? 13)) || (n =? 32) || (n =? 133) || (n =? 160).

Fixpoint lstrip (s : pystr) : pystr :=
  match s with
  | c :: s' => if isspace c then lstrip s' else s
  | [] => []
  end.

Definition strip (s : pystr) : pystr := rev (lstrip (rev (lstrip s))).

(** Decimal digits, single underscores allowed between two digits. *)
Fixpoint digits (acc : Z) (after_digit : bool) (s : pystr) : option Z :=
  match s with
  | [] => if after_digit then Some acc else None
  | c :: s' =>
      if is_digit c then digits (10 * acc + digit_val c)%Z true s'
      else if Ascii.eqb c "_" then
             if after_digit then digits acc false s' else None
           else None
  end.

(** [sys.int_max_str_digits]: the interpreter's bound on the digits of a
    decimal conversion, which the program leaves at its default. *)
Definition max_str_digits : nat := 4300.

(** The digits of a text: underscores, a sign and white space do not
    count, leading zeros do. *)
Definition count_digits (s : pystr) : nat := length (List.filter is_digit s).

(** The digits after the sign: more than [max_str_digits] of them are
    refused. *)
Definition number (d : pystr) : option Z :=
  if max_str_digits <? count_digits d then None else digits 0 false d.

(** [int(s)] for a string: [None] stands for [ValueError]. *)
Definition int (s : pystr) : option Z :=
  match strip s with
  | "-" :: d => Z.opp <$> number d
  | "+" :: d => number d
  | d => number d
  end.

(** The decimal text of an integer. *)
Definition decimal (n : Z) : pystr :=
  str (NilZero.string_of_int (Z.to_int n)).

(** [str(n)] for an integer: [None] stands for the [ValueError] raised
    when the text would have more than [max_str_digits] digits. *)
Definition to_str (n : Z) : option pystr :=
  let text := decimal n in
  if max_str_digits <? count_digits text then None else Some text.

End PyInt.

(** [c.lower()], for code points below 256. *)
Definition lower_char (c : ascii) : ascii :=
  let n := nat_of_ascii c in
  if ((65 <=? n) && (n <=? 90))
     || ((192 <=? n) && (n <=? 222) && negb (n =? 215))
  then ascii_of_nat (n + 32) else c.

Definition lower (s : pystr) : pystr := map lower_char s.

(** ** critical_css_extractor.py: the above-the-fold heuristic *)

#[global] Instance result_ret : MRet result := fun A a => Ok a.
#[global] Instance result_bind : MBind result := fun A B f r =>
  match r with
  | Ok a => f a
  | Raise e => Raise e
  end.

(** [lambda c: c and ('hero' in c.lower() or 'banner' in c.lower())] *)
Definition hero_or_banner (c : pystr) : bool :=
  negb (Nat.eqb (length c) 0)
  && (Py.contains (str "hero") (lower c) || Py.contains (str "banner") (lower c)).

(** [lambda c: c and 'section' in c.lower()] *)
Definition section_class (c : pystr) : bool :=
  negb (Nat.eqb (length c) 0) && Py.contains (str "section") (lower c).

(** [img[k]] on a store that is only read. *)
Definition getitem (σ : store) (i : nat) (k : pystr) : result attr_value :=
  match attr_get k (attrs_of σ i) with
  | Some v => Ok v
  | None => Raise KeyError
  end.

(** [int(v)] of an attribute value. *)
Definition int_of_attr (v : attr_value) : result Z :=
  match v with
  | AStr s => match PyInt.int s with Some z => Ok z | None => Raise ValueError end
  | AList _ => Raise TypeError
  end.

(** [lambda img: int(img['width']) * int(img['height'])] *)
Definition area_key (σ : store) (img : nat) : result Z :=
  w ← getitem σ img (str "width") ≫= int_of_attr;
  h ← getitem σ img (str "height") ≫= int_of_attr;
  mret (w * h)%Z.

(** [list.sort] calls the key function on every element first, in order. *)
Fixpoint with_keys (key : nat -> result Z) (l : list nat) : result (list (Z * nat)) :=
  match l with
  | [] => Ok []
  | x :: rest =>
      k ← key x;
      ks ← with_keys key rest;
      mret ((k, x) :: ks)
  end.

(** Stable sort by decreasing key, as [sort(key=..., reverse=True)] orders:
    elements with equal keys keep their original order. *)
Fixpoint insert_desc (x : Z * nat) (l : list (Z * nat)) : list (Z * nat) :=
  match l with
  | [] => [x]
  | y :: rest =>
      if (fst y <=? fst x)%Z then x :: y :: rest
      else y :: insert_desc x rest
  end.

Fixpoint sort_desc (l : list (Z * nat)) : list (Z * nat) :=
  match l with
  | [] => []
  | x :: rest => insert_desc x (sort_desc rest)
  end.

Definition sort_by_key_reverse (key : nat -> result Z) (l : list nat)
    : result (list nat) :=
  ks ← with_keys key l;
  mret (map snd (sort_desc ks)).

Definition is_img : store -> nat -> bool := name_in [str "img"].

Definition header_or_nav : store -> nat -> bool := name_in [str "header"; str "nav"].

Definition hero_class : store -> nat -> bool :=
  attr_satisfies (str "class") hero_or_banner.

Definition section_like (σ : store) (i : nat) : bool :=
  name_in [str "section"; str "div"] σ i
  && attr_satisfies (str "class") section_class σ i.

(** [img.has_attr('width') and img.has_attr('height')] *)
Definition has_size (σ : store) (img : nat) : bool :=
  has_attr σ img (str "width") && has_attr σ img (str "height").

(** The "LCP image" block: what it appends to [above_fold_elements]. *)
Definition lcp_image (σ : store) (dom : nat) : result (list nat) :=
  let lcp_candidates := find_all σ dom is_img in
  match lcp_candidates with
  | [] => Ok []
  | _ :: _ =>
      let sized_images := List.filter (has_size σ) lcp_candidates in
      match sized_images with
      | [] => Ok []
      | _ :: _ =>
          sorted ← sort_by_key_reverse (area_key σ) sized_images;
          match sorted with
          | first :: _ => Ok [first]
          | [] => Ok []       (* not reached: the sorted list is not empty *)
          end
      end
  end.

(** [find_above_fold_elements]; [dom] is [self.dom]. *)
Definition find_above_fold_elements (σ : store) (dom : nat) : result (list nat) :=
  let above_fold_elements := [] in
  let above_fold_elements := above_fold_elements ++ find_all σ dom header_or_nav in
  let hero_sections := find_all σ dom hero_class in
  let above_fold_elements := above_fold_elements ++ hero_sections in
  let sections := find_all σ dom section_like in
  let above_fold_elements :=
    match sections with
    | [] => above_fold_elements
    | _ :: _ => above_fold_elements ++ take 3 sections
    end in
  lcp ← lcp_image σ dom;
  mret (above_fold_elements ++ lcp).

(** *** Notions used to state the heuristic's properties *)

(** The image declares [width] and [height] and both read as integers. *)
Definition declares_size (σ : store) (img : nat) : bool :=
  match area_key σ img with Ok _ => true | Raise _ => false end.

(** The declared area of an image (0 when it declares none). *)
Definition declared_area (σ : store) (img : nat) : Z :=
  match area_key σ img with Ok a => a | Raise _ => 0%Z end.

(** [e] is the dominant element of [l]: strictly larger than everything
    before it, at least as large as everything after it. *)
Definition dominant (area : nat -> Z) (l : list nat) (e : nat) : Prop :=
  exists pre post,
    l = pre ++ e :: post
    /\ Forall (fun x => (area x < area e)%Z) pre
    /\ Forall (fun x => (area x <= area e)%Z) post.

(** ** site_optimizer.py: the page transform *)

(** An entry of [self.resources[...]]: [url] and [element] are set by
    [extract_resources], [local_path] by [download_resources], the pixel
    size and [webp_path] by [_optimize_images]; a missing key is [None]. *)
Record resource : Type := mkResource {
  r_url : pystr;
  r_element : nat;                 (* an element of the original tree *)
  r_local_path : option pystr;
  r_width : option Z;
  r_height : option Z;
  r_webp_path : option pystr
}.

Record resources : Type := mkResources {
  res_css : list resource;
  res_js : list resource;
  res_images : list resource;
  res_fonts : list resource
}.

Section Transform.

(** What lies outside the repository: the node table html.parser builds
    from [str(dom)], numbered from 0 with the soup object first; the
    length of [repr(tag)]; [urlparse(url).netloc]. *)
Variable reparse : store -> nat -> list node.
Variable repr_len : store -> nat -> nat.
Variable netloc : pystr -> pystr.

Definition shift_node (base : nat) (nd : node) : node :=
  mkNode (n_text nd) (n_name nd) (n_attrs nd)
         (map (Nat.add base) (n_contents nd)) (Nat.add base <$> n_parent nd).

(** [BeautifulSoup(str(self.dom), 'html.parser')]: new objects only. *)
Definition copy_document (dom : nat) : M nat :=
  fun σ => (Ok (length σ), σ ++ map (shift_node (length σ)) (reparse σ dom)).

(** Step 1: [head], found or created. *)
Definition ensure_head (optimized_dom : nat) : M nat :=
  σ ← get_store;
  match find σ optimized_dom (name_in [str "head"]) with
  | Some head => mret head
  | None =>
      head ← new_tag (str "head");
      σ ← get_store;
      match find σ optimized_dom (name_in [str "html"]) with
      | Some html => insert html 0 head
      | None =>
          html ← new_tag (str "html");
          append html head ;;
          append optimized_dom html
      end ;;
      mret head
  end.

(** Step 2: the critical CSS read from [css/critical.css], when
    [_optimize_css] recorded one. *)
Definition inline_critical_css (head : nat) (critical_css : option pystr) : M unit :=
  match critical_css with
  | Some css =>
      style ← new_tag (str "style");
      set_string style css ;;
      insert head 0 style
  | None => mret tt
  end.

Definition is_stylesheet_link (σ : store) (i : nat) : bool :=
  name_in [str "link"] σ i && attr_is (str "rel") (str "stylesheet") σ i.

(** [if resource.get("element") == tag and "local_path" in resource:
      tag[k] = resource["local_path"]], for every resource. *)
Definition use_local_paths (rs : list resource) (tag : nat) (k : pystr) : M unit :=
  for_each rs (fun resource =>
    σ ← get_store;
    match r_local_path resource with
    | Some local_path =>
        when (tag_eq σ (r_element resource) tag) (set_attr tag k (AStr local_path))
    | None => mret tt
    end).

(** Step 3 *)
Definition preload_css_links (rs : list resource) (css_links : list nat) : M unit :=
  for_each css_links (fun link =>
    set_attr link (str "rel") (AStr (str "preload")) ;;
    set_attr link (str "as") (AStr (str "style")) ;;
    set_attr link (str "onload") (AStr (str "this.onload=null;this.rel='stylesheet'")) ;;
    use_local_paths rs link (str "href")).

(** Step 4 *)
Definition add_noscript_fallbacks (css_links : list nat) : M unit :=
  for_each css_links (fun link =>
    noscript ← new_tag (str "noscript");
    fallback_link ← new_tag (str "link");
    set_attr fallback_link (str "rel") (AStr (str "stylesheet")) ;;
    href ← get_item link (str "href");
    set_attr fallback_link (str "href") href ;;
    append noscript fallback_link ;;
    insert_after link noscript).

Definition is_external_script (σ : store) (i : nat) : bool :=
  name_in [str "script"] σ i && attr_present (str "src") σ i.

(** Step 5 *)
Definition defer_scripts (rs : list resource) (scripts : list nat) : M unit :=
  for_each scripts (fun script =>
    σ ← get_store;
    when (negb (has_attr σ script (str "async")))
         (set_attr script (str "defer") (AStr [])) ;;
    use_local_paths rs script (str "src")).

Definition is_img_with_src (σ : store) (i : nat) : bool :=
  name_in [str "img"] σ i && attr_present (str "src") σ i.

(** [tag.find_previous_siblings()]: the tags before it, nearest first. *)
Definition find_previous_siblings (σ : store) (i : nat) : list nat :=
  match parent_of σ i with
  | None => []
  | Some p =>
      match index_of i (contents_of σ p) with
      | None => []
      | Some ix => List.filter (is_tag σ) (rev (take ix (contents_of σ p)))
      end
  end.

(** [len(str(l))] of a list whose items print with the given lengths:
    the brackets, the items, a comma and a space between two items. *)
Definition list_repr_len (lens : list nat) : nat :=
  2 + list_sum lens + 2 * (length lens - 1).

(** [len(str(parent.find_previous_siblings()))] *)
Definition position_of (σ : store) (parent : nat) : nat :=
  list_repr_len (map (repr_len σ) (find_previous_siblings σ parent)).

Definition viewport_height : nat := 800.

(** The [<picture>] wrapper built when the resource has a WebP version. *)
Definition wrap_in_picture (img : nat) (webp_path : pystr) : M unit :=
  picture ← new_tag (str "picture");
  source ← new_tag (str "source");
  set_attr source (str "srcset") (AStr webp_path) ;;
  set_attr source (str "type") (AStr (str "image/webp")) ;;
  σ ← get_store;
  let parent_node := parent_of σ img in
  extract img ;;
  append picture source ;;
  append picture img ;;
  match parent_node with
  | Some parent_node => append parent_node picture
  | None => mret tt
  end.

(** [str(n)] of a recorded pixel size. *)
Definition str_of_int (n : Z) : M pystr :=
  match PyInt.to_str n with
  | Some text => mret text
  | None => raise ValueError
  end.

(** The body of [for resource in self.resources["images"]] for one image;
    the state is [(largest_area, lcp_candidate)]. *)
Definition image_resource_step (img : nat) (position : nat)
    (resource : resource) (st : Z * option nat) : M (Z * option nat) :=
  σ ← get_store;
  match r_local_path resource with
  | Some local_path =>
      if tag_eq σ (r_element resource) img then
        set_attr img (str "src") (AStr local_path) ;;
        st ← match r_width resource, r_height resource with
             | Some width, Some height =>
                 width_text ← str_of_int width;
                 set_attr img (str "width") (AStr width_text) ;;
                 height_text ← str_of_int height;
                 set_attr img (str "height") (AStr height_text) ;;
                 let area := (width * height)%Z in
                 if (position <? viewport_height) && (fst st <? area)%Z
                 then mret (area, Some img)
                 else mret st
             | _, _ => mret st
             end;
        match r_webp_path resource with
        | Some webp_path => wrap_in_picture img webp_path
        | None => mret tt
        end ;;
        mret st
      else mret st
  | None => mret st
  end.

(** Step 6, the loop [for img in images]. *)
Definition scan_images (rs : list resource) (images : list nat)
    : M (Z * option nat) :=
  fold_each images (0%Z, None) (fun img st =>
    σ ← get_store;
    match parent_of σ img with
    | None => mret st                                  (* continue *)
    | Some parent =>
        let position := position_of σ parent in
        fold_each rs st (image_resource_step img position)
    end).

(** [if lcp_candidate: ...] *)
Definition mark_lcp (head : nat) (lcp_candidate : option nat) : M unit :=
  match lcp_candidate with
  | Some lcp =>
      set_attr lcp (str "fetchpriority") (AStr (str "high")) ;;
      σ ← get_store;
      match attr_get (str "src") (attrs_of σ lcp) with
      | Some lcp_src =>
          let truthy := match lcp_src with
                        | AStr s => negb (Nat.eqb (length s) 0)
                        | AList l => negb (Nat.eqb (length l) 0)
                        end in
          if truthy then
            preload ← new_tag (str "link");
            set_attr preload (str "rel") (AStr (str "preload")) ;;
            set_attr preload (str "href") lcp_src ;;
            set_attr preload (str "as") (AStr (str "image")) ;;
            insert head 0 preload
          else mret tt
      | None => mret tt
      end
  | None => mret tt
  end.

(** [if img != lcp_candidate: img['loading'] = 'lazy'] *)
Definition lazy_load_others (images : list nat) (lcp_candidate : option nat) : M unit :=
  for_each images (fun img =>
    σ ← get_store;
    let same := match lcp_candidate with
                | Some lcp => tag_eq σ img lcp
                | None => false
                end in
    when (negb same) (set_attr img (str "loading") (AStr (str "lazy")))).

(** Step 7: the set of network origins of all resources. *)
Definition external_domains (res : resources) : gset pystr :=
  fold_left
    (fun domains resource =>
       let n := netloc (r_url resource) in
       if Nat.eqb (length n) 0 then domains else domains ∪ {[ n ]})
    (res_css res ++ res_js res ++ res_images res ++ res_fonts res) ∅.

Definition add_resource_hints (head : nat) (res : resources) : M unit :=
  for_each (elements (external_domains res)) (fun domain =>
    preconnect ← new_tag (str "link");
    set_attr preconnect (str "rel") (AStr (str "preconnect")) ;;
    set_attr preconnect (str "href") (AStr (str "https://" ++ domain)) ;;
    set_attr preconnect (str "crossorigin") (AStr []) ;;
    insert head 0 preconnect ;;
    dns_prefetch ← new_tag (str "link");
    set_attr dns_prefetch (str "rel") (AStr (str "dns-prefetch")) ;;
    set_attr dns_prefetch (str "href") (AStr (str "https://" ++ domain)) ;;
    insert head 0 dns_prefetch).

(** Step 8 *)
Definition add_cache_control (head : nat) : M unit :=
  cache_manifest ← new_tag (str "meta");
  set_attr cache_manifest (str "http-equiv") (AStr (str "Cache-Control")) ;;
  set_attr cache_manifest (str "content") (AStr (str "max-age=31536000")) ;;
  append head cache_manifest.

(** [_optimize_html], for a fetched page ([dom] is [self.dom]).  The
    result is the tree written to [index.html] and the local
    [lcp_candidate]. *)
Definition _optimize_html (dom : nat) (res : resources)
    (critical_css : option pystr) : M (nat * option nat) :=
  optimized_dom ← copy_document dom;
  head ← ensure_head optimized_dom;
  inline_critical_css head critical_css ;;
  σ ← get_store;
  let css_links := find_all σ optimized_dom is_stylesheet_link in
  preload_css_links (res_css res) css_links ;;
  add_noscript_fallbacks css_links ;;
  σ ← get_store;
  let scripts := find_all σ optimized_dom is_external_script in
  defer_scripts (res_js res) scripts ;;
  σ ← get_store;
  let images := find_all σ optimized_dom is_img_with_src in
  st ← scan_images (res_images res) images;
  let lcp_candidate := snd st in
  mark_lcp head lcp_candidate ;;
  lazy_load_others images lcp_candidate ;;
  add_resource_hints head res ;;
  add_cache_control head ;;
  mret (optimized_dom, lcp_candidate).

End Transform.

(** ** Notions used to state the properties of the document side *)

(** What steps 1 to 3 of the heuristic contribute, in order. *)
Definition structural_part (σ : store) (dom : nat) : list nat :=
  find_all σ dom header_or_nav
    ++ find_all σ dom hero_class
    ++ take 3 (find_all σ dom section_like).

(** A class filter that looks for one of several words in the lowered
    text: the shape of the two filters of the heuristic. *)
Definition word_filter (words : list pystr) (c : pystr) : bool :=
  negb (Nat.eqb (length c) 0)
  && existsb (fun w => Py.contains w (lower c)) words.

(** A tag node of a sample document. *)
Definition tag (name : string) (attrs : list (pystr * attr_value))
    (contents : list nat) (parent : option nat) : node :=
  mkNode None (str name) attrs contents parent.

(** The objects that existed before a run are the same afterwards. *)
Definition untouched (n0 : nat) (σ0 σ : store) : Prop :=
  forall i, i < n0 -> σ !! i = σ0 !! i.

(** The links of a node stay among the objects numbered from [n0]. *)
Definition node_closed (n0 : nat) (nd : node) : Prop :=
  Forall (le n0) (n_contents nd) /\ (forall p, n_parent nd = Some p -> n0 <= p).

Definition closed_above (n0 : nat) (σ : store) : Prop :=
  forall i nd, n0 <= i -> σ !! i = Some nd -> node_closed n0 nd.

(** The invariant of the transform, for a run started on [σ0]. *)
Definition frame_inv (σ0 σ : store) : Prop :=
  untouched (length σ0) σ0 σ
  /\ length σ0 <= length σ
  /\ closed_above (length σ0) σ.

(** A specification of a computation: from a store satisfying [inv] it
    ends, normally or by an exception, in a store satisfying [inv], and a
    value it returns satisfies [post]. *)
Definition holds (inv : store -> Prop) {A} (m : M A) (post : A -> Prop) : Prop :=
  forall σ, inv σ ->
    inv (snd (m σ)) /\ forall a, fst (m σ) = Ok a -> post a.

Definition any_store : store -> Prop := fun _ => True.

(** The area the image loop compares for a resource, when it reaches it
    with the image [img] at [position] in the store [σ]: the recorded
    [width * height], if the resource has a local path, its element equals
    the image, both pixel sizes are recorded and the position is in the
    viewport. *)
Definition compared_area (σ : store) (img position : nat) (resource : resource)
    : option Z :=
  match r_local_path resource, r_width resource, r_height resource with
  | Some _, Some width, Some height =>
      if tag_eq σ (r_element resource) img && (position <? viewport_height)
      then Some (width * height)%Z
      else None
  | _, _, _ => None
  end.

(** The areas compared for one image, in the order of the resources, each
    with the image; every resource is met in the store the steps for the
    resources before it have left.  The second component is the store after
    the last resource. *)
Fixpoint compared_for (img position : nat) (rs : list resource) (σ : store)
    : list (nat * Z) * store :=
  match rs with
  | [] => ([], σ)
  | resource :: rest =>
      let σ' := snd (image_resource_step img position resource (0%Z, None) σ) in
      let (log, σ'') := compared_for img position rest σ' in
      (match compared_area σ img position resource with
       | Some area => (img, area) :: log
       | None => log
       end, σ'')
  end.

(** The areas the image loop compares, in order: for every image that has a
    parent, those of its resources, at the position the image has when its
    turn comes. *)
Fixpoint compared_areas (repr_len : store -> nat -> nat) (rs : list resource)
    (images : list nat) (σ : store) : list (nat * Z) :=
  match images with
  | [] => []
  | img :: rest =>
      match parent_of σ img with
      | None => compared_areas repr_len rs rest σ
      | Some parent =>
          let (log, σ') := compared_for img (position_of repr_len σ parent) rs σ in
          log ++ compared_areas repr_len rs rest σ'
      end
  end.

(** The local variables [(largest_area, lcp_candidate)] hold the first
    largest of the compared areas: without a candidate no compared area is
    positive and the largest area is still 0; a candidate is the image of
    the first comparison whose area is the largest of all, a positive
    number. *)
Definition first_largest (log : list (nat * Z)) (st : Z * option nat) : Prop :=
  match snd st with
  | None => fst st = 0%Z /\ Forall (fun e => (snd e <= 0)%Z) log
  | Some c =>
      (0 < fst st)%Z
      /\ exists pre post,
           log = pre ++ (c, fst st) :: post
           /\ Forall (fun e => (snd e < fst st)%Z) pre
           /\ Forall (fun e => (snd e <= fst st)%Z) post
  end.

(** One comparison of the loop: a strictly larger area replaces the
    candidate. *)
Definition keep_larger (st : Z * option nat) (e : nat * Z) : Z * option nat :=
  if (fst st <? snd e)%Z then (snd e, Some (fst e)) else st.

(** [_optimize_html] up to the image loop: steps 1 to 5 and the search of
    step 6.  The result is the copied tree and the images the loop scans. *)
Definition steps_before_images (reparse : store -> nat -> list node)
    (dom : nat) (res : resources) (critical_css : option pystr)
    : M (nat * list nat) :=
  optimized_dom ← copy_document reparse dom;
  head ← ensure_head optimized_dom;
  inline_critical_css head critical_css ;;
  σ ← get_store;
  let css_links := find_all σ optimized_dom is_stylesheet_link in
  preload_css_links (res_css res) css_links ;;
  add_noscript_fallbacks css_links ;;
  σ ← get_store;
  let scripts := find_all σ optimized_dom is_external_script in
  defer_scripts (res_js res) scripts ;;
  σ ← get_store;
  mret (optimized_dom, find_all σ optimized_dom is_img_with_src).

(** The candidate in the loop's local variables is an object numbered from
    [n0]. *)
Definition candidate_from (n0 : nat) (st : Z * option nat) : Prop :=
  forall c, snd st = Some c -> n0 <= c.

(** The resource can make an image the LCP candidate. *)
Definition sized_resource (r : resource) : bool :=
  match r_local_path r, r_width r, r_height r with
  | Some _, Some _, Some _ => true
  | _, _, _ => false
  end.

(** *** Sample documents *)

(** [<html><head></head><body><header class="hero"></header>
     <img src="a.png" width="10" height="10"/></body></html>] *)
Definition sample_page : store :=
  [ tag "[document]" [] [1] None;
    tag "html" [] [2; 3] (Some 0);
    tag "head" [] [] (Some 1);
    tag "body" [] [4; 5] (Some 1);
    tag "header" [(str "class", AList [str "hero"])] [] (Some 3);
    tag "img" [(str "src", AStr (str "a.png")); (str "width", AStr (str "10"));
               (str "height", AStr (str "10"))] [] (Some 3) ].

(** [<img src="a.png" width="auto" height="10"/>] *)
Definition auto_width_page : store :=
  [ tag "[document]" [] [1] None;
    tag "img" [(str "src", AStr (str "a.png")); (str "width", AStr (str "auto"));
               (str "height", AStr (str "10"))] [] (Some 0) ].

(** [<img width="auto" height="10"/><img width="100" height="100"/>] *)
Definition mixed_size_page : store :=
  [ tag "[document]" [] [1; 2] None;
    tag "img" [(str "width", AStr (str "auto")); (str "height", AStr (str "10"))]
        [] (Some 0);
    tag "img" [(str "width", AStr (str "100")); (str "height", AStr (str "100"))]
        [] (Some 0) ].

(** [<img width="100" height="100"/><img/><img width="500" height="50"/>
     <img width="50" height="500"/>] *)
Definition gallery_page : store :=
  [ tag "[document]" [] [1; 2; 3; 4] None;
    tag "img" [(str "width", AStr (str "100")); (str "height", AStr (str "100"))]
        [] (Some 0);
    tag "img" [] [] (Some 0);
    tag "img" [(str "width", AStr (str "500")); (str "height", AStr (str "50"))]
        [] (Some 0);
    tag "img" [(str "width", AStr (str "50")); (str "height", AStr (str "500"))]
        [] (Some 0) ].

(** [<html><head><link rel="stylesheet"/></head></html>]: a style sheet
    link without [href]. *)
Definition bare_link_page : store :=
  [ tag "[document]" [] [1] None;
    tag "html" [] [2] (Some 0);
    tag "head" [] [3] (Some 1);
    tag "link" [(str "rel", AList [str "stylesheet"])] [] (Some 2) ].

Definition no_resources : resources := mkResources [] [] [] [].

(** An idealised parser round trip for the samples: the node table of the
    new soup is the one of the store it is printed from. *)
Definition reparse_same : store -> nat -> list node := fun σ _ => σ.

Definition repr_len_const : store -> nat -> nat := fun _ _ => 20.

Definition netloc_none : pystr -> pystr := fun _ => [].

(** [<html><head></head><body><img src="a.png" width="100" height="100"/>
     <img src="b.png"/></body></html>] *)
Definition two_image_page : store :=
  [ tag "[document]" [] [1] None;
    tag "html" [] [2; 3] (Some 0);
    tag "head" [] [] (Some 1);
    tag "body" [] [4; 5] (Some 1);
    tag "img" [(str "src", AStr (str "a.png")); (str "width", AStr (str "100"));
               (str "height", AStr (str "100"))] [] (Some 3);
    tag "img" [(str "src", AStr (str "b.png"))] [] (Some 3) ].

(** The resources of [two_image_page] after a run in which [a.png] could
    not be downloaded and [b.png] was saved as a 5 by 5 image and converted
    to WebP. *)
Definition two_image_resources : resources :=
  mkResources [] []
    [ mkResource (str "https://example.com/a.png") 4 None None None None;
      mkResource (str "https://example.com/b.png") 5 (Some (str "images/b.png"))
                 (Some 5%Z) (Some 5%Z) (Some (str "images/b.webp")) ]
    [].

(** The first group of a regular-expression match, and the text left. *)
Definition first_group (m : list pystr * pystr) : list pystr * pystr :=
  ([nth 0 (fst m) []], snd m).

(** ** critical_css_extractor.py: the signatures of the above-fold elements *)

(** [for cls in v]: the tokens of a multi-valued attribute, the characters
    of a string. *)
Definition iter_value (v : attr_value) : list pystr :=
  match v with
  | AList l => l
  | AStr s => map (fun c => [c]) s
  end.

Section Signatures.

(** [str(l)] of a token list, which an f-string prints for a multi-valued
    attribute: outside the repository. *)
Variable repr_list : list pystr -> pystr.

(** [f"{v}"] of an attribute value. *)
Definition format_value (v : attr_value) : pystr :=
  match v with
  | AStr s => s
  | AList l => repr_list l
  end.

(** [for cls in element['class']: selectors.add(f".{cls}");
     selectors.add(f"{element.name}.{cls}")] *)
Definition add_class_selectors (name : pystr) (classes : list pystr)
    (selectors : gset pystr) : gset pystr :=
  fold_left (fun selectors cls =>
               selectors ∪ {[ "." :: cls ]} ∪ {[ name ++ "." :: cls ]})
            classes selectors.

(** [for cls in element['class']: selectors.add(f"{parent.name} .{cls}")] *)
Definition add_parent_class_selectors (parent_name : pystr) (classes : list pystr)
    (selectors : gset pystr) : gset pystr :=
  fold_left (fun selectors cls => selectors ∪ {[ parent_name ++ " " :: "." :: cls ]})
            classes selectors.

(** The body of [for element in elements]. *)
Definition add_element_selectors (σ : store) (selectors : gset pystr)
    (element : nat) : gset pystr :=
  let name := name_of σ element in
  let selectors := selectors ∪ {[ name ]} in
  let selectors :=
    match attr_get (str "class") (attrs_of σ element) with
    | Some classes => add_class_selectors name (iter_value classes) selectors
    | None => selectors
    end in
  let selectors :=
    match attr_get (str "id") (attrs_of σ element) with
    | Some id => selectors ∪ {[ "#" :: format_value id ]}
    | None => selectors
    end in
  match parent_of σ element with
  | Some parent =>
      let parent_name := name_of σ parent in
      if bool_decide (parent_name <> str "[document]") then
        if negb (Nat.eqb (length parent_name) 0) then
          let selectors := selectors ∪ {[ parent_name ++ " " :: name ]} in
          match attr_get (str "class") (attrs_of σ element) with
          | Some classes =>
              add_parent_class_selectors parent_name (iter_value classes) selectors
          | None => selectors
          end
        else selectors
      else selectors
  | None => selectors
  end.

(** [extract_element_selectors] *)
Definition extract_element_selectors (σ : store) (elements : list nat)
    : gset pystr :=
  fold_left (add_element_selectors σ) elements ∅.

(** The loop [for css_url, css_content in self.css_contents.items()] of
    [extract_critical_css]: the matched selectors of every style sheet,
    pooled. *)
Definition all_critical_selectors (element_selectors : gset pystr)
    (css_contents : list (pystr * pystr)) : gset pystr :=
  fold_left
    (fun all_critical_selectors entry =>
       let css_selectors := parse_css (snd entry) in
       let matching_selectors := match_selectors element_selectors css_selectors in
       all_critical_selectors ∪ matching_selectors)
    css_contents ∅.

(** [extract_critical_css] once the page and the style sheets are there
    (from "Find above-fold elements" on); [css_contents] is
    [self.css_contents.items()]. *)
Definition critical_css_of (σ : store) (dom : nat)
    (css_contents : list (pystr * pystr)) : result pystr :=
  above_fold_elements ← find_above_fold_elements σ dom;
  let element_selectors := extract_element_selectors σ above_fold_elements in
  let all_critical_selectors := all_critical_selectors element_selectors css_contents in
  mret (generate_critical_css css_contents all_critical_selectors).

End Signatures.

(** *** Notions used to state the properties of the signatures *)

(** [s] is one of the signatures the element [e] gives rise to: its tag
    name, [.cls] and [tag.cls] for each class, [#id], and, under a parent
    with a name that is not the document object, [parent tag] and
    [parent .cls]. *)
Definition signature_of (repr_list : list pystr -> pystr) (σ : store)
    (e : nat) (s : pystr) : Prop :=
  let name := name_of σ e in
  let classes :=
    match attr_get (str "class") (attrs_of σ e) with
    | Some v => iter_value v
    | None => []
    end in
  s = name
  \/ (exists cls, cls ∈ classes /\ (s = "." :: cls \/ s = name ++ "." :: cls))
  \/ (exists id, attr_get (str "id") (attrs_of σ e) = Some id
                 /\ s = "#" :: format_value repr_list id)
  \/ (exists parent,
        parent_of σ e = Some parent
        /\ name_of σ parent <> str "[document]"
        /\ name_of σ parent <> []
        /\ (s = name_of σ parent ++ " " :: name
            \/ exists cls, cls ∈ classes
                           /\ s = name_of σ parent ++ " " :: "." :: cls)).

(** A rule the composer visits has a selector part whose text, pseudo
    suffixes removed, contains one of the signatures. *)
Definition rule_is_critical (signatures : gset pystr) (m : pystr * pystr) : Prop :=
  Py.startswith "@" (Py.strip (fst m)) = false
  /\ exists part sig,
       part ∈ split_selectors (Py.strip (fst m))
       /\ sig ∈ signatures
       /\ Py.substring sig (base_selector part).

(** ** site_optimizer.py: the resource table *)

Module SiteOptimizer.

Section Resources.

(** [urljoin(base, url)] of the standard library; [Raise] when it raises. *)
Variable urljoin : pystr -> attr_value -> result pystr.

(** [{"url": url, "element": element}] *)
Definition new_resource (url : pystr) (element : nat) : resource :=
  mkResource url element None None None None.

(** [for link in links: if 'href' in link.attrs:
       table.append({"url": urljoin(self.url, link['href']), "element": link})] *)
Fixpoint add_links (url : pystr) (σ : store) (links : list nat)
    (table : list resource) : result (list resource) :=
  match links with
  | [] => Ok table
  | link :: rest =>
      match attr_get (str "href") (attrs_of σ link) with
      | Some href =>
          link_url ← urljoin url href;
          add_links url σ rest (table ++ [new_resource link_url link])
      | None => add_links url σ rest table
      end
  end.

(** [for tag in tags:
       table.append({"url": urljoin(self.url, tag[k]), "element": tag})] *)
Fixpoint add_tags (url : pystr) (σ : store) (k : pystr) (tags : list nat)
    (table : list resource) : result (list resource) :=
  match tags with
  | [] => Ok table
  | tag :: rest =>
      v ← getitem σ tag k;
      tag_url ← urljoin url v;
      add_tags url σ k rest (table ++ [new_resource tag_url tag])
  end.

(** [lambda r: r and 'font' in r] *)
Definition font_rel (r : pystr) : bool :=
  negb (Nat.eqb (length r) 0) && Py.contains (str "font") r.

Definition is_font_link (σ : store) (i : nat) : bool :=
  name_in [str "link"] σ i && attr_satisfies (str "rel") font_rel σ i.

(** [extract_resources], for a fetched page; [res] is [self.resources]
    before the call, the result is [self.resources] after it. *)
Definition extract_resources (url : pystr) (σ : store) (dom : nat)
    (res : resources) : result resources :=
  let css_links := find_all σ dom is_stylesheet_link in
  css ← add_links url σ css_links (res_css res);
  let scripts := find_all σ dom is_external_script in
  js ← add_tags url σ (str "src") scripts (res_js res);
  let images := find_all σ dom is_img_with_src in
  images ← add_tags url σ (str "src") images (res_images res);
  let font_links := find_all σ dom is_font_link in
  fonts ← add_links url σ font_links (res_fonts res);
  mret (mkResources css js images fonts).

End Resources.

End SiteOptimizer.

(** ** critical_css_extractor.py: the style sheets of a page *)

(** [d[k] = v] on a dict of strings: an existing key keeps its place. *)
Fixpoint dict_set (k v : pystr) (d : list (pystr * pystr)) : list (pystr * pystr) :=
  match d with
  | [] => [(k, v)]
  | (k', v') :: rest =>
      if bool_decide (k' = k) then (k, v) :: rest
      else (k', v') :: dict_set k v rest
  end.

(** [tag.string]: the only child when it is a string, the [string] of the
    only child when it is a tag, [None] otherwise. *)
Fixpoint tag_string (fuel : nat) (σ : store) (i : nat) : option pystr :=
  match fuel with
  | O => None
  | S f =>
      match contents_of σ i with
      | [child] =>
          match σ !! child with
          | Some nd =>
              match n_text nd with
              | Some t => Some t
              | None => tag_string f σ child
              end
          | None => None
          end
      | _ => None
      end
  end.

Definition string_of (σ : store) (i : nat) : option pystr :=
  tag_string (length σ) σ i.

(** [self.css_files] and [self.css_contents] of the extractor. *)
Record extractor : Type := mkExtractor {
  css_files : list pystr;
  css_contents : list (pystr * pystr)
}.

(** The extractor as [__init__] leaves it. *)
Definition new_extractor : extractor := mkExtractor [] [].

(** [f"inline-{i}"] for an index [i] of [enumerate(style_tags)]: the
    index of a list, which is below [sys.maxsize] and so has far fewer
    digits than [PyInt.max_str_digits]; the text is its decimal form. *)
Definition inline_key (i : nat) : pystr :=
  str "inline-" ++ PyInt.decimal (Z.of_nat i).

Section StyleSheets.

(** [urljoin(base, url)] of the standard library; [Raise] when it raises. *)
Variable urljoin : pystr -> attr_value -> result pystr.

(** [requests.get(css_url)] followed by [raise_for_status()] and [.text],
    for the request made at position [i] of the loop; [None] when one of
    them raises. *)
Variable fetch : nat -> pystr -> option pystr.

Variable repr_list : list pystr -> pystr.

(** [for link in css_links: if 'href' in link.attrs:
       self.css_files.append(urljoin(self.url, link['href']))] *)
Fixpoint add_css_links (url : pystr) (σ : store) (css_links : list nat)
    (css_files : list pystr) : result (list pystr) :=
  match css_links with
  | [] => Ok css_files
  | link :: rest =>
      match attr_get (str "href") (attrs_of σ link) with
      | Some href =>
          css_url ← urljoin url href;
          add_css_links url σ rest (css_files ++ [css_url])
      | None => add_css_links url σ rest css_files
      end
  end.

(** [for i, style in enumerate(style_tags): if style.string: ...], from
    index [i] on. *)
Fixpoint add_inline_styles (σ : store) (style_tags : list nat) (i : nat)
    (self : extractor) : extractor :=
  match style_tags with
  | [] => self
  | style :: rest =>
      let self :=
        match string_of σ style with
        | Some text =>
            if negb (Nat.eqb (length text) 0) then
              let inline_key := inline_key i in
              mkExtractor (css_files self ++ [inline_key])
                          (dict_set inline_key text (css_contents self))
            else self
        | None => self
        end in
      add_inline_styles σ rest (S i) self
  end.

(** [extract_css_files], for a fetched page. *)
Definition extract_css_files (url : pystr) (σ : store) (dom : nat)
    (self : extractor) : result extractor :=
  let css_links := find_all σ dom is_stylesheet_link in
  files ← add_css_links url σ css_links (css_files self);
  let style_tags := find_all σ dom (name_in [str "style"]) in
  mret (add_inline_styles σ style_tags 0 (mkExtractor files (css_contents self))).

(** The loop of [fetch_css_contents], from position [i] on. *)
Fixpoint fetch_from (i : nat) (files : list pystr)
    (contents : list (pystr * pystr)) : list (pystr * pystr) :=
  match files with
  | [] => contents
  | css_url :: rest =>
      if Py.is_prefix (str "inline-") css_url then fetch_from (S i) rest contents
      else
        match fetch i css_url with
        | Some text => fetch_from (S i) rest (dict_set css_url text contents)
        | None => fetch_from (S i) rest contents
        end
  end.

(** [fetch_css_contents] *)
Definition fetch_css_contents (self : extractor) : extractor :=
  mkExtractor (css_files self) (fetch_from 0 (css_files self) (css_contents self)).

(** The method [extract_critical_css], for a fetched page. *)
Definition extract_critical_css (url : pystr) (σ : store) (dom : nat)
    (self : extractor) : result pystr :=
  self ← match css_files self with
         | [] =>
             self ← extract_css_files url σ dom self;
             mret (fetch_css_contents self)
         | _ :: _ => mret self
         end;
  critical_css_of repr_list σ dom (css_contents self).

End StyleSheets.

(** ** Notions used to state further properties *)

(** A character that can occur in a text [int] accepts: a digit, an
    underscore, a sign, or white space. *)
Definition numeric_char (c : ascii) : bool :=
  PyInt.is_digit c || PyInt.isspace c
  || Ascii.eqb c "_" || Ascii.eqb c "+" || Ascii.eqb c "-".

(** The resource table with the local paths of the style sheets forgotten. *)
Definition without_local_path (r : resource) : resource :=
  mkResource (r_url r) (r_element r) None (r_width r) (r_height r) (r_webp_path r).

Definition without_css_paths (res : resources) : resources :=
  mkResources (map without_local_path (res_css res))
              (res_js res) (res_images res) (res_fonts res).

(** The element of a style sheet resource, as [extract_resources] records
    it: a [link] tag of the fetched page whose [rel] is [stylesheet]. *)
Definition css_resource_of (σ : store) (r : resource) : Prop :=
  r_element r < length σ
  /\ is_tag σ (r_element r) = true
  /\ is_stylesheet_link σ (r_element r) = true.

(** A resource as [extract_resources] leaves it: nothing downloaded or
    measured yet. *)
Definition fresh_resource (r : resource) : Prop :=
  r_local_path r = None /\ r_width r = None /\ r_height r = None
  /\ r_webp_path r = None.

(** [<html><head><link rel="stylesheet" href="a.css"/></head></html>] *)
Definition linked_page : store :=
  [ tag "[document]" [] [1] None;
    tag "html" [] [2] (Some 0);
    tag "head" [] [3] (Some 1);
    tag "link" [(str "rel", AList [str "stylesheet"]);
                (str "href", AStr (str "a.css"))] [] (Some 2) ].

(** The resources of [linked_page] after the style sheet was downloaded. *)
Definition linked_resources : resources :=
  mkResources
    [ mkResource (str "https://example.com/a.css") 3 (Some (str "css/a.css"))
                 None None None ]
    [] [] [].

(** An idealised [urljoin]: the reference itself, for a string. *)
Definition urljoin_ref (base : pystr) (v : attr_value) : result pystr :=
  match v with
  | AStr s => Ok s
  | AList _ => Raise TypeError
  end.

(** The two stores hold the same tree: only attributes can differ. *)
Definition same_tree (σ σ' : store) : Prop :=
  length σ' = length σ
  /\ forall j,
       name_of σ' j = name_of σ j
       /\ is_tag σ' j = is_tag σ j
       /\ contents_of σ' j = contents_of σ j
       /\ parent_of σ' j = parent_of σ j.

(** [tag.get(k)] read from the store. *)
Definition get_attr (σ : store) (i : nat) (k : pystr) : option attr_value :=
  attr_get k (attrs_of σ i).

(** [<script src="a.js" async=""></script><script src="b.js"></script>] *)
Definition script_page : store :=
  [ tag "[document]" [] [1; 2] None;
    tag "script" [(str "src", AStr (str "a.js")); (str "async", AStr [])] []
        (Some 0);
    tag "script" [(str "src", AStr (str "b.js"))] [] (Some 0) ].

(** The two stores hold the same nodes with the same names and attributes:
    only the links between them can differ. *)
Definition same_labels (σ σ' : store) : Prop :=
  length σ' = length σ
  /\ forall j,
       name_of σ' j = name_of σ j
       /\ is_tag σ' j = is_tag σ j
       /\ attrs_of σ' j = attrs_of σ j.

(** The node is in no tree yet. *)
Definition detached (σ : store) (i : nat) : Prop :=
  i < length σ /\ parent_of σ i = None.

(** The objects of [σ0] are still there in [σ], with the attributes they
    had. *)
Definition attrs_kept (σ0 σ : store) : Prop :=
  length σ0 <= length σ
  /\ forall j, j < length σ0 -> attrs_of σ j = attrs_of σ0 j.

(** The non-empty inline style blocks of a list of [style] tags, keyed by
    the position of the tag in the list, counted from [i]. *)
Fixpoint inline_entries (σ : store) (style_tags : list nat) (i : nat)
    : list (pystr * pystr) :=
  match style_tags with
  | [] => []
  | style :: rest =>
      match string_of σ style with
      | Some text =>
          if negb (Nat.eqb (length text) 0)
          then (inline_key i, text) :: inline_entries σ rest (S i)
          else inline_entries σ rest (S i)
      | None => inline_entries σ rest (S i)
      end
  end.

(** [<head><link rel="stylesheet" href="a.css"/><style>p{x:y}</style></head>]:
    the link comes before the inline block. *)
Definition styled_page : store :=
  [ tag "[document]" [] [1] None;
    tag "head" [] [2; 3] (Some 0);
    tag "link" [(str "rel", AList [str "stylesheet"]);
                (str "href", AStr (str "a.css"))] [] (Some 1);
    tag "style" [] [4] (Some 1);
    text_node (str "p{x:y}") (Some 3) ].

(** A network on which every style sheet reads [q{z:w}]. *)
Definition fetch_const : nat -> pystr -> option pystr :=
  fun _ _ => Some (str "q{z:w}").
(** * Properties

    ** Sanity checks of the CSS side against the Python behaviour *)

Example parse_css_plain :
  parse_css (str "header{color:red}.foo , .bar { color:blue }")
  = [str "header"; str ".foo"; str ".bar"].
Proof. vm_compute. reflexivity. Qed.

Example parse_css_media :
  parse_css (str "@media X { A { d1 } B { d2 } }") = [str "B"].
Proof. vm_compute. reflexivity. Qed.

Example findall_resumes_after_match :
  findall rule_pattern (str "a{b}{c}d{e}")
  = [[str "a"; str "b"]; [str "c}d"; str "e"]].
Proof. vm_compute. reflexivity. Qed.

Example base_selector_hover : base_selector (str "a:hover") = str "a".
Proof. vm_compute. reflexivity. Qed.

Example base_selector_before : base_selector (str "li::before") = str "li".
Proof. vm_compute. reflexivity. Qed.

Example base_selector_not :
  base_selector (str "a:not(.b:hover) c") = str "a c".
Proof. vm_compute. reflexivity. Qed.

Example base_selector_nested_paren :
  base_selector (str "a:not(:nth-child(2))") = str "a)".
Proof. vm_compute. reflexivity. Qed.

Example base_selector_digit : base_selector (str "a:1") = str "a:1".
Proof. vm_compute. reflexivity. Qed.

Example base_selector_triple_colon : base_selector (str ":::x") = str ":".
Proof. vm_compute. reflexivity. Qed.

Example generate_scenario :
  generate_critical_css
    [(str "inline-0", str "header{color: red}.foo{color: blue}")]
    (match_selectors {[ str "header"; str ".site-head"; str "header.site-head" ]}
       (parse_css (str "header{color: red}.foo{color: blue}")))
  = header_comment ++ preamble
      ++ str "header {" ++ nl ++ str "    color: red;" ++ nl ++ str "}" ++ nl ++ nl.
Proof. vm_compute. reflexivity. Qed.

(** ** The matcher *)

Section Matcher.

Lemma ascii_eqb_true (a b : ascii) : Ascii.eqb a b = true <-> a = b.
Proof. apply Ascii.eqb_eq. Qed.

Lemma is_prefix_spec (p s : pystr) :
  Py.is_prefix p s = true <-> exists post, s = p ++ post.
Proof.
  revert s. induction p as [|a p IH]; intros s; simpl.
  - split; [intros _; by exists s | done].
  - destruct s as [|b s].
    + split; [done | intros [post Hpost]; discriminate].
    + rewrite andb_true_iff, ascii_eqb_true, IH. split.
      * intros [-> [post ->]]. by exists post.
      * intros [post Hpost]. injection Hpost as -> ->. eauto.
Qed.

(** [needle in hay] is the substring test. *)
Lemma contains_spec (needle hay : pystr) :
  Py.contains needle hay = true <-> Py.substring needle hay.
Proof.
  unfold Py.substring. induction hay as [|c hay IH].
  - simpl. rewrite orb_false_r, is_prefix_spec. split.
    + intros [post Hpost]. by exists [], post.
    + intros (pre & post & Heq). symmetry in Heq.
      apply app_eq_nil in Heq as [-> Heq].
      apply app_eq_nil in Heq as [-> ->]. by exists [].
  - cbn [Py.contains]. rewrite orb_true_iff, is_prefix_spec, IH. split.
    + intros [[post Hpost] | (pre & post & Heq)].
      * by exists [], post.
      * exists (c :: pre), post. by rewrite Heq.
    + intros (pre & post & Heq). destruct pre as [|c' pre].
      * left. by exists post.
      * right. injection Heq as -> ->. by exists pre, post.
Qed.

Lemma scan_signatures_spec (sigs : list pystr) (base : pystr) :
  scan_signatures sigs base = true
  <-> exists e, e ∈ sigs /\ Py.contains e base = true.
Proof.
  induction sigs as [|e sigs IH]; simpl.
  - split; [done | intros (e & He & _); by apply elem_of_nil in He].
  - destruct (Py.contains e base) eqn:Hc.
    + split; [intros _; exists e; split; [left | done] | done].
    + rewrite IH. split.
      * intros (e' & He' & Hc'). exists e'. split; [by right | done].
      * intros (e' & He' & Hc'). apply elem_of_cons in He' as [-> | He'].
        -- congruence.
        -- by exists e'.
Qed.

Lemma elem_of_match_loop (sigs css_selectors : list pystr) (acc : gset pystr)
    (s : pystr) :
  s ∈ match_loop sigs css_selectors acc
  <-> s ∈ acc \/ (s ∈ css_selectors /\ scan_signatures sigs (base_selector s) = true).
Proof.
  revert acc. induction css_selectors as [|c rest IH]; intros acc; simpl.
  - split; [by left | intros [H | [H _]]; [done | by apply elem_of_nil in H]].
  - rewrite IH. destruct (scan_signatures sigs (base_selector c)) eqn:Hs.
    + rewrite elem_of_union, elem_of_singleton, elem_of_cons. split.
      * intros [[H | ->] | [H1 H2]]; [by left | right | right]; auto.
      * intros [H | [[-> | H1] H2]]; auto.
    + rewrite elem_of_cons. split.
      * intros [H | [H1 H2]]; auto.
      * intros [H | [[-> | H1] H2]]; [auto | congruence | auto].
Qed.

(** Membership in the matcher's result, for any iteration order. *)
Lemma elem_of_match_order (order css_selectors : list pystr) (s : pystr) :
  s ∈ match_loop order css_selectors ∅
  <-> s ∈ css_selectors
      /\ exists e, e ∈ order /\ Py.substring e (base_selector s).
Proof.
  rewrite elem_of_match_loop, scan_signatures_spec. split.
  - intros [H | [H (e & He & Hc)]]; [by apply not_elem_of_empty in H |].
    split; [done |]. exists e. by rewrite <- contains_spec.
  - intros [H (e & He & Hc)]. right. split; [done |].
    exists e. by rewrite contains_spec.
Qed.

Lemma elem_of_match_selectors (S : gset pystr) (L : list pystr) (s : pystr) :
  s ∈ match_selectors S L
  <-> s ∈ L /\ exists e, e ∈ S /\ Py.substring e (base_selector s).
Proof.
  unfold match_selectors. rewrite elem_of_match_order.
  by setoid_rewrite elem_of_elements.
Qed.

End Matcher.

(** ** The parser and the composer *)

Section Composer.

Lemma fold_left_append {A} (f : A -> pystr) (l : list A) (acc : pystr) :
  fold_left (fun css x => css ++ f x) l acc = acc ++ flat_map f l.
Proof.
  revert acc. induction l as [|x l IH]; intros acc; simpl.
  - by rewrite app_nil_r.
  - by rewrite IH, <- app_assoc.
Qed.

Lemma fold_left_nested {A B} (g : A -> list B) (f : B -> pystr)
    (l : list A) (acc : pystr) :
  fold_left (fun css a => fold_left (fun css b => css ++ f b) (g a) css) l acc
  = acc ++ flat_map f (flat_map g l).
Proof.
  revert acc. induction l as [|a l IH]; intros acc; simpl.
  - by rewrite app_nil_r.
  - by rewrite IH, fold_left_append, flat_map_app, <- app_assoc.
Qed.

(** The composer's output is the header, the preamble, and what each
    visited rule contributes, in order. *)
Lemma generate_critical_css_unfold cc crit :
  generate_critical_css cc crit
  = header_comment ++ preamble
      ++ flat_map (emit_rule crit) (all_rule_matches cc).
Proof.
  unfold generate_critical_css, all_rule_matches.
  by rewrite fold_left_nested, <- app_assoc.
Qed.

Lemma emit_rule_emitted crit m :
  emit_rule crit m
  = if is_emitted crit m then format_rule (Py.strip (fst m)) (snd m) else [].
Proof.
  unfold emit_rule, is_emitted.
  destruct (Py.startswith "@" (Py.strip m.1)); simpl; [done |].
  by destruct (any_critical _ _).
Qed.

Lemma flat_map_emit_rule crit ms :
  flat_map (emit_rule crit) ms
  = flat_map (fun m => format_rule (Py.strip (fst m)) (snd m))
             (List.filter (is_emitted crit) ms).
Proof.
  induction ms as [|m ms IH]; simpl; [done |].
  rewrite emit_rule_emitted, IH.
  by destruct (is_emitted crit m).
Qed.

Lemma flat_map_emit_rule_nil crit ms :
  Forall (fun m => any_critical crit (split_selectors (Py.strip (fst m))) = false) ms ->
  flat_map (emit_rule crit) ms = [].
Proof.
  induction 1 as [|m ms Hm _ IH]; simpl; [done |].
  rewrite IH, app_nil_r, emit_rule_emitted. unfold is_emitted.
  by rewrite Hm, andb_false_r.
Qed.

Lemma elem_of_parse_css css s :
  s ∈ parse_css css
  <-> exists m, m ∈ selector_matches css
                /\ Py.startswith "@" (Py.strip m) = false
                /\ s ∈ split_selectors (Py.strip m).
Proof.
  unfold parse_css. rewrite list_elem_of_In, in_flat_map.
  split; intros (m & Hm & Hs); exists m.
  - apply list_elem_of_In in Hm. unfold parse_match in Hs.
    destruct (Py.startswith "@" (Py.strip m)); [done |].
    by apply list_elem_of_In in Hs.
  - destruct Hs as [Hat Hs]. split; [by apply list_elem_of_In |].
    unfold parse_match. rewrite Hat. by apply list_elem_of_In.
Qed.

End Composer.

(** C8. The composed stylesheet always contains the fixed preamble verbatim,
    right after the header comment; when no selector part of any rule is in
    the matched set (in particular for the empty set) it is exactly the
    header comment and the preamble; it is never empty. *)
Theorem C8_preamble_always (cc : list (pystr * pystr)) (crit : gset pystr) :
  Py.substring preamble (generate_critical_css cc crit)
  /\ (exists rest, generate_critical_css cc crit = header_comment ++ preamble ++ rest)
  /\ (Forall (fun m => any_critical crit (split_selectors (Py.strip (fst m))) = false)
             (all_rule_matches cc) ->
      generate_critical_css cc crit = header_comment ++ preamble)
  /\ generate_critical_css cc ∅ = header_comment ++ preamble
  /\ generate_critical_css cc crit <> [].
Proof.
  rewrite !generate_critical_css_unfold. repeat split; [| | | | done].
  - by exists header_comment, (flat_map (emit_rule crit) (all_rule_matches cc)).
  - eauto.
  - intros Hnone. by rewrite flat_map_emit_rule_nil, app_nil_r.
  - rewrite flat_map_emit_rule_nil, app_nil_r; [done |].
    apply Forall_forall. intros m _. unfold any_critical.
    induction (split_selectors _) as [|p ps IH]; simpl; [done |].
    rewrite IH, orb_false_r. apply bool_decide_eq_false. set_solver.
Qed.

Lemma C8_witness :
  generate_critical_css
    [(str "inline-0", str "header{color: red}.foo{color: blue}")] {[ str "nav" ]}
  = header_comment ++ preamble.
Proof.
  apply (proj1 (proj2 (proj2 (C8_preamble_always _ _)))).
  vm_compute. repeat constructor.
Defined.

(** ** The regular expressions on rule-shaped text *)

Section RegexFacts.

Context {R : Type}.

(** The greedy class repetition stops at the first character outside the
    class and hands the rest to the continuation; when that succeeds no
    backtracking happens. *)
Lemma star_cls_run (p : ascii -> bool) (run rest : pystr)
    (k : pystr -> option R) (x : R) :
  Forall (fun c => p c = true) run ->
  match rest with c :: _ => p c = false | [] => True end ->
  k rest = Some x ->
  star_cls p (run ++ rest) k = Some x.
Proof.
  intros Hrun Hrest Hk. induction Hrun as [|a run Ha _ IH]; simpl.
  - destruct rest as [|c rest]; [done |]. simpl. by rewrite Hrest.
  - by rewrite Ha, IH.
Qed.

Lemma star_cls_fail (p : ascii -> bool) (s : pystr) (k : pystr -> option R) :
  (forall t, t `suffix_of` s -> k t = None) ->
  star_cls p s k = None.
Proof.
  induction s as [|c s IH]; intros Hk; simpl.
  - by apply Hk.
  - rewrite IH.
    + rewrite Hk by done. by destruct (p c).
    + intros t Ht. apply Hk. by apply suffix_cons_r.
Qed.

End RegexFacts.

Section RulePatterns.

Lemma not_char_true c x : not_char c x = true <-> x <> c.
Proof.
  unfold not_char. rewrite negb_true_iff. split.
  - intros H ->. by rewrite Ascii.eqb_refl in H.
  - intros H. by apply Ascii.eqb_neq.
Qed.

Lemma not_char_run c (s : pystr) :
  c ∉ s -> Forall (fun x => not_char c x = true) s.
Proof.
  intros H. apply Forall_forall. intros x Hx. apply not_char_true.
  intros ->. by apply H.
Qed.

Lemma take_consumed (m rest : pystr) :
  take (length (m ++ rest) - length rest) (m ++ rest) = m.
Proof.
  rewrite length_app.
  replace (length m + length rest - length rest) with (length m) by lia.
  by rewrite take_app_length.
Qed.

Lemma css_rule_app (g b rest : pystr) :
  css_rule (g, b) ++ rest = g ++ "{" :: b ++ "}" :: rest.
Proof.
  unfold css_rule. cbn [fst snd].
  rewrite <- app_assoc. cbn [app]. by rewrite <- app_assoc.
Qed.

(** Both rule patterns match at the head of [g{b}rest] when [g] is not
    empty and has no opening brace and [b] has no closing brace; the
    groups are [g] and (for [rule_pattern]) [b]. *)
Lemma match_at_rule_pattern (g b rest : pystr) :
  g <> [] -> "{" ∉ g -> "}" ∉ b ->
  match_at rule_pattern (css_rule (g, b) ++ rest) = Some ([g; b], rest).
Proof.
  intros Hne Hg Hb. rewrite css_rule_app.
  destruct g as [|a g]; [done |].
  unfold match_at, rule_pattern. cbn [rmatch app].
  assert (not_char "{" a = true) as ->.
  { apply not_char_true. intros ->. apply Hg. left. }
  apply star_cls_run.
  - apply not_char_run. intros H. apply Hg. by right.
  - done.
  - change (a :: g ++ "{" :: b ++ "}" :: rest)
      with ((a :: g) ++ "{" :: b ++ "}" :: rest).
    rewrite take_consumed. cbn [rmatch app].
    rewrite Ascii.eqb_refl.
    apply star_cls_run; [by apply not_char_run | done |].
    by rewrite take_consumed, Ascii.eqb_refl.
Qed.

Lemma match_at_selector_pattern (g b rest : pystr) :
  g <> [] -> "{" ∉ g -> "}" ∉ b ->
  match_at selector_pattern (css_rule (g, b) ++ rest) = Some ([g], rest).
Proof.
  intros Hne Hg Hb. rewrite css_rule_app.
  destruct g as [|a g]; [done |].
  unfold match_at, selector_pattern. cbn [rmatch app].
  assert (not_char "{" a = true) as ->.
  { apply not_char_true. intros ->. apply Hg. left. }
  apply star_cls_run.
  - apply not_char_run. intros H. apply Hg. by right.
  - done.
  - change (a :: g ++ "{" :: b ++ "}" :: rest)
      with ((a :: g) ++ "{" :: b ++ "}" :: rest).
    rewrite take_consumed. cbn [rmatch app].
    rewrite Ascii.eqb_refl.
    apply star_cls_run; [by apply not_char_run | done |].
    by rewrite Ascii.eqb_refl.
Qed.

(** Without an opening brace there is no match. *)
Lemma match_at_no_brace (r2 : regex) (s : pystr) :
  "{" ∉ s ->
  match_at (Seq (Grp (PlusCls (not_char "{"))) (Seq (Lit "{") r2)) s = None.
Proof.
  intros Hs. unfold match_at. cbn [rmatch].
  destruct s as [|a s]; [done |].
  destruct (not_char "{" a); [|done].
  apply star_cls_fail. intros t Ht.
  destruct t as [|x t]; [done |].
  destruct (Ascii.eqb x "{") eqn:Hx; [|done].
  apply Ascii.eqb_eq in Hx as ->. exfalso. apply Hs.
  right. destruct Ht as [pre ->]. apply elem_of_app. right. left.
Qed.

Lemma findall_from_skip (r : regex) (m rest : pystr) :
  findall_from r (length m) (m ++ rest) = findall_from r 0 rest.
Proof. induction m as [|c m IH]; [done | apply IH]. Qed.

(** After a match the search resumes right behind it. *)
Lemma findall_match (r : regex) (m rest : pystr) (caps : list pystr) :
  m <> [] ->
  match_at r (m ++ rest) = Some (caps, rest) ->
  findall r (m ++ rest) = caps :: findall r rest.
Proof.
  intros Hne Hm. unfold findall. destruct m as [|c m]; [done |].
  cbn [app findall_from]. cbn [app] in Hm. rewrite Hm. f_equal.
  cbn [length]. rewrite length_app.
  replace (S (length m + length rest) - length rest - 1) with (length m) by lia.
  apply findall_from_skip.
Qed.

Lemma findall_no_match (r : regex) (s : pystr) :
  (forall t, t `suffix_of` s -> match_at r t = None) ->
  findall r s = [].
Proof.
  unfold findall. induction s as [|c s IH]; intros Hs; [done |].
  cbn [findall_from]. rewrite Hs by done. apply IH.
  intros t Ht. apply Hs. by apply suffix_cons_r.
Qed.

Lemma findall_no_brace (r2 : regex) (s : pystr) :
  "{" ∉ s ->
  findall (Seq (Grp (PlusCls (not_char "{"))) (Seq (Lit "{") r2)) s = [].
Proof.
  intros Hs. apply findall_no_match. intros t [pre ->].
  apply match_at_no_brace. intros H. apply Hs, elem_of_app. by right.
Qed.

Lemma css_rule_nonempty r : css_rule r <> [].
Proof. unfold css_rule. by destruct (fst r). Qed.

(** A sequence of plain rules followed by brace-free text is read rule by
    rule. *)
Lemma rule_matches_css_rules rules closing :
  Forall plain_rule rules -> "{" ∉ closing ->
  rule_matches (css_rules rules ++ closing) = rules.
Proof.
  intros Hrules Hclosing. unfold rule_matches.
  induction Hrules as [|[g b] rules (Hne & Hg & Hb) _ IH]; cbn [css_rules flat_map app].
  - unfold rule_pattern. by rewrite findall_no_brace.
  - rewrite <- app_assoc.
    rewrite (findall_match _ _ _ [g; b]);
      [| apply css_rule_nonempty | by apply match_at_rule_pattern].
    cbn [map nth]. f_equal. apply IH.
Qed.

Lemma selector_matches_css_rules rules closing :
  Forall plain_rule rules -> "{" ∉ closing ->
  selector_matches (css_rules rules ++ closing) = map fst rules.
Proof.
  intros Hrules Hclosing. unfold selector_matches.
  induction Hrules as [|[g b] rules (Hne & Hg & Hb) _ IH]; cbn [css_rules flat_map app].
  - unfold selector_pattern. by rewrite findall_no_brace.
  - rewrite <- app_assoc.
    rewrite (findall_match _ _ _ [g]);
      [| apply css_rule_nonempty | by apply match_at_selector_pattern].
    cbn [map nth fst]. f_equal. apply IH.
Qed.

(** The text of an at-rule block is itself rule-shaped: the prelude with
    the first inner rule reads as one rule, whose declaration block runs
    to the first closing brace. *)
Lemma at_rule_block_rules prelude first later closing :
  at_rule_block prelude first later closing
  = css_rules (("@" :: prelude, fst first ++ "{" :: snd first) :: later) ++ closing.
Proof.
  unfold at_rule_block, css_rules. cbn [flat_map].
  rewrite <- !app_assoc, !css_rule_app. cbn [fst snd app].
  destruct first as [sel body]. rewrite css_rule_app.
  by rewrite <- !app_assoc.
Qed.

End RulePatterns.

Section Strip.

Lemma lstrip_app_nonspace (l t : pystr) (c : ascii) :
  Py.isspace c = false ->
  Py.lstrip (l ++ c :: t) = Py.lstrip l ++ c :: t.
Proof.
  intros Hc. induction l as [|a l IH]; simpl.
  - by rewrite Hc.
  - by destruct (Py.isspace a).
Qed.

Lemma rstrip_cons_nonspace (c : ascii) (s : pystr) :
  Py.isspace c = false -> Py.rstrip (c :: s) = c :: Py.rstrip s.
Proof.
  intros Hc. unfold Py.rstrip. cbn [rev].
  change (List.rev s ++ [c]) with (List.rev s ++ c :: []).
  rewrite lstrip_app_nonspace by done.
  by rewrite rev_app_distr.
Qed.

(** A text whose first character is not white space keeps it under
    [strip]. *)
Lemma strip_cons_nonspace (c : ascii) (s : pystr) :
  Py.isspace c = false -> Py.strip (c :: s) = c :: Py.rstrip s.
Proof.
  intros Hc. unfold Py.strip. cbn [Py.lstrip]. rewrite Hc.
  by apply rstrip_cons_nonspace.
Qed.

Lemma startswith_at_prelude (prelude : pystr) :
  Py.startswith "@" (Py.strip ("@" :: prelude)) = true.
Proof. by rewrite strip_cons_nonspace. Qed.

End Strip.

(** C10. In an at-rule block that encloses several rules, the prelude and
    the first inner rule are read as one rule and skipped; each later inner
    rule is read exactly as if it stood at top level, by the parser and by
    the composer, which writes it without the at-rule around it. *)
Theorem C10_at_rule_inner_rules (prelude : pystr) (first : pystr * pystr)
    (later : list (pystr * pystr)) (closing : pystr) :
  "{" ∉ prelude -> "}" ∉ fst first -> "}" ∉ snd first ->
  Forall plain_rule later -> "{" ∉ closing ->
  let css := at_rule_block prelude first later closing in
  rule_matches css = ("@" :: prelude, fst first ++ "{" :: snd first) :: later
  /\ parse_css css = flat_map parse_match (map fst later)
  /\ parse_css css = parse_css (css_rules later)
  /\ (forall url crit,
        generate_critical_css [(url, css)] crit
        = header_comment ++ preamble ++ flat_map (emit_rule crit) later)
  /\ (forall url crit,
        generate_critical_css [(url, css)] crit
        = generate_critical_css [(url, css_rules later)] crit).
Proof.
  intros Hprelude Hfirst1 Hfirst2 Hlater Hclosing css.
  assert (Forall plain_rule
            (("@" :: prelude, fst first ++ "{" :: snd first) :: later)) as Hall.
  { constructor; [|done]. repeat split; cbn [fst snd].
    - done.
    - intros H. apply elem_of_cons in H as [H | H]; [done | by apply Hprelude].
    - intros H. apply elem_of_app in H as [H | H]; [by apply Hfirst1 |].
      apply elem_of_cons in H as [H | H]; [done | by apply Hfirst2]. }
  assert (rule_matches css
          = ("@" :: prelude, fst first ++ "{" :: snd first) :: later) as Hrm.
  { unfold css. rewrite at_rule_block_rules. by apply rule_matches_css_rules. }
  assert (selector_matches css = ("@" :: prelude) :: map fst later) as Hsm.
  { unfold css. rewrite at_rule_block_rules.
    by rewrite selector_matches_css_rules. }
  assert (parse_css css = flat_map parse_match (map fst later)) as Hparse.
  { unfold parse_css. rewrite Hsm. cbn [flat_map].
    unfold parse_match at 1. by rewrite startswith_at_prelude. }
  assert (forall url crit,
            generate_critical_css [(url, css)] crit
            = header_comment ++ preamble ++ flat_map (emit_rule crit) later) as Hgen.
  { intros url crit. rewrite generate_critical_css_unfold.
    unfold all_rule_matches. cbn [flat_map snd]. rewrite app_nil_r, Hrm.
    cbn [flat_map]. unfold emit_rule at 1. cbn [fst].
    by rewrite startswith_at_prelude. }
  split; [done |]. split; [done |]. split; [| split; [done |]].
  - rewrite Hparse. unfold parse_css.
    rewrite <- (app_nil_r (css_rules later)).
    by rewrite selector_matches_css_rules by (done || apply not_elem_of_nil).
  - intros url crit. rewrite Hgen, generate_critical_css_unfold.
    unfold all_rule_matches. cbn [flat_map snd]. rewrite app_nil_r.
    rewrite <- (app_nil_r (css_rules later)).
    by rewrite rule_matches_css_rules by (done || apply not_elem_of_nil).
Qed.

Lemma C10_witness :
  let css := str "@media X { A { d1 } B { d2 } }" in
  rule_matches css = [(str "@media X ", str " A { d1 "); (str " B ", str " d2 ")]
  /\ parse_css css = [str "B"]
  /\ generate_critical_css [(str "inline-0", css)] {[ str "B" ]}
     = header_comment ++ preamble
         ++ str "B {" ++ nl ++ str "    d2;" ++ nl ++ str "}" ++ nl ++ nl.
Proof.
  assert ("{" ∉ str "media X ") as H1
    by (apply (bool_decide_unpack _); vm_compute; exact I).
  assert ("}" ∉ str " A ") as H2
    by (apply (bool_decide_unpack _); vm_compute; exact I).
  assert ("}" ∉ str " d1 ") as H3
    by (apply (bool_decide_unpack _); vm_compute; exact I).
  assert (Forall plain_rule [(str " B ", str " d2 ")]) as H4.
  { repeat constructor; cbn [fst snd].
    - discriminate.
    - apply (bool_decide_unpack _); vm_compute; exact I.
    - apply (bool_decide_unpack _); vm_compute; exact I. }
  assert ("{" ∉ str " }") as H5
    by (apply (bool_decide_unpack _); vm_compute; exact I).
  pose proof (C10_at_rule_inner_rules (str "media X ") (str " A ", str " d1 ")
                [(str " B ", str " d2 ")] (str " }") H1 H2 H3 H4 H5) as H.
  cbv zeta in H. destruct H as (Hrm & Hparse & _ & Hgen & _).
  intros css. split; [exact Hrm |]. split.
  - etransitivity; [exact Hparse |]. vm_compute. reflexivity.
  - etransitivity; [apply Hgen |]. vm_compute. reflexivity.
Defined.

(** ** The base selector *)

Section BaseSelector.

Lemma sub_from_skip (r : regex) (m rest : pystr) :
  sub_from r (length m) (m ++ rest) = sub_from r 0 rest.
Proof. induction m as [|c m IH]; [done | apply IH]. Qed.

(** A match is deleted and the scan resumes behind it. *)
Lemma sub_empty_match (r : regex) (m rest : pystr) (caps : list pystr) :
  m <> [] ->
  match_at r (m ++ rest) = Some (caps, rest) ->
  sub_empty r (m ++ rest) = sub_empty r rest.
Proof.
  intros Hne Hm. unfold sub_empty. destruct m as [|c m]; [done |].
  cbn [app sub_from]. cbn [app] in Hm. rewrite Hm.
  cbn [length]. rewrite length_app.
  replace (S (length m + length rest) - length rest) with (S (length m)) by lia.
  apply sub_from_skip.
Qed.

(** A character at which no match starts is copied. *)
Lemma sub_empty_copy (r : regex) (c : ascii) (s : pystr) :
  match_at r (c :: s) = None ->
  sub_empty r (c :: s) = c :: sub_empty r s.
Proof. intros Hm. unfold sub_empty. cbn [sub_from]. by rewrite Hm. Qed.

Lemma match_at_pseudo_not_colon (c : ascii) (s : pystr) :
  c <> ":" -> match_at pseudo_pattern (c :: s) = None.
Proof.
  intros Hc. unfold match_at, pseudo_pattern. cbn [rmatch].
  by apply Ascii.eqb_neq in Hc as ->.
Qed.

(** Text without a colon is kept as it is. *)
Lemma base_selector_no_colon (b t : pystr) :
  ":" ∉ b -> base_selector (b ++ t) = b ++ base_selector t.
Proof.
  unfold base_selector. induction b as [|c b IH]; intros Hb; [done |].
  cbn [app]. rewrite sub_empty_copy.
  - f_equal. apply IH. intros H. apply Hb. by right.
  - apply match_at_pseudo_not_colon. intros ->. apply Hb. left.
Qed.

Lemma rmatch_seq {R} r1 r2 caps s (k : list pystr -> pystr -> option R) :
  rmatch (Seq r1 r2) caps s k
  = rmatch r1 caps s (fun caps' s' => rmatch r2 caps' s' k).
Proof. done. Qed.

Lemma rmatch_opt {R} r caps s (k : list pystr -> pystr -> option R) :
  rmatch (Opt r) caps s k
  = match rmatch r caps s k with Some x => Some x | None => k caps s end.
Proof. done. Qed.

Lemma rmatch_lit_eq {R} c caps s (k : list pystr -> pystr -> option R) :
  rmatch (Lit c) caps (c :: s) k = k caps s.
Proof. cbn. by rewrite Ascii.eqb_refl. Qed.

Lemma rmatch_lit_ne {R} c x caps s (k : list pystr -> pystr -> option R) :
  x <> c -> rmatch (Lit c) caps (x :: s) k = None.
Proof. intros Hx. cbn. by apply Ascii.eqb_neq in Hx as ->. Qed.

Lemma ident_char_not_colon (c : ascii) : ident_char c = true -> c <> ":".
Proof. by intros H ->. Qed.

(** The pattern matches a pseudo-class or pseudo-element suffix whole. *)
Lemma match_at_pseudo_text double name arg rest :
  name <> [] -> Forall (fun c => ident_char c = true) name ->
  (forall a, arg = Some a -> ")" ∉ a) ->
  ends_pseudo arg rest ->
  exists caps,
    match_at pseudo_pattern (pseudo_text double name arg ++ rest) = Some (caps, rest).
Proof.
  intros Hne Hname Harg Hrest.
  destruct name as [|n0 name]; [done |]. apply Forall_cons in Hname as [Hn0 Hname].
  (* what follows the identifier: the optional argument list *)
  assert (forall caps : list pystr, exists caps',
            rmatch (Opt (Grp (Seq (Lit "(") (Seq (StarCls (not_char ")")) (Lit ")")))))
              caps (match arg with Some a => "(" :: a ++ [")"] | None => [] end ++ rest)
              (fun caps rest => Some (caps, rest))
            = Some (caps', rest)) as Hargs.
  { intros caps. destruct arg as [a|]; cbn [rmatch app].
    - rewrite Ascii.eqb_refl. rewrite <- app_assoc. cbn [app].
      erewrite star_cls_run; [by eexists | | done |].
      + apply not_char_run. by apply Harg.
      + by rewrite Ascii.eqb_refl.
    - destruct rest as [|c rest]; [by eexists |].
      destruct Hrest as [_ Hc]. apply Ascii.eqb_neq in Hc as ->. by eexists. }
  (* the identifier, read greedily *)
  assert (forall caps : list pystr, exists caps',
            rmatch (Seq (PlusCls ident_char)
                      (Opt (Grp (Seq (Lit "(") (Seq (StarCls (not_char ")")) (Lit ")"))))))
              caps ((n0 :: name) ++ match arg with
                                    | Some a => "(" :: a ++ [")"]
                                    | None => []
                                    end ++ rest)
              (fun caps rest => Some (caps, rest))
            = Some (caps', rest)) as Hident.
  { intros caps. destruct (Hargs caps) as [caps' Hcaps'].
    exists caps'. cbn [rmatch app]. rewrite Hn0.
    apply star_cls_run; [done | | done].
    destruct arg as [a|]; [done |]. cbn [app].
    destruct rest as [|c rest]; [done |]. by destruct Hrest. }
  destruct (Hident []) as [caps Hcaps]. exists caps.
  unfold match_at, pseudo_pattern, pseudo_text.
  rewrite rmatch_seq. cbn [app]. rewrite rmatch_lit_eq, rmatch_seq, rmatch_opt.
  cbn [app] in Hcaps.
  destruct double; cbn [app]; rewrite <- app_assoc.
  - rewrite rmatch_lit_eq. cbv beta. by rewrite Hcaps.
  - by rewrite rmatch_lit_ne by by apply ident_char_not_colon.
Qed.

(** Deleting a suffix: the text before it (free of colons) is kept, the
    suffix goes, the scan continues in the text behind it. *)
Lemma base_selector_pseudo (b : pystr) double name arg rest :
  ":" ∉ b ->
  name <> [] -> Forall (fun c => ident_char c = true) name ->
  (forall a, arg = Some a -> ")" ∉ a) ->
  ends_pseudo arg rest ->
  base_selector (b ++ pseudo_text double name arg ++ rest) = b ++ base_selector rest.
Proof.
  intros Hb Hne Hname Harg Hrest. rewrite base_selector_no_colon by done.
  f_equal. destruct (match_at_pseudo_text double name arg rest) as [caps Hcaps];
    try done.
  unfold base_selector. by eapply sub_empty_match.
Qed.

End BaseSelector.

(** ** The first part of a selector group *)

Section FirstPart.

Lemma lstrip_head (s t : pystr) (c : ascii) :
  Py.lstrip s = c :: t -> Py.isspace c = false.
Proof.
  induction s as [|a s IH]; cbn; [done |].
  destruct (Py.isspace a) eqn:Ha; [done |]. by intros [= <- _].
Qed.

(** A trimmed text does not start with white space. *)
Lemma strip_head (m g : pystr) (c : ascii) :
  Py.strip m = c :: g -> Py.isspace c = false.
Proof.
  unfold Py.strip. destruct (Py.lstrip m) as [|c0 t] eqn:Hl; [done |].
  apply lstrip_head in Hl. rewrite rstrip_cons_nonspace by done.
  by intros [= <- _].
Qed.

Lemma split_not_nil (sep : ascii) (s : pystr) : Py.split sep s <> [].
Proof.
  destruct s as [|c s]; cbn; [done |].
  destruct (Ascii.eqb c sep); [done |]. by destruct (Py.split sep s).
Qed.

Lemma split_cons_ne (sep c : ascii) (s : pystr) :
  c <> sep ->
  exists part parts,
    Py.split sep s = part :: parts
    /\ Py.split sep (c :: s) = (c :: part) :: parts.
Proof.
  intros Hc. cbn. apply Ascii.eqb_neq in Hc as ->.
  destruct (Py.split sep s) as [|part parts] eqn:Hs.
  - by apply split_not_nil in Hs.
  - by exists part, parts.
Qed.

(** The first comma-part of a trimmed group that does not begin with [@]
    does not begin with [@] either. *)
Lemma first_part_not_at (m : pystr) :
  Py.startswith "@" (Py.strip m) = false ->
  exists first rest,
    split_selectors (Py.strip m) = first :: rest
    /\ Py.startswith "@" first = false.
Proof.
  intros Hat. unfold split_selectors.
  destruct (Py.strip m) as [|c g] eqn:Hg.
  - by exists [], [].
  - pose proof (strip_head _ _ _ Hg) as Hc. cbn in Hat.
    destruct (decide (c = ",")) as [-> | Hcomma].
    + cbn. by eexists _, _.
    + destruct (split_cons_ne "," c g Hcomma) as (part & parts & _ & ->).
      cbn [map]. eexists _, _. split; [done |].
      by rewrite strip_cons_nonspace.
Qed.

End FirstPart.

(** C1. The matcher returns exactly the selectors of [L], unstripped, whose
    base selector has some signature of [S] as a substring, whatever order
    the signatures are scanned in; the base selector is the selector with
    the pseudo-class and pseudo-element suffixes deleted: a colon or two, an
    identifier, and an argument in parentheses if there is one. *)
Theorem C1_match_selectors_exact (S : gset pystr) (L : list pystr) :
  (forall s, s ∈ match_selectors S L
     <-> s ∈ L /\ exists e, e ∈ S /\ Py.substring e (base_selector s))
  /\ (forall order : list pystr,
        match_loop order L ∅ = match_selectors (list_to_set order) L)
  /\ (forall (b : pystr) double name arg rest,
        ":" ∉ b -> name <> [] -> Forall (fun c => ident_char c = true) name ->
        (forall a, arg = Some a -> ")" ∉ a) ->
        ends_pseudo arg rest ->
        base_selector (b ++ pseudo_text double name arg ++ rest)
        = b ++ base_selector rest).
Proof.
  split; [|split].
  - apply elem_of_match_selectors.
  - intros order. apply set_eq. intros s.
    rewrite elem_of_match_order, elem_of_match_selectors.
    by setoid_rewrite elem_of_list_to_set.
  - intros b double name arg rest. apply base_selector_pseudo.
Qed.

Lemma C1_witness :
  base_selector (str "li" ++ pseudo_text true (str "nth-child") (Some (str "2n+1"))
                   ++ str " a")
  = str "li" ++ base_selector (str " a").
Proof.
  apply (proj2 (proj2 (C1_match_selectors_exact ∅ []))).
  - apply (bool_decide_unpack _). vm_compute. exact I.
  - discriminate.
  - apply (bool_decide_unpack _). vm_compute. exact I.
  - intros a [= <-]. apply (bool_decide_unpack _). vm_compute. exact I.
  - vm_compute. by split.
Defined.

(** C9. Containment monotonicity: a larger signature set gives a larger (or
    equal) matched-selector set. *)
Theorem C9_match_selectors_monotone (S S' : gset pystr) (L : list pystr) :
  S ⊆ S' -> match_selectors S L ⊆ match_selectors S' L.
Proof.
  intros Hsub s. rewrite !elem_of_match_selectors.
  intros [HL (e & He & Hsubstr)]. split; [done |]. exists e. split; [|done].
  by apply Hsub.
Qed.

Lemma C9_witness :
  match_selectors {[ str "header" ]} [str "header nav:hover"; str ".foo"]
  ⊆ match_selectors {[ str "header"; str ".foo" ]} [str "header nav:hover"; str ".foo"].
Proof.
  apply C9_match_selectors_monotone.
  apply (bool_decide_unpack _). vm_compute. exact I.
Defined.

(** C2, as the code has it.  The [@] test is made on the trimmed selector
    group of a rule, before the group is split at commas: a returned
    selector is a trimmed comma-part of a group that does not begin with
    [@], the first part of such a group does not begin with [@], and the
    composer writes exactly the visited rules that pass the guard, none of
    whose trimmed selector group begins with [@]. *)
Theorem C2_at_groups_skipped (css : pystr) (cc : list (pystr * pystr))
    (crit : gset pystr) :
  (forall s, s ∈ parse_css css
     <-> exists m, m ∈ selector_matches css
                   /\ Py.startswith "@" (Py.strip m) = false
                   /\ s ∈ split_selectors (Py.strip m))
  /\ (forall m, Py.startswith "@" (Py.strip m) = false ->
        exists first rest,
          split_selectors (Py.strip m) = first :: rest
          /\ Py.startswith "@" first = false)
  /\ generate_critical_css cc crit
     = header_comment ++ preamble
         ++ flat_map (fun m => format_rule (Py.strip (fst m)) (snd m))
                     (emitted_rules cc crit)
  /\ Forall (fun m => m ∈ all_rule_matches cc
                      /\ Py.startswith "@" (Py.strip (fst m)) = false)
            (emitted_rules cc crit).
Proof.
  split; [apply elem_of_parse_css |]. split; [apply first_part_not_at |]. split.
  - by rewrite generate_critical_css_unfold, flat_map_emit_rule.
  - apply Forall_forall. intros m Hm. unfold emitted_rules in Hm.
    apply list_elem_of_In, filter_In in Hm as [Hin Hem].
    split; [by apply list_elem_of_In |].
    unfold is_emitted in Hem. apply andb_true_iff in Hem as [Hat _].
    by apply negb_true_iff in Hat.
Qed.

Lemma C2_witness :
  exists first rest,
    split_selectors (Py.strip (str " h1, @x ")) = first :: rest
    /\ Py.startswith "@" first = false.
Proof.
  apply (proj1 (proj2 (C2_at_groups_skipped [] [] ∅)) (str " h1, @x ")).
  vm_compute. reflexivity.
Defined.

(** A comma-part after the first may itself begin with [@] and is returned
    by the parser; so a text that is also the trimmed selector group of a
    skipped rule can be among the selectors returned. *)
Lemma C2_counterexample :
  parse_css (str "h1, @x { }") = [str "h1"; str "@x"]
  /\ str "@x" ∈ parse_css (str "h1, @x { }")
  /\ Py.startswith "@" (Py.strip (str "@x")) = true
  /\ selector_matches (str "h1, @x { } @x { c }") = [str "h1, @x "; str " @x "]
  /\ parse_css (str "h1, @x { } @x { c }") = [str "h1"; str "@x"].
Proof.
  split; [vm_compute; reflexivity |].
  split; [apply (bool_decide_unpack _); vm_compute; exact I |].
  repeat split; vm_compute; reflexivity.
Qed.

(** ** Sanity checks of the document side *)

Example above_fold_sample :
  find_above_fold_elements sample_page 0 = Ok [4; 4; 5].
Proof. vm_compute. reflexivity. Qed.

Example above_fold_gallery :
  find_above_fold_elements gallery_page 0 = Ok [3].
Proof. vm_compute. reflexivity. Qed.

Example above_fold_auto_width :
  find_above_fold_elements auto_width_page 0 = Raise ValueError.
Proof. vm_compute. reflexivity. Qed.

Example int_examples :
  map PyInt.int [str "12"; str " 12 "; str "+5"; str "-5"; str "1_0"; str "007";
                 str "_1"; str "1__0"; str "1_"; str "0x10"; str ""; str "12.0";
                 str "auto"; str "100px"; str "50%"]
  = [Some 12; Some 12; Some 5; Some (-5); Some 10; Some 7;
     None; None; None; None; None; None; None; None; None]%Z.
Proof. vm_compute. reflexivity. Qed.

(** The limit on the digits of a decimal conversion: 4300 digits are read,
    one more is refused, leading zeros counted, underscores and sign not. *)
Example int_digit_limit :
  PyInt.int (repeat "9" 4300) = Some (10 ^ 4300 - 1)%Z
  /\ PyInt.int (repeat "9" 4301) = None
  /\ PyInt.int (repeat "0" 4301) = None
  /\ PyInt.int ("-" :: repeat "0" 4298 ++ str "1_2") = Some (-12)%Z.
Proof.
  split; [vm_compute; reflexivity |]. split; [vm_compute; reflexivity |].
  split; vm_compute; reflexivity.
Qed.

Example str_examples :
  map PyInt.to_str [0; 7; -12; 340]%Z
  = [Some (str "0"); Some (str "7"); Some (str "-12"); Some (str "340")].
Proof. vm_compute. reflexivity. Qed.

Example above_fold_mixed_size :
  find_above_fold_elements mixed_size_page 0 = Raise ValueError
  /\ List.filter (fun i => declares_size mixed_size_page i)
                 (find_all mixed_size_page 0 is_img) = [2].
Proof. split; vm_compute; reflexivity. Qed.

Example optimize_bare_link :
  fst (_optimize_html reparse_same repr_len_const netloc_none 0 no_resources None
         bare_link_page)
  = Raise KeyError.
Proof. vm_compute. reflexivity. Qed.

Example optimize_sample_lcp :
  fst (_optimize_html reparse_same repr_len_const netloc_none 0 no_resources None
         sample_page)
  = Ok (6, None).
Proof. vm_compute. reflexivity. Qed.

(** ** The traversal

    [descendants] is cut off by its fuel only on stores that are not trees:
    where the nodes have a height (every child lower than its parent), any
    two amounts of fuel above the height of a node list the same
    descendants for it. *)

Lemma descendants_fuel (σ : store) (height : nat -> nat) (fuel fuel' i : nat) :
  (forall p c, c ∈ contents_of σ p -> height c < height p) ->
  height i < fuel -> height i < fuel' ->
  descendants fuel σ i = descendants fuel' σ i.
Proof.
  intros Hheight. revert fuel' i.
  induction fuel as [|fuel IH]; intros fuel' i Hfuel Hfuel'; [lia |].
  destruct fuel' as [|fuel']; [lia |]. cbn [descendants].
  assert (forall c, c ∈ contents_of σ i -> height c < height i) as Hcs
    by (intros c; apply Hheight).
  induction (contents_of σ i) as [|c cs IHcs]; cbn [flat_map]; [done |].
  rewrite IHcs by (intros c' Hc'; apply Hcs; by right).
  rewrite (IH fuel' c); [done | |]; specialize (Hcs c ltac:(left)); lia.
Qed.

Example sample_page_height :
  forall p c, c ∈ contents_of sample_page p -> 6 - c < 6 - p.
Proof.
  intros p c Hc.
  do 6 (destruct p as [|p];
        [repeat (apply elem_of_cons in Hc as [-> | Hc]; [cbn; lia |]);
         by apply elem_of_nil in Hc |]).
  by apply elem_of_nil in Hc.
Qed.

(** ** Class filters and class tokens

    bs4 calls a function filter on every token of [class] and then on the
    tokens joined by spaces.  The filters of the heuristic look for a word
    without a space, so the joined string adds nothing: an element matches
    exactly when one of its class tokens does. *)

Section ClassTokens.

Lemma lower_char_space (c : ascii) : lower_char c = " " <-> c = " ".
Proof.
  split; [|by intros ->].
  unfold lower_char.
  destruct c as [[] [] [] [] [] [] [] []]; vm_compute; congruence.
Qed.

Lemma lower_app (s t : pystr) : lower (s ++ t) = lower s ++ lower t.
Proof. apply map_app. Qed.

Lemma lower_join (l : list pystr) :
  lower (join (str " ") l) = join (str " ") (map lower l).
Proof.
  induction l as [|x [|y l] IH]; [done | done |].
  cbn [join map] in *. by rewrite !lower_app, IH.
Qed.

(** A word without a space that occurs in a space-joined list occurs in one
    of its items. *)
Lemma substring_join (needle : pystr) (l : list pystr) :
  needle <> [] -> " " ∉ needle ->
  Py.substring needle (join (str " ") l) ->
  exists t, t ∈ l /\ Py.substring needle t.
Proof.
  intros Hne Hsp. induction l as [|x [|y l] IH].
  - intros (pre & post & Heq). symmetry in Heq.
    apply app_eq_nil in Heq as [_ Heq]. by apply app_eq_nil in Heq as [-> _].
  - intros Hx. exists x. split; [left | done].
  - intros (pre & post & Heq). cbn [join] in Heq.
    change (str " " ++ join (str " ") (y :: l))
      with (" " :: join (str " ") (y :: l)) in Heq.
    symmetry in Heq. apply app_eq_app in Heq as [mid [[-> Heq] | [-> Heq]]].
    + (* the word starts behind the item *)
      destruct mid as [|c mid].
      * destruct needle as [|n needle]; [done |]. injection Heq as <- _.
        exfalso. apply Hsp. left.
      * injection Heq as <- Heq.
        destruct IH as (t & Ht & Hsub); [by exists mid, post |].
        exists t. split; [by right | done].
    + (* the word starts inside the item *)
      apply app_eq_app in Heq as [mid' [[Hn Heq] | [-> Heq]]].
      * destruct mid' as [|c mid'].
        -- rewrite app_nil_r in Hn. subst mid.
           exists (pre ++ needle). split; [left |].
           exists pre, []. by rewrite app_nil_r.
        -- injection Heq as <- _. exfalso. apply Hsp. rewrite Hn.
           apply elem_of_app. right. left.
      * exists (pre ++ needle ++ mid'). split; [left | by exists pre, mid'].
Qed.

Lemma contains_nonempty (needle hay : pystr) :
  needle <> [] -> Py.contains needle hay = true -> hay <> [].
Proof.
  intros Hne Hc ->. apply contains_spec in Hc as (pre & post & Heq).
  symmetry in Heq. apply app_eq_nil in Heq as [_ Heq].
  by apply app_eq_nil in Heq as [-> _].
Qed.

Lemma word_filter_join (words : list pystr) (l : list pystr) :
  Forall (fun w => w <> [] /\ " " ∉ w) words ->
  existsb (word_filter words) l || word_filter words (join (str " ") l)
  = existsb (word_filter words) l.
Proof.
  intros Hwords. destruct (existsb (word_filter words) l) eqn:Hl; [done |].
  cbn. apply not_true_iff_false. intros Hj. apply not_true_iff_false in Hl.
  apply Hl. unfold word_filter in Hj.
  apply andb_true_iff in Hj as [_ Hj]. apply existsb_exists in Hj as (w & Hw & Hc).
  rewrite Forall_forall in Hwords.
  destruct (Hwords w) as [Hne Hsp]; [by apply list_elem_of_In |].
  rewrite lower_join in Hc. apply contains_spec in Hc.
  destruct (substring_join w (map lower l) Hne Hsp Hc) as (t' & Ht' & Hsub).
  apply list_elem_of_In, in_map_iff in Ht' as (t & <- & Ht).
  apply existsb_exists. exists t. split; [done |].
  apply contains_spec in Hsub. unfold word_filter.
  apply andb_true_iff. split.
  - apply negb_true_iff, Nat.eqb_neq. intros Hlen.
    apply (contains_nonempty w (lower t)); [done | done |].
    unfold lower. by destruct t.
  - apply existsb_exists. by exists w.
Qed.

Lemma existsb_eq {A} (f g : A -> bool) (l : list A) :
  (forall x, f x = g x) -> existsb f l = existsb g l.
Proof. intros Hfg. induction l as [|x l IH]; cbn; [done |]. by rewrite Hfg, IH. Qed.

Lemma hero_or_banner_words (c : pystr) :
  hero_or_banner c = word_filter [str "hero"; str "banner"] c.
Proof. unfold hero_or_banner, word_filter. cbn. by rewrite orb_false_r. Qed.

Lemma section_class_words (c : pystr) :
  section_class c = word_filter [str "section"] c.
Proof. unfold section_class, word_filter. cbn. by rewrite orb_false_r. Qed.

(** An element with class tokens [tokens] passes a word filter exactly
    when one of the tokens contains one of the words, case-insensitively. *)
Lemma class_filter_tokens (words : list pystr) (f : pystr -> bool)
    (σ : store) (i : nat) (tokens : list pystr) :
  (forall c, f c = word_filter words c) ->
  Forall (fun w => w <> [] /\ " " ∉ w) words ->
  attr_get (str "class") (attrs_of σ i) = Some (AList tokens) ->
  attr_satisfies (str "class") f σ i = true
  <-> exists t w, t ∈ tokens /\ w ∈ words /\ Py.substring w (lower t).
Proof.
  intros Hf Hwords Hclass. unfold attr_satisfies. rewrite Hclass.
  rewrite (existsb_eq _ _ _ Hf), Hf, word_filter_join by done.
  rewrite existsb_exists. split.
  - intros (t & Ht & Hw). unfold word_filter in Hw.
    apply andb_true_iff in Hw as [_ Hw]. apply existsb_exists in Hw as (w & Hw & Hc).
    exists t, w. rewrite contains_spec in Hc. by rewrite !list_elem_of_In.
  - intros (t & w & Ht & Hw & Hsub). exists t. split; [by apply list_elem_of_In |].
    apply contains_spec in Hsub. unfold word_filter. apply andb_true_iff. split.
    + apply negb_true_iff, Nat.eqb_neq. intros Hlen.
      rewrite Forall_forall in Hwords. destruct (Hwords w Hw) as [Hne _].
      apply (contains_nonempty w (lower t)); [done | done |].
      unfold lower. by destruct t.
    + apply existsb_exists. exists w. by rewrite <- list_elem_of_In.
Qed.

End ClassTokens.

(** ** The above-the-fold heuristic *)

Section Sorting.

Lemma insert_desc_not_nil x l : insert_desc x l <> [].
Proof. destruct l as [|y l]; simpl; [done |]. by destruct (_ <=? _)%Z. Qed.

Lemma sort_desc_nil l : sort_desc l = [] -> l = [].
Proof.
  destruct l as [|x l]; [done |]. simpl. intros H.
  by apply insert_desc_not_nil in H.
Qed.

(** The first element of the sorted list is the first of the original
    list among those with the largest key. *)
Lemma sort_desc_head ks x rest :
  sort_desc ks = x :: rest ->
  exists pre post,
    ks = pre ++ x :: post
    /\ Forall (fun y => (fst y < fst x)%Z) pre
    /\ Forall (fun y => (fst y <= fst x)%Z) post.
Proof.
  revert x rest. induction ks as [|a ks IH]; intros x rest Hs; [done |].
  cbn [sort_desc] in Hs. destruct (sort_desc ks) as [|y l] eqn:Hks.
  - apply sort_desc_nil in Hks as ->. cbn in Hs. injection Hs as <- <-.
    exists [], []. by repeat split.
  - destruct (IH y l eq_refl) as (pre & post & -> & Hpre & Hpost).
    cbn [insert_desc] in Hs. destruct (fst y <=? fst a)%Z eqn:Hle.
    + injection Hs as <- <-. apply Z.leb_le in Hle.
      exists [], (pre ++ y :: post). repeat split; [done |].
      apply Forall_app. split; [|constructor].
      * eapply Forall_impl; [exact Hpre |]. cbn. intros; lia.
      * done.
      * eapply Forall_impl; [exact Hpost |]. cbn. intros; lia.
    + injection Hs as <- <-. apply Z.leb_gt in Hle.
      exists (a :: pre), post. repeat split; [|done].
      by constructor.
Qed.

Lemma with_keys_spec key l ks :
  with_keys key l = Ok ks ->
  map snd ks = l /\ Forall (fun p => key (snd p) = Ok (fst p)) ks.
Proof.
  revert ks. induction l as [|x l IH]; intros ks; cbn [with_keys].
  - intros [= <-]. by split.
  - destruct (key x) as [k|e] eqn:Hk; [|done]. cbn.
    destruct (with_keys key l) as [ks'|e] eqn:Hl; [|done]. cbn.
    intros [= <-]. destruct (IH _ eq_refl) as [Hmap Hall].
    cbn. split; [by rewrite Hmap | by constructor].
Qed.

Lemma with_keys_total key l :
  Forall (fun x => exists k, key x = Ok k) l ->
  exists ks, with_keys key l = Ok ks.
Proof.
  induction 1 as [|x l [k Hk] _ [ks IH]]; cbn [with_keys]; [by eexists |].
  rewrite Hk, IH. cbn. by eexists.
Qed.

End Sorting.

Section AboveFold.

Variable σ : store.
Variable dom : nat.

Local Abbreviation imgs := (find_all σ dom is_img).
Local Abbreviation sized := (List.filter (has_size σ) imgs).
Local Abbreviation declared := (List.filter (fun i => declares_size σ i) imgs).

Lemma declares_size_has_size i : declares_size σ i = true -> has_size σ i = true.
Proof.
  unfold declares_size, area_key, getitem, has_size, has_attr.
  destruct (attr_get (str "width") _); [|done].
  destruct (attr_get (str "height") _); [done |].
  cbn. by destruct (int_of_attr _).
Qed.

Lemma declared_area_key i k : area_key σ i = Ok k -> declared_area σ i = k.
Proof. unfold declared_area. by intros ->. Qed.

(** When every image carrying both attributes declares integers, the
    images declaring a size are those carrying both attributes. *)
Lemma declared_sized :
  Forall (fun i => declares_size σ i = true) sized -> declared = sized.
Proof.
  intros Hall. rewrite Forall_forall in Hall.
  apply filter_ext_in. intros i Hi.
  destruct (has_size σ i) eqn:Hs.
  - apply Hall. apply list_elem_of_In, filter_In. by split.
  - destruct (declares_size σ i) eqn:Hd; [|done].
    apply declares_size_has_size in Hd. congruence.
Qed.

Lemma lcp_image_none : sized = [] -> lcp_image σ dom = Ok [].
Proof.
  unfold lcp_image. intros ->. by destruct imgs.
Qed.

(** What the image block returns: nothing without sized images, else the
    dominant one; it returns only when every sized image declares
    integers. *)
Lemma lcp_image_ok lcp :
  lcp_image σ dom = Ok lcp ->
  Forall (fun i => declares_size σ i = true) sized
  /\ match sized with
     | [] => lcp = []
     | _ :: _ => exists e, lcp = [e] /\ dominant (declared_area σ) sized e
     end.
Proof.
  unfold lcp_image.
  destruct imgs as [|i0 imgs0] eqn:Himgs.
  { cbn. intros [= <-]. by split. }
  destruct (List.filter (has_size σ) (i0 :: imgs0)) as [|s0 sized0] eqn:Hsized.
  { intros [= <-]. by split. }
  unfold sort_by_key_reverse.
  destruct (with_keys (area_key σ) (s0 :: sized0)) as [ks|e] eqn:Hks; [|done].
  cbn. destruct (with_keys_spec _ _ _ Hks) as [Hmap Hkeys].
  destruct (sort_desc ks) as [|[k e] rest] eqn:Hsort.
  { apply sort_desc_nil in Hsort as ->. done. }
  cbn. intros [= <-].
  destruct (sort_desc_head _ _ _ Hsort) as (pre & post & -> & Hpre & Hpost).
  rewrite Forall_app, Forall_cons in Hkeys.
  destruct Hkeys as (Hkpre & Hke & Hkpost). cbn in Hke.
  rewrite map_app in Hmap. cbn in Hmap. split.
  - rewrite <- Hmap. apply Forall_app. split; [|constructor].
    + apply Forall_forall. intros x Hx. apply list_elem_of_In, in_map_iff in Hx.
      destruct Hx as (p & <- & Hp). rewrite Forall_forall in Hkpre.
      unfold declares_size. by rewrite (Hkpre p) by by apply list_elem_of_In.
    + unfold declares_size. by rewrite Hke.
    + apply Forall_forall. intros x Hx. apply list_elem_of_In, in_map_iff in Hx.
      destruct Hx as (p & <- & Hp). rewrite Forall_forall in Hkpost.
      unfold declares_size. by rewrite (Hkpost p) by by apply list_elem_of_In.
  - exists e. split; [done |]. exists (map snd pre), (map snd post).
    split; [done |]. rewrite (declared_area_key _ _ Hke). split.
    + apply Forall_forall. intros x Hx. apply list_elem_of_In, in_map_iff in Hx.
      destruct Hx as (p & <- & Hp). apply list_elem_of_In in Hp.
      rewrite Forall_forall in Hkpre, Hpre.
      rewrite (declared_area_key _ _ (Hkpre p Hp)). by apply Hpre.
    + apply Forall_forall. intros x Hx. apply list_elem_of_In, in_map_iff in Hx.
      destruct Hx as (p & <- & Hp). apply list_elem_of_In in Hp.
      rewrite Forall_forall in Hkpost, Hpost.
      rewrite (declared_area_key _ _ (Hkpost p Hp)). by apply Hpost.
Qed.

Lemma lcp_image_total :
  Forall (fun i => declares_size σ i = true) sized ->
  exists lcp, lcp_image σ dom = Ok lcp.
Proof.
  intros Hall. unfold lcp_image.
  destruct imgs as [|i0 imgs0]; [by eexists |].
  destruct (List.filter (has_size σ) (i0 :: imgs0)) as [|s0 sized0]; [by eexists |].
  unfold sort_by_key_reverse.
  destruct (with_keys_total (area_key σ) (s0 :: sized0)) as [ks ->].
  - eapply Forall_impl; [exact Hall |]. intros i Hi. unfold declares_size in Hi.
    destruct (area_key σ i); [by eexists | done].
  - cbn. destruct (sort_desc ks); by eexists.
Qed.

Lemma find_above_fold_elements_unfold :
  find_above_fold_elements σ dom
  = lcp ← lcp_image σ dom; mret (structural_part σ dom ++ lcp).
Proof.
  unfold find_above_fold_elements, structural_part. cbn [app].
  destruct (find_all σ dom section_like) eqn:Hs.
  - by rewrite take_nil, app_nil_r.
  - by rewrite <- app_assoc.
Qed.

(** The result of the heuristic, when it returns. *)
Lemma find_above_fold_elements_ok l :
  find_above_fold_elements σ dom = Ok l ->
  exists lcp,
    l = structural_part σ dom ++ lcp
    /\ Forall (fun i => declares_size σ i = true) sized
    /\ match declared with
       | [] => lcp = []
       | _ :: _ => exists e, lcp = [e] /\ dominant (declared_area σ) declared e
       end.
Proof.
  rewrite find_above_fold_elements_unfold.
  destruct (lcp_image σ dom) as [lcp|e] eqn:Hlcp; [|done].
  cbn. intros [= <-]. exists lcp. split; [done |].
  destruct (lcp_image_ok _ Hlcp) as [Hall Hdom]. split; [done |].
  by rewrite (declared_sized Hall).
Qed.

End AboveFold.

(** A raise of the heuristic: some image carries both attributes and one of
    them does not read as an integer. *)
Lemma find_above_fold_elements_raises (σ : store) (dom : nat) (img : nat) :
  img ∈ find_all σ dom is_img -> has_size σ img = true ->
  declares_size σ img = false ->
  exists e, find_above_fold_elements σ dom = Raise e.
Proof.
  intros Himg Hsize Hdecl.
  destruct (find_above_fold_elements σ dom) as [l|e] eqn:Hl; [|by exists e].
  destruct (find_above_fold_elements_ok _ _ _ Hl) as (_ & _ & Hall & _).
  rewrite Forall_forall in Hall. rewrite Hall in Hdecl; [done |].
  apply list_elem_of_In, filter_In. split; [by apply list_elem_of_In | done].
Qed.

(** C7 fails on the code.  The image block keeps every image that carries
    [width] and [height] and sorts them by [int(width) * int(height)], so
    a value that is not an integer makes it raise: on a page with an image
    of width [auto] and a 100 by 100 image, the second is the image of
    largest area among those declaring integers, and the heuristic raises
    [ValueError] instead of appending it; it raises whenever an image
    carries both attributes without declaring integers.  On the other
    documents it does what the claim says: it returns; it appends nothing
    when no image carries both attributes; what it appends is the image of
    largest declared area, the first such in document order, and never an
    image missing an attribute. *)
Theorem C7_dominant_image_or_raise :
  (find_above_fold_elements mixed_size_page 0 = Raise ValueError
   /\ List.filter (fun i => declares_size mixed_size_page i)
                  (find_all mixed_size_page 0 is_img) = [2]
   /\ dominant (declared_area mixed_size_page) [2] 2)
  /\ (forall σ dom img,
        img ∈ find_all σ dom is_img -> has_size σ img = true ->
        declares_size σ img = false ->
        exists e, find_above_fold_elements σ dom = Raise e)
  /\ (forall σ dom,
        let imgs := find_all σ dom is_img in
        let declared := List.filter (fun i => declares_size σ i) imgs in
        (List.filter (has_size σ) imgs = [] ->
           find_above_fold_elements σ dom = Ok (structural_part σ dom))
        /\ (forall l, find_above_fold_elements σ dom = Ok l ->
              exists lcp,
                l = structural_part σ dom ++ lcp
                /\ match declared with
                   | [] => lcp = []
                   | _ :: _ =>
                       exists e, lcp = [e] /\ dominant (declared_area σ) declared e
                   end
                /\ Forall (fun e => e ∈ imgs /\ has_size σ e = true) lcp)
        /\ (Forall (fun i => declares_size σ i = true) (List.filter (has_size σ) imgs) ->
            exists l, find_above_fold_elements σ dom = Ok l)).
Proof.
  split; [|split].
  - split; [vm_compute; reflexivity |]. split; [vm_compute; reflexivity |].
    exists [], []. by repeat split.
  - apply find_above_fold_elements_raises.
  - intros σ dom. cbv zeta. split; [|split].
    + intros Hnone. rewrite find_above_fold_elements_unfold.
      rewrite lcp_image_none by done. cbn. by rewrite app_nil_r.
    + intros l Hl. destruct (find_above_fold_elements_ok _ _ _ Hl)
        as (lcp & -> & Hall & Hdom).
      exists lcp. split; [done |]. split; [done |].
      destruct (List.filter (fun i => declares_size σ i) (find_all σ dom is_img))
        as [|d0 ds] eqn:Hd.
      * by subst lcp.
      * destruct Hdom as (e & -> & pre & post & Heq & _).
        constructor; [|done].
        assert (e ∈ List.filter (fun i => declares_size σ i) (find_all σ dom is_img))
          as He.
        { rewrite Hd, Heq. apply elem_of_app. right. left. }
        apply list_elem_of_In, filter_In in He as [Hin Hds].
        split; [by apply list_elem_of_In | by apply declares_size_has_size].
    + intros Hall. rewrite find_above_fold_elements_unfold.
      destruct (lcp_image_total _ _ Hall) as [lcp ->]. cbn. by eexists.
Qed.

Lemma C7_witness :
  exists lcp,
    [3] = structural_part gallery_page 0 ++ lcp
    /\ match List.filter (fun i => declares_size gallery_page i)
               (find_all gallery_page 0 is_img) with
       | [] => lcp = []
       | _ :: _ =>
           exists e, lcp = [e]
             /\ dominant (declared_area gallery_page)
                  (List.filter (fun i => declares_size gallery_page i)
                     (find_all gallery_page 0 is_img)) e
       end
    /\ Forall (fun e => e ∈ find_all gallery_page 0 is_img
                        /\ has_size gallery_page e = true) lcp.
Proof.
  apply (proj1 (proj2 (proj2 (proj2 C7_dominant_image_or_raise) gallery_page 0)) [3]).
  vm_compute. reflexivity.
Defined.

Lemma heuristic_words_plain :
  Forall (fun w : pystr => w <> [] /\ " " ∉ w) [str "hero"; str "banner"]
  /\ Forall (fun w : pystr => w <> [] /\ " " ∉ w) [str "section"].
Proof.
  split; repeat constructor; try discriminate;
    apply (bool_decide_unpack _); vm_compute; exact I.
Qed.

(** C6, as the code has it.  When the heuristic returns, its result is the
    header and nav elements in document order, then the elements with a
    class token containing hero or banner, then the first three section or
    div elements with a class token containing section, then the dominant
    sized image if there is one; nothing is removed, so an element found by
    several steps appears once for each. *)
Theorem C6_above_fold_order (σ : store) (dom : nat) (l : list nat) :
  find_above_fold_elements σ dom = Ok l ->
  (exists lcp,
     l = find_all σ dom header_or_nav
           ++ find_all σ dom hero_class
           ++ take 3 (find_all σ dom section_like)
           ++ lcp
     /\ match List.filter (fun i => declares_size σ i) (find_all σ dom is_img) with
        | [] => lcp = []
        | _ :: _ =>
            exists e, lcp = [e]
              /\ dominant (declared_area σ)
                   (List.filter (fun i => declares_size σ i) (find_all σ dom is_img)) e
        end)
  /\ (forall i tokens,
        attr_get (str "class") (attrs_of σ i) = Some (AList tokens) ->
        (hero_class σ i = true
         <-> exists t w, t ∈ tokens /\ w ∈ [str "hero"; str "banner"]
                         /\ Py.substring w (lower t))
        /\ (section_like σ i = true
            <-> name_of σ i ∈ [str "section"; str "div"]
                /\ exists t w, t ∈ tokens /\ w ∈ [str "section"]
                               /\ Py.substring w (lower t))).
Proof.
  intros Hl. split.
  - destruct (find_above_fold_elements_ok _ _ _ Hl) as (lcp & -> & _ & Hdom).
    exists lcp. split; [|done].
    unfold structural_part. by rewrite <- !app_assoc.
  - intros i tokens Hclass. destruct heuristic_words_plain as [Hhero Hsection].
    split.
    + apply class_filter_tokens; [apply hero_or_banner_words | done | done].
    + unfold section_like, name_in.
      rewrite andb_true_iff, bool_decide_eq_true.
      by rewrite (class_filter_tokens _ _ _ _ _ section_class_words Hsection Hclass).
Qed.

Lemma C6_witness :
  exists lcp,
    [4; 4; 5] = find_all sample_page 0 header_or_nav
          ++ find_all sample_page 0 hero_class
          ++ take 3 (find_all sample_page 0 section_like)
          ++ lcp
    /\ match List.filter (fun i => declares_size sample_page i)
               (find_all sample_page 0 is_img) with
       | [] => lcp = []
       | _ :: _ =>
           exists e, lcp = [e]
             /\ dominant (declared_area sample_page)
                  (List.filter (fun i => declares_size sample_page i)
                     (find_all sample_page 0 is_img)) e
       end.
Proof.
  apply (proj1 (C6_above_fold_order sample_page 0 [4; 4; 5] ltac:(vm_compute; reflexivity))).
Defined.

(** A header whose class is [hero] is returned twice. *)
Lemma C6_counterexample :
  find_above_fold_elements sample_page 0 = Ok [4; 4; 5]
  /\ ~ NoDup [4; 4; 5].
Proof.
  split; [vm_compute; reflexivity |].
  intros H. apply NoDup_cons in H as [H _]. apply H. left.
Qed.

(** ** Running store computations *)

Section Running.

Lemma bind_run {A B} (m : M A) (f : A -> M B) (σ : store) :
  (m ≫= f) σ
  = match m σ with
    | (Ok a, σ') => f a σ'
    | (Raise e, σ') => (Raise e, σ')
    end.
Proof. reflexivity. Qed.

Lemma bind_ok {A B} (m : M A) (f : A -> M B) (σ σ' : store) (a : A) :
  m σ = (Ok a, σ') -> (m ≫= f) σ = f a σ'.
Proof. intros H. by rewrite bind_run, H. Qed.

Lemma bind_raise {A B} (m : M A) (f : A -> M B) (σ σ' : store) (e : exn) :
  m σ = (Raise e, σ') -> (m ≫= f) σ = (Raise e, σ').
Proof. intros H. by rewrite bind_run, H. Qed.

Lemma bind_ok_inv {A B} (m : M A) (f : A -> M B) (σ : store) (b : B) :
  fst ((m ≫= f) σ) = Ok b ->
  exists a σ', m σ = (Ok a, σ') /\ fst (f a σ') = Ok b.
Proof.
  rewrite bind_run. destruct (m σ) as [[a|e] σ']; [by eexists _, _ | done].
Qed.

(** Two continuations that agree wherever the first part can end give the
    same computation. *)
Lemma bind_agree (inv : store -> Prop) {A B} (m : M A) (f g : A -> M B)
    (P : A -> Prop) :
  holds inv m P ->
  (forall a σ, P a -> inv σ -> f a σ = g a σ) ->
  forall σ, inv σ -> (m ≫= f) σ = (m ≫= g) σ.
Proof.
  intros Hm Hfg σ Hσ. rewrite !bind_run.
  destruct (Hm σ Hσ) as [Hinv Hpost].
  destruct (m σ) as [[a|e] σ']; [|done].
  apply Hfg; [by apply Hpost | done].
Qed.

Lemma result_bind_ok {A B} (a : A) (f : A -> result B) : (Ok a ≫= f) = f a.
Proof. reflexivity. Qed.

Lemma result_bind_raise {A B} (e : exn) (f : A -> result B) :
  (Raise e ≫= f) = Raise e.
Proof. reflexivity. Qed.

End Running.


(** ** Specifications of store computations *)

Section Holds.

Variable inv : store -> Prop.

Lemma holds_ret {A} (a : A) (post : A -> Prop) :
  post a -> holds inv (mret a) post.
Proof. intros Ha σ Hσ. split; [done |]. by intros a' [= <-]. Qed.

Lemma holds_raise {A} (e : exn) (post : A -> Prop) :
  holds inv (raise e) post.
Proof. intros σ Hσ. by split. Qed.

Lemma holds_bind {A B} (m : M A) (f : A -> M B) (P : A -> Prop) (Q : B -> Prop) :
  holds inv m P ->
  (forall a, P a -> holds inv (f a) Q) ->
  holds inv (m ≫= f) Q.
Proof.
  intros Hm Hf σ Hσ. unfold mbind, M_bind.
  destruct (Hm σ Hσ) as [Hinv Hpost].
  destruct (m σ) as [[a|e] σ']; cbn in *.
  - by apply Hf; [apply Hpost |].
  - by split.
Qed.

Lemma holds_weaken {A} (m : M A) (P Q : A -> Prop) :
  holds inv m P -> (forall a, P a -> Q a) -> holds inv m Q.
Proof.
  intros Hm HPQ σ Hσ. destruct (Hm σ Hσ) as [Hinv Hpost].
  split; [done |]. intros a Ha. by apply HPQ, Hpost.
Qed.

Lemma holds_get_store : holds inv get_store inv.
Proof. intros σ Hσ. split; [done |]. by intros σ' [= <-]. Qed.

Lemma holds_str_of_int (n : Z) : holds inv (str_of_int n) (fun _ => True).
Proof.
  unfold str_of_int. destruct (PyInt.to_str n); [by apply holds_ret | apply holds_raise].
Qed.

Lemma holds_when (b : bool) (m : M unit) :
  (b = true -> holds inv m (fun _ => True)) ->
  holds inv (when b m) (fun _ => True).
Proof. destruct b; cbn; intros Hm; [by apply Hm | by apply holds_ret]. Qed.

Lemma holds_for_each {A} (l : list A) (body : A -> M unit) :
  (forall x, x ∈ l -> holds inv (body x) (fun _ => True)) ->
  holds inv (for_each l body) (fun _ => True).
Proof.
  induction l as [|x l IH]; intros Hbody; cbn [for_each].
  - by apply holds_ret.
  - eapply holds_bind; [apply Hbody; left |]. intros _ _.
    apply IH. intros y Hy. apply Hbody. by right.
Qed.

Lemma holds_fold_each {A S} (l : list A) (st : S) (body : A -> S -> M S)
  (I : S -> Prop) :
  I st ->
  (forall x st, x ∈ l -> I st -> holds inv (body x st) I) ->
  holds inv (fold_each l st body) I.
Proof.
  revert st. induction l as [|x l IH]; intros st Hst Hbody; cbn [fold_each].
  - by apply holds_ret.
  - eapply holds_bind; [apply Hbody; [left | done] |].
    intros st' Hst'. apply IH; [done |].
    intros y st'' Hy. apply Hbody. by right.
Qed.

End Holds.

(** Without an invariant and without a postcondition there is nothing to
    show. *)
Lemma holds_any {A} (m : M A) : holds any_store m (fun _ => True).
Proof. by intros σ _. Qed.

(** ** The transform touches new objects only *)

Section Frame.

Variable σ0 : store.

Local Abbreviation n0 := (length σ0).
Local Abbreviation framed := (holds (frame_inv σ0)).

Lemma frame_inv_init : frame_inv σ0 σ0.
Proof.
  split; [done |]. split; [done |].
  intros i nd Hi Hnd. apply lookup_lt_Some in Hnd. lia.
Qed.

Lemma frame_node σ i nd :
  frame_inv σ0 σ -> n0 <= i -> σ !! i = Some nd -> node_closed n0 nd.
Proof. intros (_ & _ & Hclosed). apply Hclosed. Qed.

Lemma frame_contents σ i :
  frame_inv σ0 σ -> n0 <= i -> Forall (le n0) (contents_of σ i).
Proof.
  intros Hinv Hi. unfold contents_of.
  destruct (σ !! i) as [nd|] eqn:Hnd; [|done].
  by destruct (frame_node _ _ _ Hinv Hi Hnd).
Qed.

Lemma frame_parent σ i p :
  frame_inv σ0 σ -> n0 <= i -> parent_of σ i = Some p -> n0 <= p.
Proof.
  intros Hinv Hi. unfold parent_of.
  destruct (σ !! i) as [nd|] eqn:Hnd; [|done].
  destruct (frame_node _ _ _ Hinv Hi Hnd) as [_ Hp]. apply Hp.
Qed.

Lemma frame_descendants σ fuel i :
  frame_inv σ0 σ -> n0 <= i -> Forall (le n0) (descendants fuel σ i).
Proof.
  intros Hinv. revert i. induction fuel as [|fuel IH]; intros i Hi; cbn; [done |].
  pose proof (frame_contents _ _ Hinv Hi) as Hcs.
  induction Hcs as [|c cs Hc _ IHcs]; cbn; [done |].
  constructor; [done |]. apply Forall_app. split; [by apply IH | done].
Qed.

Lemma frame_find_all σ root matches :
  frame_inv σ0 σ -> n0 <= root -> Forall (le n0) (find_all σ root matches).
Proof.
  intros Hinv Hroot. unfold find_all, all_descendants.
  apply Forall_forall. intros x Hx.
  apply list_elem_of_In, filter_In in Hx as [Hx _].
  pose proof (frame_descendants σ (length σ) root Hinv Hroot) as Hd.
  rewrite Forall_forall in Hd. by apply Hd, list_elem_of_In.
Qed.

Lemma frame_find σ root matches h :
  frame_inv σ0 σ -> n0 <= root -> find σ root matches = Some h -> n0 <= h.
Proof.
  intros Hinv Hroot. unfold find.
  pose proof (frame_find_all σ root matches Hinv Hroot) as Hall.
  destruct (find_all σ root matches) as [|x l]; [done |].
  intros [= <-]. by apply Forall_inv in Hall.
Qed.

(** *** The primitives *)

Lemma framed_alloc nd :
  node_closed n0 nd -> framed (alloc nd) (le n0).
Proof.
  intros Hnd σ (Hun & Hlen & Hclosed). unfold alloc. cbn. split.
  - split; [|split].
    + intros i Hi. rewrite lookup_app_l by lia. by apply Hun.
    + rewrite length_app. lia.
    + intros i x Hi Hx. apply lookup_app_Some in Hx as [Hx | [_ Hx]].
      * by eapply Hclosed.
      * destruct (i - length σ); [|done]. by injection Hx as <-.
  - by intros a [= <-].
Qed.

Lemma framed_update i f :
  n0 <= i ->
  (forall nd, node_closed n0 nd -> node_closed n0 (f nd)) ->
  framed (update i f) (fun _ => True).
Proof.
  intros Hi Hf σ (Hun & Hlen & Hclosed). unfold update. cbn. split; [|done].
  split; [|split].
  - intros j Hj. rewrite list_lookup_alter_ne by lia. by apply Hun.
  - by rewrite length_alter.
  - intros j x Hj Hx. destruct (decide (i = j)) as [<- | Hne].
    + rewrite list_lookup_alter_eq in Hx.
      destruct (σ !! i) as [nd|] eqn:Hnd; [|done].
      injection Hx as <-. apply Hf. by eapply Hclosed.
    + rewrite list_lookup_alter_ne in Hx by done. by eapply Hclosed.
Qed.

Lemma lookup_map_Some {A B} (f : A -> B) (l : list A) i y :
  map f l !! i = Some y -> exists x, l !! i = Some x /\ y = f x.
Proof.
  revert i. induction l as [|a l IH]; intros [|i]; cbn; try done.
  - intros [= <-]. by exists a.
  - apply IH.
Qed.

Lemma framed_copy_document reparse dom :
  framed (copy_document reparse dom) (le n0).
Proof.
  intros σ (Hun & Hlen & Hclosed). unfold copy_document. cbn. split.
  - split; [|split].
    + intros i Hi. rewrite lookup_app_l by lia. by apply Hun.
    + rewrite length_app. lia.
    + intros i x Hi Hx. apply lookup_app_Some in Hx as [Hx | [_ Hx]].
      * by eapply Hclosed.
      * apply lookup_map_Some in Hx as (nd & _ & ->). split; cbn.
        -- apply Forall_forall. intros c Hc.
           apply list_elem_of_In, in_map_iff in Hc as (c' & <- & _). lia.
        -- intros p Hp. destruct (n_parent nd); [|done].
           cbn in Hp. injection Hp as <-. lia.
  - by intros a [= <-].
Qed.

Lemma framed_new_tag name : framed (new_tag name) (le n0).
Proof. apply framed_alloc. by split. Qed.

Lemma framed_set_attr i k v :
  n0 <= i -> framed (set_attr i k v) (fun _ => True).
Proof. intros Hi. by apply framed_update. Qed.

Lemma framed_get_item i k : framed (get_item i k) (fun _ => True).
Proof.
  unfold get_item. eapply holds_bind; [apply holds_get_store |].
  intros σ _. destruct (attr_get k (attrs_of σ i)).
  - by apply holds_ret.
  - apply holds_raise.
Qed.

Lemma framed_set_contents i cs :
  n0 <= i -> Forall (le n0) cs -> framed (set_contents i cs) (fun _ => True).
Proof.
  intros Hi Hcs. apply framed_update; [done |].
  intros nd [_ Hp]. by split.
Qed.

Lemma framed_set_parent i p :
  n0 <= i -> (forall q, p = Some q -> n0 <= q) ->
  framed (set_parent i p) (fun _ => True).
Proof.
  intros Hi Hp. apply framed_update; [done |].
  intros nd [Hcs _]. by split.
Qed.

(** *** Tree surgery on new objects *)

Lemma framed_extract i :
  n0 <= i -> framed (extract i) (fun _ => True).
Proof.
  intros Hi. unfold extract.
  eapply holds_bind; [apply holds_get_store |]. intros σ Hσ.
  destruct (parent_of σ i) as [p|] eqn:Hp; [|by apply holds_ret].
  pose proof (frame_parent _ _ _ Hσ Hi Hp) as Hp0.
  destruct (index_of i (contents_of σ p)) as [ix|]; [|apply holds_raise].
  eapply holds_bind.
  - apply framed_set_contents; [done |].
    pose proof (frame_contents _ _ Hσ Hp0) as Hcs.
    apply Forall_app. split; [by apply Forall_take | by apply Forall_drop].
  - intros _ _. by apply framed_set_parent.
Qed.

Lemma framed_insert p position c :
  n0 <= p -> n0 <= c -> framed (insert p position c) (fun _ => True).
Proof.
  intros Hp Hc. unfold insert. destruct (c =? p); [apply holds_raise |].
  eapply holds_bind; [apply holds_get_store |]. intros σ Hσ.
  eapply holds_bind; [by apply framed_extract |]. intros _ _.
  eapply holds_bind.
  { apply framed_set_parent; [done |]. by intros q [= <-]. }
  intros _ _.
  eapply holds_bind; [apply holds_get_store |]. intros σ' Hσ'.
  apply framed_set_contents; [done |].
  pose proof (frame_contents _ _ Hσ' Hp) as Hcs.
  apply Forall_app. split; [by apply Forall_take |].
  constructor; [done | by apply Forall_drop].
Qed.

Lemma framed_append p c :
  n0 <= p -> n0 <= c -> framed (append p c) (fun _ => True).
Proof.
  intros Hp Hc. unfold append.
  eapply holds_bind; [apply holds_get_store |]. intros σ _.
  by apply framed_insert.
Qed.

Lemma framed_insert_after i successor :
  n0 <= i -> n0 <= successor ->
  framed (insert_after i successor) (fun _ => True).
Proof.
  intros Hi Hs. unfold insert_after.
  eapply holds_bind; [apply holds_get_store |]. intros σ Hσ.
  destruct (parent_of σ i) as [p|] eqn:Hp; [|apply holds_raise].
  pose proof (frame_parent _ _ _ Hσ Hi Hp) as Hp0.
  destruct (successor =? i); [apply holds_raise |].
  eapply holds_bind; [by apply framed_extract |]. intros _ _.
  eapply holds_bind; [apply holds_get_store |]. intros σ' _.
  destruct (index_of i (contents_of σ' p)); [|apply holds_raise].
  by apply framed_insert.
Qed.

Lemma framed_set_string i t :
  n0 <= i -> framed (set_string i t) (fun _ => True).
Proof.
  intros Hi. unfold set_string.
  eapply holds_bind; [apply holds_get_store |]. intros σ Hσ.
  eapply holds_bind.
  { apply holds_for_each. intros c Hc. apply framed_extract.
    pose proof (frame_contents _ _ Hσ Hi) as Hcs.
    rewrite Forall_forall in Hcs. by apply Hcs. }
  intros _ _.
  eapply holds_bind; [apply framed_alloc; by split |]. intros s Hs.
  by apply framed_append.
Qed.

End Frame.

Section FramePipeline.

Variable σ0 : store.
Variable reparse : store -> nat -> list node.
Variable repr_len : store -> nat -> nat.
Variable netloc : pystr -> pystr.

Local Abbreviation n0 := (length σ0).
Local Abbreviation framed := (holds (frame_inv σ0)).

(** The next statement of a sequence, with the store it reads. *)
Local Ltac next_store σ Hσ :=
  eapply holds_bind; [apply holds_get_store | intros σ Hσ].
Local Ltac next_unit lem :=
  eapply holds_bind; [lem | intros _ _].

Lemma framed_ensure_head optimized_dom :
  n0 <= optimized_dom -> framed (ensure_head optimized_dom) (le n0).
Proof.
  intros Hdom. unfold ensure_head. next_store σ Hσ.
  destruct (find σ optimized_dom (name_in [str "head"])) as [head|] eqn:Hhead.
  { apply holds_ret. exact (frame_find _ _ _ _ _ Hσ Hdom Hhead). }
  eapply holds_bind; [apply framed_new_tag |]. intros head Hh.
  next_store σ' Hσ'. eapply holds_bind; [|intros _ _; by apply holds_ret].
  destruct (find σ' optimized_dom (name_in [str "html"])) as [html|] eqn:Hhtml.
  - apply framed_insert; [exact (frame_find _ _ _ _ _ Hσ' Hdom Hhtml) | done].
  - eapply holds_bind; [apply framed_new_tag |]. intros html Hhtml'.
    next_unit ltac:(by apply framed_append). by apply framed_append.
Qed.

Lemma framed_inline_critical_css head critical_css :
  n0 <= head -> framed (inline_critical_css head critical_css) (fun _ => True).
Proof.
  intros Hhead. unfold inline_critical_css.
  destruct critical_css as [css|]; [|by apply holds_ret].
  eapply holds_bind; [apply framed_new_tag |]. intros style Hstyle.
  next_unit ltac:(by apply framed_set_string). by apply framed_insert.
Qed.

Lemma framed_use_local_paths rs tag k :
  n0 <= tag -> framed (use_local_paths rs tag k) (fun _ => True).
Proof.
  intros Htag. apply holds_for_each. intros r _. next_store σ Hσ.
  destruct (r_local_path r); [|by apply holds_ret].
  apply holds_when. intros _. by apply framed_set_attr.
Qed.

Lemma framed_preload_css_links rs css_links :
  Forall (le n0) css_links -> framed (preload_css_links rs css_links) (fun _ => True).
Proof.
  intros Hlinks. apply holds_for_each. intros link Hlink.
  rewrite Forall_forall in Hlinks. pose proof (Hlinks _ Hlink) as Hl.
  do 3 next_unit ltac:(by apply framed_set_attr).
  by apply framed_use_local_paths.
Qed.

Lemma framed_add_noscript_fallbacks css_links :
  Forall (le n0) css_links -> framed (add_noscript_fallbacks css_links) (fun _ => True).
Proof.
  intros Hlinks. apply holds_for_each. intros link Hlink.
  rewrite Forall_forall in Hlinks. pose proof (Hlinks _ Hlink) as Hl.
  eapply holds_bind; [apply framed_new_tag |]. intros noscript Hn.
  eapply holds_bind; [apply framed_new_tag |]. intros fallback Hf.
  next_unit ltac:(by apply framed_set_attr).
  eapply holds_bind; [apply framed_get_item |]. intros href _.
  next_unit ltac:(by apply framed_set_attr).
  next_unit ltac:(by apply framed_append).
  by apply framed_insert_after.
Qed.

Lemma framed_defer_scripts rs scripts :
  Forall (le n0) scripts -> framed (defer_scripts rs scripts) (fun _ => True).
Proof.
  intros Hscripts. apply holds_for_each. intros script Hscript.
  rewrite Forall_forall in Hscripts. pose proof (Hscripts _ Hscript) as Hs.
  next_store σ Hσ.
  next_unit ltac:(apply holds_when; intros _; by apply framed_set_attr).
  by apply framed_use_local_paths.
Qed.

Lemma framed_wrap_in_picture img webp_path :
  n0 <= img -> framed (wrap_in_picture img webp_path) (fun _ => True).
Proof.
  intros Himg. unfold wrap_in_picture.
  eapply holds_bind; [apply framed_new_tag |]. intros picture Hp.
  eapply holds_bind; [apply framed_new_tag |]. intros source Hs.
  do 2 next_unit ltac:(by apply framed_set_attr).
  next_store σ Hσ.
  next_unit ltac:(by apply framed_extract).
  do 2 next_unit ltac:(by apply framed_append).
  destruct (parent_of σ img) as [parent_node|] eqn:Hparent; [|by apply holds_ret].
  apply framed_append; [exact (frame_parent _ _ _ _ Hσ Himg Hparent) | done].
Qed.

Local Abbreviation fresh_candidate := (candidate_from n0).

Lemma framed_image_resource_step img position r st :
  n0 <= img -> fresh_candidate st ->
  framed (image_resource_step img position r st) fresh_candidate.
Proof.
  intros Himg Hst. unfold image_resource_step. next_store σ Hσ.
  destruct (r_local_path r) as [local_path|]; [|by apply holds_ret].
  destruct (tag_eq σ (r_element r) img); [|by apply holds_ret].
  next_unit ltac:(by apply framed_set_attr).
  eapply holds_bind with (P := fresh_candidate).
  - destruct (r_width r) as [width|]; [|by apply holds_ret].
    destruct (r_height r) as [height|]; [|by apply holds_ret].
    eapply holds_bind; [apply holds_str_of_int | intros width_text _].
    next_unit ltac:(by apply framed_set_attr).
    eapply holds_bind; [apply holds_str_of_int | intros height_text _].
    next_unit ltac:(by apply framed_set_attr).
    destruct (_ && _); apply holds_ret; [|done].
    by intros c [= <-].
  - intros st' Hst'. eapply holds_bind; [|intros _ _; by apply holds_ret].
    destruct (r_webp_path r); [by apply framed_wrap_in_picture | by apply holds_ret].
Qed.

Lemma framed_scan_images rs images :
  Forall (le n0) images ->
  framed (scan_images repr_len rs images) fresh_candidate.
Proof.
  intros Himages. unfold scan_images. apply holds_fold_each; [done |].
  intros img st Himg Hst. rewrite Forall_forall in Himages.
  next_store σ Hσ. destruct (parent_of σ img); [|by apply holds_ret].
  apply holds_fold_each; [done |]. intros r st' _ Hst'.
  apply framed_image_resource_step; [by apply Himages | done].
Qed.

Lemma framed_mark_lcp head lcp_candidate :
  n0 <= head -> (forall c, lcp_candidate = Some c -> n0 <= c) ->
  framed (mark_lcp head lcp_candidate) (fun _ => True).
Proof.
  intros Hhead Hlcp. unfold mark_lcp.
  destruct lcp_candidate as [lcp|]; [|by apply holds_ret].
  pose proof (Hlcp lcp eq_refl) as Hc.
  next_unit ltac:(by apply framed_set_attr). next_store σ Hσ.
  destruct (attr_get (str "src") (attrs_of σ lcp)) as [lcp_src|]; [|by apply holds_ret].
  match goal with |- context [if ?b then _ else _] => destruct b end;
    [|by apply holds_ret].
  eapply holds_bind; [apply framed_new_tag |]. intros preload Hp.
  do 3 next_unit ltac:(by apply framed_set_attr).
  by apply framed_insert.
Qed.

Lemma framed_lazy_load_others images lcp_candidate :
  Forall (le n0) images ->
  framed (lazy_load_others images lcp_candidate) (fun _ => True).
Proof.
  intros Himages. apply holds_for_each. intros img Himg.
  rewrite Forall_forall in Himages. next_store σ Hσ.
  apply holds_when. intros _. apply framed_set_attr. by apply Himages.
Qed.

Lemma framed_add_resource_hints head res :
  n0 <= head -> framed (add_resource_hints netloc head res) (fun _ => True).
Proof.
  intros Hhead. apply holds_for_each. intros domain _.
  eapply holds_bind; [apply framed_new_tag |]. intros preconnect Hp.
  do 3 next_unit ltac:(by apply framed_set_attr).
  next_unit ltac:(by apply framed_insert).
  eapply holds_bind; [apply framed_new_tag |]. intros dns_prefetch Hd.
  do 2 next_unit ltac:(by apply framed_set_attr).
  by apply framed_insert.
Qed.

Lemma framed_add_cache_control head :
  n0 <= head -> framed (add_cache_control head) (fun _ => True).
Proof.
  intros Hhead. unfold add_cache_control.
  eapply holds_bind; [apply framed_new_tag |]. intros cache_manifest Hc.
  do 2 next_unit ltac:(by apply framed_set_attr).
  by apply framed_append.
Qed.

(** Every statement of the transform keeps the objects that existed before
    the run; the tree it returns and the candidate it picks are new
    objects. *)
Lemma framed_optimize_html dom res critical_css :
  framed (_optimize_html reparse repr_len netloc dom res critical_css)
    (fun out => n0 <= fst out /\ forall c, snd out = Some c -> n0 <= c).
Proof.
  unfold _optimize_html.
  eapply holds_bind; [apply framed_copy_document |]. intros optimized_dom Hdom.
  eapply holds_bind; [by apply framed_ensure_head |]. intros head Hhead.
  next_unit ltac:(by apply framed_inline_critical_css).
  next_store σ1 Hσ1.
  pose proof (frame_find_all σ0 σ1 optimized_dom is_stylesheet_link Hσ1 Hdom) as Hlinks.
  next_unit ltac:(by apply framed_preload_css_links).
  next_unit ltac:(by apply framed_add_noscript_fallbacks).
  next_store σ2 Hσ2.
  pose proof (frame_find_all σ0 σ2 optimized_dom is_external_script Hσ2 Hdom) as Hscripts.
  next_unit ltac:(by apply framed_defer_scripts).
  next_store σ3 Hσ3.
  pose proof (frame_find_all σ0 σ3 optimized_dom is_img_with_src Hσ3 Hdom) as Himages.
  eapply holds_bind; [by apply framed_scan_images |]. intros st Hst.
  next_unit ltac:(by apply framed_mark_lcp).
  next_unit ltac:(by apply framed_lazy_load_others).
  next_unit ltac:(by apply framed_add_resource_hints).
  next_unit ltac:(by apply framed_add_cache_control).
  by apply holds_ret.
Qed.

End FramePipeline.

(** C4. The transform is non-destructive: whatever the parser, the
    resources and the critical CSS, and whether the run ends normally or by
    an exception, every object that existed before the run (the caller's
    tree among them) is the same afterwards; the document returned and
    the LCP candidate are objects created by the run. *)
Theorem C4_transform_non_destructive
    (reparse : store -> nat -> list node) (repr_len : store -> nat -> nat)
    (netloc : pystr -> pystr) (σ0 : store) (dom : nat) (res : resources)
    (critical_css : option pystr) :
  let run := _optimize_html reparse repr_len netloc dom res critical_css σ0 in
  take (length σ0) (snd run) = σ0
  /\ (forall i nd, σ0 !! i = Some nd -> snd run !! i = Some nd)
  /\ (forall out lcp, fst run = Ok (out, lcp) ->
        length σ0 <= out /\ forall c, lcp = Some c -> length σ0 <= c).
Proof.
  intros run.
  destruct (framed_optimize_html σ0 reparse repr_len netloc dom res critical_css
              σ0 (frame_inv_init σ0)) as [(Hun & Hlen & _) Hpost].
  fold run in Hun, Hlen, Hpost. split; [|split].
  - apply list_eq. intros i. destruct (decide (i < length σ0)) as [Hi | Hi].
    + rewrite lookup_take_lt by done. by apply Hun.
    + rewrite lookup_take_ge by lia. symmetry. apply lookup_ge_None. lia.
  - intros i nd Hnd. rewrite Hun; [done |]. by eapply lookup_lt_Some.
  - intros out lcp Hrun. by destruct (Hpost _ Hrun) as [Hout Hlcp].
Qed.

Lemma C4_witness :
  length sample_page <= 6 /\ forall c, @None nat = Some c -> length sample_page <= c.
Proof.
  apply (proj2 (proj2 (C4_transform_non_destructive reparse_same repr_len_const
                         netloc_none sample_page 0 no_resources None)) 6 None).
  vm_compute. reflexivity.
Defined.

(** C3 fails on the code.  An image whose [width] is not an integer makes
    the above-the-fold heuristic raise [ValueError]; a style sheet link
    without [href] makes the transform raise [KeyError], whatever the
    critical CSS and the collaborators' functions. *)
Theorem C3_malformed_input_raises :
  find_above_fold_elements auto_width_page 0 = Raise ValueError
  /\ forall repr_len netloc critical_css,
       fst (_optimize_html reparse_same repr_len netloc 0 no_resources
              critical_css bare_link_page)
       = Raise KeyError.
Proof.
  split; [vm_compute; reflexivity |].
  intros repr_len netloc [css|]; vm_compute; reflexivity.
Qed.


(** ** The LCP candidate of the transform *)

Section LargestArea.

(** Folding the comparisons from nothing gives the first largest area. *)
Lemma keep_larger_first_largest (log : list (nat * Z)) :
  first_largest log (fold_left keep_larger log (0%Z, None)).
Proof.
  induction log as [|e log IH] using rev_ind.
  - cbn. by split.
  - rewrite fold_left_app. cbn [fold_left].
    destruct (fold_left keep_larger log (0%Z, None)) as [a c].
    unfold first_largest in IH. cbn [fst snd] in IH.
    unfold keep_larger. cbn [fst snd].
    destruct (a <? snd e)%Z eqn:Hlt;
      [apply Z.ltb_lt in Hlt | apply Z.ltb_ge in Hlt];
      unfold first_largest; cbn [fst snd].
    + assert (0 <= a)%Z as Ha.
      { destruct c; [lia |]. destruct IH as [-> _]. lia. }
      split; [lia |]. exists log, []. split; [by destruct e |].
      split; [|done]. destruct c as [c|].
      * destruct IH as (_ & pre & post & -> & Hpre & Hpost).
        apply Forall_app. split; [|constructor].
        -- eapply Forall_impl; [exact Hpre |]. cbn. intros; lia.
        -- cbn. lia.
        -- eapply Forall_impl; [exact Hpost |]. cbn. intros; lia.
      * destruct IH as [-> Hall].
        eapply Forall_impl; [exact Hall |]. cbn. intros; lia.
    + destruct c as [c|].
      * destruct IH as (Hpos & pre & post & -> & Hpre & Hpost).
        split; [done |]. exists pre, (post ++ [e]).
        split; [by rewrite <- app_assoc |]. split; [done |].
        apply Forall_app. split; [done |]. by constructor.
      * destruct IH as [-> Hall]. split; [done |].
        apply Forall_app. split; [done |]. by constructor.
Qed.

End LargestArea.

Section ImageLoop.

Variable repr_len : store -> nat -> nat.

(** The end of a step: the picture wrapper, then the local variables. *)
Local Ltac wrap_up r img σ :=
  unfold mret, M_ret; cbv beta iota; rewrite ?bind_run;
  destruct (r_webp_path r) as [webp_path|]; [|done];
  by destruct (wrap_in_picture img webp_path σ) as [[[]|?] ?].

(** A step of the resource loop: its effect on the store does not depend
    on the local variables, and what it returns is the comparison. *)
Lemma image_resource_step_run img position r st σ :
  image_resource_step img position r st σ
  = (match fst (image_resource_step img position r (0%Z, None) σ) with
     | Ok _ =>
         Ok (match compared_area σ img position r with
             | Some area => keep_larger st (img, area)
             | None => st
             end)
     | Raise e => Raise e
     end,
     snd (image_resource_step img position r (0%Z, None) σ)).
Proof.
  unfold image_resource_step, compared_area.
  rewrite !(bind_run get_store). change (get_store σ) with (Ok σ, σ).
  cbv beta iota.
  destruct (r_local_path r) as [local_path|]; [|done].
  destruct (tag_eq σ (r_element r) img);
    [|by destruct (r_width r), (r_height r)].
  cbn [andb].
  rewrite !(bind_run (set_attr _ _ _)).
  destruct (set_attr img (str "src") (AStr local_path) σ) as [[[]|e] σ1];
    [|done].
  rewrite !(bind_run (match r_width r with Some _ => _ | None => _ end)).
  destruct (r_width r) as [width|]; [|wrap_up r img σ1].
  destruct (r_height r) as [height|]; [|wrap_up r img σ1].
  rewrite !(bind_run (str_of_int width)).
  destruct (str_of_int width σ1) as [[width_text|e] σ2]; [|done].
  rewrite !(bind_run (set_attr _ _ _)).
  destruct (set_attr img (str "width") (AStr width_text) σ2) as [[[]|e] σ3];
    [|done].
  rewrite !(bind_run (str_of_int height)).
  destruct (str_of_int height σ3) as [[height_text|e] σ4]; [|done].
  rewrite !(bind_run (set_attr _ _ _)).
  destruct (set_attr img (str "height") (AStr height_text) σ4) as [[[]|e] σ5];
    [|done].
  unfold keep_larger. cbn [fst snd andb].
  destruct (position <? viewport_height); cbn [andb]; [|wrap_up r img σ5].
  destruct (fst st <? width * height)%Z, (0 <? width * height)%Z;
    wrap_up r img σ5.
Qed.

(** The loop over the resources, for one image. *)
Lemma resource_loop_run img position rs st σ st' σ' :
  fold_each rs st (image_resource_step img position) σ = (Ok st', σ') ->
  σ' = snd (compared_for img position rs σ)
  /\ st' = fold_left keep_larger (fst (compared_for img position rs σ)) st.
Proof.
  revert st σ. induction rs as [|r rs IH]; intros st σ; cbn [fold_each compared_for].
  - by intros [= <- <-].
  - rewrite bind_run, image_resource_step_run.
    destruct (fst (image_resource_step img position r (0%Z, None) σ)); [|done].
    intros Hrest. apply IH in Hrest as [-> ->].
    destruct (compared_for img position rs _) as [log σ''].
    by destruct (compared_area σ img position r).
Qed.

(** The image loop, from any values of its local variables. *)
Lemma image_loop_run rs images st σ st' σ' :
  fold_each images st (fun img st =>
    σ ← get_store;
    match parent_of σ img with
    | None => mret st
    | Some parent =>
        fold_each rs st (image_resource_step img (position_of repr_len σ parent))
    end) σ = (Ok st', σ') ->
  st' = fold_left keep_larger (compared_areas repr_len rs images σ) st.
Proof.
  revert st σ. induction images as [|img images IH]; intros st σ;
    cbn [fold_each compared_areas].
  - by intros [= <- <-].
  - rewrite !bind_run. change (get_store σ) with (Ok σ, σ). cbv beta iota.
    destruct (parent_of σ img) as [parent|].
    + destruct (fold_each rs st _ σ) as [[st1|e] σ1] eqn:Hinner; [|done].
      apply resource_loop_run in Hinner as [-> ->].
      destruct (compared_for img _ rs σ) as [log σ''].
      intros Hrest. apply IH in Hrest as ->. by rewrite fold_left_app.
    + apply IH.
Qed.

Lemma scan_images_first_largest rs images σ st :
  fst (scan_images repr_len rs images σ) = Ok st ->
  first_largest (compared_areas repr_len rs images σ) st.
Proof.
  unfold scan_images.
  destruct (fold_each images _ _ σ) as [[st'|e] σ'] eqn:Hrun; cbn [fst]; [|done].
  intros [= <-]. apply image_loop_run in Hrun as ->.
  apply keep_larger_first_largest.
Qed.

(** Where a compared area comes from. *)
Lemma compared_for_elem_of img position rs σ e :
  e ∈ fst (compared_for img position rs σ) ->
  fst e = img
  /\ exists r w h,
       r ∈ rs /\ sized_resource r = true
       /\ r_width r = Some w /\ r_height r = Some h /\ snd e = (w * h)%Z.
Proof.
  revert σ. induction rs as [|r rs IH]; intros σ; cbn [compared_for].
  - intros H. by apply elem_of_nil in H.
  - destruct (compared_for img position rs _) as [log σ''] eqn:Hrest.
    assert (e ∈ log ->
            fst e = img
            /\ exists r' w h,
                 r' ∈ r :: rs /\ sized_resource r' = true
                 /\ r_width r' = Some w /\ r_height r' = Some h
                 /\ snd e = (w * h)%Z) as Hlog.
    { intros He. specialize (IH _ ltac:(by rewrite Hrest)).
      destruct IH as (Himg & r' & w & h & Hr' & Hrest').
      split; [done |]. exists r', w, h. split; [by right | done]. }
    unfold compared_area, sized_resource. cbn [fst].
    destruct (r_local_path r) as [local_path|] eqn:Hpath; [|done].
    destruct (r_width r) as [width|] eqn:Hw; [|done].
    destruct (r_height r) as [height|] eqn:Hh; [|done].
    destruct (_ && _); [|done].
    intros He. apply elem_of_cons in He as [-> | He]; [|by apply Hlog].
    split; [done |]. exists r, width, height.
    split; [left |]. by rewrite Hpath, Hw, Hh.
Qed.

Lemma compared_areas_elem_of rs images σ e :
  e ∈ compared_areas repr_len rs images σ ->
  fst e ∈ images
  /\ exists r w h,
       r ∈ rs /\ sized_resource r = true
       /\ r_width r = Some w /\ r_height r = Some h /\ snd e = (w * h)%Z.
Proof.
  revert σ. induction images as [|img images IH]; intros σ; cbn [compared_areas].
  - intros H. by apply elem_of_nil in H.
  - assert (forall σ', e ∈ compared_areas repr_len rs images σ' ->
              fst e ∈ img :: images
              /\ exists r w h,
                   r ∈ rs /\ sized_resource r = true
                   /\ r_width r = Some w /\ r_height r = Some h
                   /\ snd e = (w * h)%Z) as Hrest.
    { intros σ' He. destruct (IH _ He) as [Hin Hr]. split; [by right | done]. }
    destruct (parent_of σ img) as [parent|]; [|apply Hrest].
    destruct (compared_for img _ rs σ) as [log σ''] eqn:Hlog.
    intros He. apply elem_of_app in He as [He | He]; [|by eapply Hrest].
    destruct (compared_for_elem_of img (position_of repr_len σ parent) rs σ e)
      as [Himg Hr]; [by rewrite Hlog |].
    split; [rewrite Himg; left | done].
Qed.

(** The candidate the transform returns is the one its image loop ends
    with, run on the images found after step 5. *)
Lemma optimize_html_image_loop reparse netloc dom res critical_css σ0 out lcp :
  fst (_optimize_html reparse repr_len netloc dom res critical_css σ0)
  = Ok (out, lcp) ->
  exists images σ st,
    steps_before_images reparse dom res critical_css σ0 = (Ok (out, images), σ)
    /\ images = find_all σ out is_img_with_src
    /\ fst (scan_images repr_len (res_images res) images σ) = Ok st
    /\ lcp = snd st.
Proof.
  unfold _optimize_html, steps_before_images. intros H.
  apply bind_ok_inv in H as (optimized_dom & σ1 & Hcopy & H).
  apply bind_ok_inv in H as (head & σ2 & Hhead & H).
  apply bind_ok_inv in H as ([] & σ3 & Hinline & H).
  apply bind_ok_inv in H as (? & ? & [= <- <-] & H). cbv zeta in H.
  apply bind_ok_inv in H as ([] & σ4 & Hpreload & H).
  apply bind_ok_inv in H as ([] & σ5 & Hfallback & H).
  apply bind_ok_inv in H as (? & ? & [= <- <-] & H). cbv zeta in H.
  apply bind_ok_inv in H as ([] & σ6 & Hdefer & H).
  apply bind_ok_inv in H as (? & ? & [= <- <-] & H). cbv zeta in H.
  apply bind_ok_inv in H as (st & σ7 & Hscan & H).
  apply bind_ok_inv in H as ([] & σ8 & _ & H).
  apply bind_ok_inv in H as ([] & σ9 & _ & H).
  apply bind_ok_inv in H as ([] & σ10 & _ & H).
  apply bind_ok_inv in H as ([] & σ11 & _ & H).
  injection H as <- <-.
  exists (find_all σ6 optimized_dom is_img_with_src), σ6, st.
  split; [|by rewrite Hscan].
  rewrite (bind_ok _ _ _ _ _ Hcopy), (bind_ok _ _ _ _ _ Hhead),
    (bind_ok _ _ _ _ _ Hinline).
  rewrite (bind_ok get_store _ σ3 σ3 σ3 eq_refl). cbv zeta.
  rewrite (bind_ok _ _ _ _ _ Hpreload), (bind_ok _ _ _ _ _ Hfallback).
  rewrite (bind_ok get_store _ σ5 σ5 σ5 eq_refl). cbv zeta.
  rewrite (bind_ok _ _ _ _ _ Hdefer).
  by rewrite (bind_ok get_store _ σ6 σ6 σ6 eq_refl).
Qed.

End ImageLoop.

(** C5, as the code has it.  The image loop of the transform chooses the
    LCP candidate by a procedure of its own.  It compares the recorded
    [width * height] of every image resource that has a local path and both
    pixel sizes and whose element equals the scanned image, when the
    position of the image is in the viewport; its local variables end with
    the first largest of the compared areas, a positive number, or with no
    candidate when no compared area is positive.  Every compared area
    belongs to a scanned image and to such a resource.  The candidate the
    transform returns is the one this loop ends with on the images with a
    [src] of the copied tree, a new object; without a resource that has a
    local path and both pixel sizes there is none. *)
Theorem C5_lcp_candidate_from_resources
    (reparse : store -> nat -> list node) (repr_len : store -> nat -> nat)
    (netloc : pystr -> pystr) :
  (forall rs images σ st,
     fst (scan_images repr_len rs images σ) = Ok st ->
     first_largest (compared_areas repr_len rs images σ) st)
  /\ (forall rs images σ e,
        e ∈ compared_areas repr_len rs images σ ->
        fst e ∈ images
        /\ exists r w h,
             r ∈ rs /\ sized_resource r = true
             /\ r_width r = Some w /\ r_height r = Some h
             /\ snd e = (w * h)%Z)
  /\ (forall σ0 dom res critical_css out lcp,
        fst (_optimize_html reparse repr_len netloc dom res critical_css σ0)
        = Ok (out, lcp) ->
        exists images σ largest_area,
          steps_before_images reparse dom res critical_css σ0
          = (Ok (out, images), σ)
          /\ images = find_all σ out is_img_with_src
          /\ first_largest (compared_areas repr_len (res_images res) images σ)
                           (largest_area, lcp)
          /\ (forall c, lcp = Some c -> length σ0 <= c)
          /\ (forallb (fun r => negb (sized_resource r)) (res_images res) = true ->
              lcp = None)).
Proof.
  split; [apply scan_images_first_largest |].
  split; [apply compared_areas_elem_of |].
  intros σ0 dom res critical_css out lcp Hrun.
  destruct (optimize_html_image_loop repr_len reparse netloc dom res critical_css
              σ0 out lcp Hrun) as (images & σ & [a c] & Hsteps & Himages & Hscan & ->).
  apply scan_images_first_largest in Hscan as Hfirst.
  exists images, σ, a. split; [done |]. split; [done |]. split; [done |]. split.
  - destruct (framed_optimize_html σ0 reparse repr_len netloc dom res
                critical_css σ0 (frame_inv_init σ0)) as [_ Hpost].
    by destruct (Hpost _ Hrun) as [_ Hc].
  - intros Hnone. cbn [snd]. destruct c as [c|]; [|done].
    unfold first_largest in Hfirst. cbn [fst snd] in Hfirst.
    destruct Hfirst as (_ & pre & post & Hlog & _).
    destruct (compared_areas_elem_of repr_len (res_images res) images σ (c, a))
      as (_ & r & w & h & Hr & Hsized & _).
    { rewrite Hlog. apply elem_of_app. right. left. }
    rewrite forallb_forall in Hnone.
    apply list_elem_of_In, Hnone in Hr. by rewrite Hsized in Hr.
Qed.

Lemma C5_witness :
  first_largest
    (compared_areas repr_len_const (res_images two_image_resources) [10; 11]
       (snd (copy_document reparse_same 0 two_image_page)))
    (25%Z, Some 11).
Proof.
  apply (proj1 (C5_lcp_candidate_from_resources reparse_same repr_len_const
                  netloc_none)
           (res_images two_image_resources) [10; 11]
           (snd (copy_document reparse_same 0 two_image_page))).
  vm_compute. reflexivity.
Defined.

(** On a page whose larger declared image could not be downloaded, the
    transform picks the downloaded image while the above-the-fold
    heuristic, run on the transformed tree, picks the other one. *)
Lemma C5_counterexample :
  let run := _optimize_html reparse_same repr_len_const netloc_none 0
               two_image_resources None two_image_page in
  fst run = Ok (6, Some 11)
  /\ find_above_fold_elements (snd run) 6 = Ok [10]
  /\ 10 <> 11.
Proof. vm_compute. repeat split; discriminate. Qed.


(** ** The parser and the composer read the same rules *)

Section SameRules.

Lemma star_cls_fmap {A B} (f : A -> B) (p : ascii -> bool) (s : pystr)
    (k1 : pystr -> option A) (k2 : pystr -> option B) :
  (forall s', f <$> k1 s' = k2 s') ->
  f <$> star_cls p s k1 = star_cls p s k2.
Proof.
  intros Hk. induction s as [|c s IH]; cbn [star_cls]; [apply Hk |].
  destruct (p c); [|apply Hk].
  rewrite <- IH. destruct (star_cls p s k1); cbn; [done | apply Hk].
Qed.

Lemma match_at_patterns (s : pystr) :
  first_group <$> match_at rule_pattern s = match_at selector_pattern s.
Proof.
  unfold match_at, rule_pattern, selector_pattern. cbn [rmatch].
  destruct s as [|x s]; [done |]. destruct (not_char "{" x); [|done].
  apply star_cls_fmap. intros s1. destruct s1 as [|y s1]; [done |].
  destruct (Ascii.eqb y "{"); [|done].
  apply star_cls_fmap. intros s2. destruct s2 as [|z s2]; [done |].
  by destruct (Ascii.eqb z "}").
Qed.

Lemma findall_from_patterns (skip : nat) (s : pystr) :
  map (fun caps => nth 0 caps []) (findall_from rule_pattern skip s)
  = map (fun caps => nth 0 caps []) (findall_from selector_pattern skip s).
Proof.
  revert skip. induction s as [|c s IH]; intros skip; [done |].
  cbn [findall_from]. destruct skip as [|n]; [|apply IH].
  rewrite <- match_at_patterns.
  destruct (match_at rule_pattern (c :: s)) as [[caps rest]|]; cbn; [|apply IH].
  by rewrite IH.
Qed.

Lemma rule_matches_selector_matches (css : pystr) :
  map fst (rule_matches css) = selector_matches css.
Proof.
  unfold rule_matches, selector_matches, findall.
  rewrite <- findall_from_patterns, map_map. done.
Qed.

(** What the composer tests against the critical set, for a rule it does
    not skip, are selectors the parser returned for the same text. *)
Lemma rule_parts_parsed (css : pystr) (m : pystr * pystr) (part : pystr) :
  m ∈ rule_matches css ->
  Py.startswith "@" (Py.strip (fst m)) = false ->
  part ∈ split_selectors (Py.strip (fst m)) ->
  part ∈ parse_css css.
Proof.
  intros Hm Hat Hpart. apply elem_of_parse_css. exists (fst m).
  split; [|done]. rewrite <- rule_matches_selector_matches.
  apply list_elem_of_In, in_map, list_elem_of_In, Hm.
Qed.

End SameRules.

(** X1. [parse_css] and [generate_critical_css] read a style sheet with two
    patterns that differ by one capturing group: both find the same rules,
    with the same selector groups in the same order, and every selector
    part the composer tests for a rule it does not skip is a selector the
    parser returns. *)
Theorem X1_parser_composer_same_rules (css : pystr) :
  map fst (rule_matches css) = selector_matches css
  /\ forall m part,
       m ∈ rule_matches css ->
       Py.startswith "@" (Py.strip (fst m)) = false ->
       part ∈ split_selectors (Py.strip (fst m)) ->
       part ∈ parse_css css.
Proof.
  split; [apply rule_matches_selector_matches |].
  intros m part. apply rule_parts_parsed.
Qed.

Lemma X1_witness :
  str "b" ∈ parse_css (str "a, b { c: d }").
Proof.
  apply (proj2 (X1_parser_composer_same_rules (str "a, b { c: d }"))
           (str "a, b ", str " c: d ") (str "b")).
  - apply (bool_decide_unpack _). vm_compute. exact I.
  - vm_compute. reflexivity.
  - apply (bool_decide_unpack _). vm_compute. exact I.
Defined.

(** ** The signatures of the above-fold elements *)

Section SignatureFacts.

Variable repr_list : list pystr -> pystr.
Variable σ : store.

Lemma elem_of_add_class_selectors name classes acc (s : pystr) :
  s ∈ add_class_selectors name classes acc
  <-> s ∈ acc
      \/ exists cls, cls ∈ classes /\ (s = "." :: cls \/ s = name ++ "." :: cls).
Proof.
  unfold add_class_selectors. revert acc.
  induction classes as [|c classes IH]; intros acc; cbn [fold_left].
  - split; [by left | intros [H | (cls & Hc & _)]; [done | by apply elem_of_nil in Hc]].
  - rewrite IH, !elem_of_union, !elem_of_singleton. split.
    + intros [[[H | ->] | ->] | (cls & Hc & Hs)].
      * by left.
      * right. exists c. split; [left | by left].
      * right. exists c. split; [left | by right].
      * right. exists cls. split; [by right | done].
    + intros [H | (cls & Hc & Hs)]; [by left; left; left |].
      apply elem_of_cons in Hc as [-> | Hc].
      * left. destruct Hs as [-> | ->]; [left; by right | by right].
      * right. by exists cls.
Qed.

Lemma elem_of_add_parent_class_selectors parent_name classes acc (s : pystr) :
  s ∈ add_parent_class_selectors parent_name classes acc
  <-> s ∈ acc
      \/ exists cls, cls ∈ classes /\ s = parent_name ++ " " :: "." :: cls.
Proof.
  unfold add_parent_class_selectors. revert acc.
  induction classes as [|c classes IH]; intros acc; cbn [fold_left].
  - split; [by left | intros [H | (cls & Hc & _)]; [done | by apply elem_of_nil in Hc]].
  - rewrite IH, !elem_of_union, !elem_of_singleton. split.
    + intros [[H | ->] | (cls & Hc & Hs)].
      * by left.
      * right. exists c. split; [left | done].
      * right. exists cls. split; [by right | done].
    + intros [H | (cls & Hc & Hs)]; [by left; left |].
      apply elem_of_cons in Hc as [-> | Hc].
      * left. by right.
      * right. by exists cls.
Qed.

Lemma elem_of_class_step name (o : option attr_value) acc (s : pystr) :
  s ∈ match o with
      | Some classes => add_class_selectors name (iter_value classes) acc
      | None => acc
      end
  <-> s ∈ acc
      \/ exists cls, cls ∈ match o with Some v => iter_value v | None => [] end
                     /\ (s = "." :: cls \/ s = name ++ "." :: cls).
Proof.
  destruct o as [classes|]; [apply elem_of_add_class_selectors |].
  split; [by left | intros [H | (cls & Hc & _)]; [done | by apply elem_of_nil in Hc]].
Qed.

Lemma elem_of_id_step (o : option attr_value) (acc : gset pystr) (s : pystr) :
  s ∈ match o with
      | Some id => acc ∪ {[ "#" :: format_value repr_list id ]}
      | None => acc
      end
  <-> s ∈ acc
      \/ exists id, o = Some id /\ s = "#" :: format_value repr_list id.
Proof.
  destruct o as [id|].
  - rewrite elem_of_union, elem_of_singleton. split.
    + intros [H | ->]; [by left | right; by exists id].
    + intros [H | (id' & [= <-] & ->)]; [by left | by right].
  - split; [by left | intros [H | (id & Hid & _)]; done].
Qed.

Lemma elem_of_parent_class_step parent_name (o : option attr_value) acc (s : pystr) :
  s ∈ match o with
      | Some classes => add_parent_class_selectors parent_name (iter_value classes) acc
      | None => acc
      end
  <-> s ∈ acc
      \/ exists cls, cls ∈ match o with Some v => iter_value v | None => [] end
                     /\ s = parent_name ++ " " :: "." :: cls.
Proof.
  destruct o as [classes|]; [apply elem_of_add_parent_class_selectors |].
  split; [by left | intros [H | (cls & Hc & _)]; [done | by apply elem_of_nil in Hc]].
Qed.

Lemma elem_of_add_element_selectors acc e (s : pystr) :
  s ∈ add_element_selectors repr_list σ acc e
  <-> s ∈ acc \/ signature_of repr_list σ e s.
Proof.
  unfold add_element_selectors, signature_of. cbv zeta.
  destruct (parent_of σ e) as [parent|].
  - destruct (bool_decide (name_of σ parent <> str "[document]")) eqn:Hdoc;
      [apply bool_decide_eq_true in Hdoc | apply bool_decide_eq_false in Hdoc].
    + destruct (negb (length (name_of σ parent) =? 0)) eqn:Hname.
      * apply negb_true_iff, Nat.eqb_neq in Hname.
        rewrite elem_of_parent_class_step, elem_of_union, elem_of_singleton,
          elem_of_id_step, elem_of_class_step, elem_of_union, elem_of_singleton.
        split.
        -- intros [[[[[H | H] | H] | H] | H] | H]; auto.
           ++ right. right. right. right. exists parent.
              repeat split; [done | by destruct (name_of σ parent) | by left].
           ++ right. right. right. right. exists parent.
              repeat split; [done | by destruct (name_of σ parent) | by right].
        -- intros [H | [H | [H | [H | (p & [= <-] & _ & _ & [H | H])]]]]; auto 10.
      * apply negb_false_iff, Nat.eqb_eq, nil_length_inv in Hname.
        rewrite elem_of_id_step, elem_of_class_step, elem_of_union, elem_of_singleton.
        split.
        -- intros [[[H | H] | H] | H]; auto.
        -- intros [H | [H | [H | [H | (p & [= <-] & _ & Hne & _)]]]]; auto 10.
           done.
    + rewrite elem_of_id_step, elem_of_class_step, elem_of_union, elem_of_singleton.
      split.
      * intros [[[H | H] | H] | H]; auto.
      * intros [H | [H | [H | [H | (p & [= <-] & Hne & _)]]]]; auto 10.
        by destruct Hdoc.
  - rewrite elem_of_id_step, elem_of_class_step, elem_of_union, elem_of_singleton.
    split.
    + intros [[[H | H] | H] | H]; auto.
    + intros [H | [H | [H | [H | (p & Hp & _)]]]]; auto 10. done.
Qed.

Lemma elem_of_extract_loop (elements : list nat) acc (s : pystr) :
  s ∈ fold_left (add_element_selectors repr_list σ) elements acc
  <-> s ∈ acc \/ exists e, e ∈ elements /\ signature_of repr_list σ e s.
Proof.
  revert acc. induction elements as [|x elements IH]; intros acc; cbn [fold_left].
  - split; [by left | intros [H | (e & He & _)]; [done | by apply elem_of_nil in He]].
  - rewrite IH, elem_of_add_element_selectors. split.
    + intros [[H | H] | (e & He & Hs)]; [by left | right | right].
      * exists x. split; [left | done].
      * exists e. split; [by right | done].
    + intros [H | (e & He & Hs)]; [by left; left |].
      apply elem_of_cons in He as [-> | He]; [left; by right | right; by exists e].
Qed.

(** Membership in the signature set. *)
Lemma elem_of_extract_element_selectors (elements : list nat) (s : pystr) :
  s ∈ extract_element_selectors repr_list σ elements
  <-> exists e, e ∈ elements /\ signature_of repr_list σ e s.
Proof.
  unfold extract_element_selectors. rewrite elem_of_extract_loop. split.
  - intros [H | H]; [by apply not_elem_of_empty in H | done].
  - by right.
Qed.

End SignatureFacts.

(** X2. The signature set of a list of elements holds exactly the
    signatures of its elements: for each element its tag name, [.cls] and
    [tag.cls] for each class, [#id] when it has an id, and, when its parent
    has a name other than the document object's, [parent tag] and
    [parent .cls]; an element right under the document object gets no
    parent signature. *)
Theorem X2_signatures_exact (repr_list : list pystr -> pystr) (σ : store)
    (elements : list nat) (s : pystr) :
  s ∈ extract_element_selectors repr_list σ elements
  <-> exists e, e ∈ elements /\ signature_of repr_list σ e s.
Proof.
  unfold extract_element_selectors. rewrite elem_of_extract_loop. split.
  - intros [H | H]; [by apply not_elem_of_empty in H | done].
  - by right.
Qed.

(** X3. The signature set depends on which elements are listed, not on how
    often or in which order: the duplicates the above-fold heuristic
    returns change nothing. *)
Theorem X3_signatures_of_set (repr_list : list pystr -> pystr) (σ : store)
    (l l' : list nat) :
  (forall e, e ∈ l <-> e ∈ l') ->
  extract_element_selectors repr_list σ l = extract_element_selectors repr_list σ l'.
Proof.
  intros Hsame. apply set_eq. intros s.
  rewrite !elem_of_extract_element_selectors.
  split; intros (e & He & Hs); exists e; (split; [by apply Hsame | done]).
Qed.

Lemma X3_witness :
  extract_element_selectors (fun _ => []) sample_page [4; 4; 5]
  = extract_element_selectors (fun _ => []) sample_page [5; 4].
Proof.
  apply X3_signatures_of_set. intros e.
  rewrite !elem_of_cons. pose proof (elem_of_nil e). tauto.
Defined.

(** ** The extraction, end to end *)

Section CriticalCss.

Lemma elem_of_all_critical_loop (S : gset pystr) (cc : list (pystr * pystr))
    (acc : gset pystr) (s : pystr) :
  s ∈ fold_left
        (fun all entry => all ∪ match_selectors S (parse_css (snd entry))) cc acc
  <-> s ∈ acc
      \/ exists entry, entry ∈ cc /\ s ∈ match_selectors S (parse_css (snd entry)).
Proof.
  revert acc. induction cc as [|x cc IH]; intros acc; cbn [fold_left].
  - split; [by left | intros [H | (e & He & _)]; [done | by apply elem_of_nil in He]].
  - rewrite IH, elem_of_union. split.
    + intros [[H | H] | (e & He & Hs)]; [by left | right | right].
      * exists x. split; [left | done].
      * exists e. split; [by right | done].
    + intros [H | (e & He & Hs)]; [by left; left |].
      apply elem_of_cons in He as [-> | He]; [left; by right | right; by exists e].
Qed.

Lemma elem_of_all_critical_selectors (S : gset pystr) (cc : list (pystr * pystr))
    (s : pystr) :
  s ∈ all_critical_selectors S cc
  <-> exists entry, entry ∈ cc /\ s ∈ match_selectors S (parse_css (snd entry)).
Proof.
  unfold all_critical_selectors. rewrite elem_of_all_critical_loop. split.
  - intros [H | H]; [by apply not_elem_of_empty in H | done].
  - by right.
Qed.

Lemma any_critical_spec (crit : gset pystr) (parts : list pystr) :
  any_critical crit parts = true <-> exists part, part ∈ parts /\ part ∈ crit.
Proof.
  unfold any_critical. rewrite existsb_exists. split.
  - intros (part & Hin & Hc). exists part.
    split; [by apply list_elem_of_In | by apply bool_decide_eq_true in Hc].
  - intros (part & Hin & Hc). exists part.
    split; [by apply list_elem_of_In | by apply bool_decide_eq_true].
Qed.

(** A visited rule is written exactly when one of its selector parts
    contains a signature. *)
Lemma is_emitted_critical (S : gset pystr) (cc : list (pystr * pystr))
    (m : pystr * pystr) :
  m ∈ all_rule_matches cc ->
  is_emitted (all_critical_selectors S cc) m = true <-> rule_is_critical S m.
Proof.
  intros Hm. unfold is_emitted, rule_is_critical.
  rewrite andb_true_iff, negb_true_iff, any_critical_spec. split.
  - intros [Hat (part & Hpart & Hcrit)]. split; [done |].
    apply elem_of_all_critical_selectors in Hcrit as (entry & _ & Hmatch).
    apply elem_of_match_selectors in Hmatch as [_ (sig & Hsig & Hsub)].
    by exists part, sig.
  - intros [Hat (part & sig & Hpart & Hsig & Hsub)]. split; [done |].
    exists part. split; [done |].
    unfold all_rule_matches in Hm.
    apply list_elem_of_In, in_flat_map in Hm as (entry & Hentry & Hm).
    apply elem_of_all_critical_selectors. exists entry.
    split; [by apply list_elem_of_In |].
    apply elem_of_match_selectors. split; [|by exists sig].
    eapply rule_parts_parsed; [by apply list_elem_of_In | done | done].
Qed.

Lemma critical_css_of_ok repr_list σ dom cc out :
  critical_css_of repr_list σ dom cc = Ok out ->
  exists above,
    find_above_fold_elements σ dom = Ok above
    /\ out = generate_critical_css cc
               (all_critical_selectors (extract_element_selectors repr_list σ above) cc).
Proof.
  unfold critical_css_of.
  destruct (find_above_fold_elements σ dom) as [above|e]; cbn; [|done].
  intros [= <-]. by exists above.
Qed.

End CriticalCss.

(** X4. The critical CSS of a page, when the above-fold heuristic returns:
    the header comment, the preamble, and then, in style sheet order, the
    rules that do not begin with [@] and have a comma-part whose text,
    pseudo suffixes removed, contains a signature of an above-fold element;
    no other rule is written.  The matched selectors are pooled over the
    style sheets, and that changes nothing: a part matched in one sheet is
    matched in every sheet where it occurs. *)
Theorem X4_critical_css_rules (repr_list : list pystr -> pystr) (σ : store)
    (dom : nat) (cc : list (pystr * pystr)) (out : pystr) :
  critical_css_of repr_list σ dom cc = Ok out ->
  exists above,
    find_above_fold_elements σ dom = Ok above
    /\ let signatures := extract_element_selectors repr_list σ above in
       let crit := all_critical_selectors signatures cc in
       out = header_comment ++ preamble
               ++ flat_map (fun m => format_rule (Py.strip (fst m)) (snd m))
                           (emitted_rules cc crit)
       /\ forall m, m ∈ all_rule_matches cc ->
            (is_emitted crit m = true <-> rule_is_critical signatures m).
Proof.
  intros Hout. apply critical_css_of_ok in Hout as (above & Habove & ->).
  exists above. split; [done |]. cbv zeta. split.
  - by rewrite generate_critical_css_unfold, flat_map_emit_rule.
  - intros m. apply is_emitted_critical.
Qed.

Lemma X4_witness :
  exists out above,
    critical_css_of (fun _ => []) sample_page 0
      [(str "inline-0", str "header{color: red}.foo{color: blue}")] = Ok out
    /\ find_above_fold_elements sample_page 0 = Ok above
    /\ let signatures := extract_element_selectors (fun _ => []) sample_page above in
       let cc := [(str "inline-0", str "header{color: red}.foo{color: blue}")] in
       let crit := all_critical_selectors signatures cc in
       out = header_comment ++ preamble
               ++ flat_map (fun m => format_rule (Py.strip (fst m)) (snd m))
                           (emitted_rules cc crit)
       /\ forall m, m ∈ all_rule_matches cc ->
            (is_emitted crit m = true <-> rule_is_critical signatures m).
Proof.
  eexists.
  assert (critical_css_of (fun _ => []) sample_page 0
            [(str "inline-0", str "header{color: red}.foo{color: blue}")]
          = Ok _) as H by (vm_compute; reflexivity).
  destruct (X4_critical_css_rules _ _ _ _ _ H) as (above & Habove & Hrest).
  exists above. split; [exact H |]. split; [exact Habove | exact Hrest].
Defined.

(** ** Numbers written and read back *)

Section IntRoundTrip.

Lemma digits_cons_digit (c : ascii) (acc : Z) (b : bool) (s : pystr) :
  PyInt.is_digit c = true ->
  PyInt.digits acc b (c :: s) = PyInt.digits (10 * acc + PyInt.digit_val c)%Z true s.
Proof. intros Hc. cbn [PyInt.digits]. by rewrite Hc. Qed.

(** Reading the digits of a decimal number after a positive prefix. *)
Lemma digits_of_uint_acc (d : Decimal.uint) (acc : Z) :
  (0 < acc)%Z ->
  PyInt.digits acc true (str (NilEmpty.string_of_uint d))
  = Some (Z.pos (Pos.of_uint_acc d (Z.to_pos acc))).
Proof.
  revert acc. induction d; intros acc Hacc;
    cbn [NilEmpty.string_of_uint str list_ascii_of_string Pos.of_uint_acc];
    [cbn; f_equal; lia | ..];
    (rewrite digits_cons_digit by reflexivity;
     rewrite IHd by (cbv [PyInt.digit_val]; simpl; lia);
     do 3 f_equal; cbv [PyInt.digit_val]; simpl; lia).
Qed.

Lemma digits_of_uint (d : Decimal.uint) (b : bool) :
  b = true \/ d <> Decimal.Nil ->
  PyInt.digits 0 b (str (NilEmpty.string_of_uint d)) = Some (Z.of_N (Pos.of_uint d)).
Proof.
  revert b. induction d; intros b Hb;
    cbn [NilEmpty.string_of_uint str list_ascii_of_string Pos.of_uint].
  1: { destruct Hb as [-> | Hb]; [done | by destruct Hb]. }
  1: { rewrite digits_cons_digit by reflexivity. apply IHd. by left. }
  all: rewrite digits_cons_digit by reflexivity;
    rewrite digits_of_uint_acc by (cbv [PyInt.digit_val]; simpl; lia);
    reflexivity.
Qed.

Lemma int_lstrip_nonspace (s : pystr) :
  Forall (fun c => PyInt.isspace c = false) s -> PyInt.lstrip s = s.
Proof. destruct 1 as [|c s Hc _]; cbn; [done | by rewrite Hc]. Qed.

Lemma int_strip_nonspace (s : pystr) :
  Forall (fun c => PyInt.isspace c = false) s -> PyInt.strip s = s.
Proof.
  intros Hs. unfold PyInt.strip. rewrite (int_lstrip_nonspace s Hs).
  rewrite int_lstrip_nonspace; [apply rev_involutive |].
  apply Forall_forall. intros c Hc. rewrite Forall_forall in Hs.
  apply Hs. by apply list_elem_of_In, in_rev, list_elem_of_In.
Qed.

Lemma uint_digits_nonspace (d : Decimal.uint) :
  Forall (fun c => PyInt.isspace c = false) (str (NilEmpty.string_of_uint d)).
Proof.
  induction d; cbn [NilEmpty.string_of_uint str list_ascii_of_string];
    constructor; done.
Qed.

Lemma uint_digits_all (d : Decimal.uint) :
  Forall (fun c => PyInt.is_digit c = true) (str (NilEmpty.string_of_uint d)).
Proof.
  induction d; cbn [NilEmpty.string_of_uint str list_ascii_of_string];
    constructor; done.
Qed.

Lemma count_digits_all (s : pystr) :
  Forall (fun c => PyInt.is_digit c = true) s -> PyInt.count_digits s = length s.
Proof.
  unfold PyInt.count_digits. induction 1 as [|c s Hc _ IH]; cbn [List.filter]; [done |].
  rewrite Hc. cbn [length]. by rewrite IH.
Qed.

Lemma decimal_pos (p : positive) :
  PyInt.decimal (Z.pos p) = str (NilEmpty.string_of_uint (Pos.to_uint p)).
Proof.
  unfold PyInt.decimal. cbn [Z.to_int NilZero.string_of_int].
  unfold NilZero.string_of_uint.
  pose proof (Unsigned.to_uint_nonnil p) as Hnil.
  by destruct (Pos.to_uint p).
Qed.

Lemma decimal_neg (p : positive) :
  PyInt.decimal (Z.neg p) = "-" :: PyInt.decimal (Z.pos p).
Proof. reflexivity. Qed.

Lemma digits_decimal_pos (p : positive) :
  PyInt.digits 0 false (PyInt.decimal (Z.pos p)) = Some (Z.pos p).
Proof.
  rewrite decimal_pos, digits_of_uint by (right; apply Unsigned.to_uint_nonnil).
  by rewrite DecimalPos.Unsigned.of_to.
Qed.

Lemma decimal_pos_digits (p : positive) :
  Forall (fun c => PyInt.is_digit c = true) (PyInt.decimal (Z.pos p)).
Proof. rewrite decimal_pos. apply uint_digits_all. Qed.

Lemma decimal_pos_nonspace (p : positive) :
  Forall (fun c => PyInt.isspace c = false) (PyInt.decimal (Z.pos p)).
Proof. rewrite decimal_pos. apply uint_digits_nonspace. Qed.

(** A text of digits with at most [max_str_digits] of them is read by
    [int] as its digits are. *)
Lemma int_of_digits (s : pystr) :
  s <> [] ->
  Forall (fun c => PyInt.is_digit c = true) s ->
  PyInt.count_digits s <= PyInt.max_str_digits ->
  PyInt.int s = PyInt.digits 0 false s.
Proof.
  intros Hne Hs Hcount. unfold PyInt.int.
  rewrite int_strip_nonspace.
  2: { eapply Forall_impl; [exact Hs |]. intros c Hc.
       destruct c as [b0 b1 b2 b3 b4 b5 b6 b7].
       by destruct b0, b1, b2, b3, b4, b5, b6, b7. }
  assert (PyInt.number s = PyInt.digits 0 false s) as Hnum.
  { unfold PyInt.number. by rewrite (proj2 (Nat.ltb_ge _ _) Hcount). }
  destruct s as [|c s]; [done |]. apply Forall_cons in Hs as [Hc _].
  destruct c as [b0 b1 b2 b3 b4 b5 b6 b7].
  by destruct b0, b1, b2, b3, b4, b5, b6, b7.
Qed.

Lemma count_digits_minus (s : pystr) :
  PyInt.count_digits ("-" :: s) = PyInt.count_digits s.
Proof. reflexivity. Qed.

(** [int(str(n)) == n], when [str] returns. *)
Lemma int_to_str (n : Z) (text : pystr) :
  PyInt.to_str n = Some text -> PyInt.int text = Some n.
Proof.
  unfold PyInt.to_str.
  destruct (PyInt.max_str_digits <? PyInt.count_digits (PyInt.decimal n)) eqn:Hc;
    [done |].
  intros [= <-]. apply Nat.ltb_ge in Hc. destruct n as [|p|p].
  - reflexivity.
  - rewrite int_of_digits; [apply digits_decimal_pos | | apply decimal_pos_digits | done].
    intros Hnil. pose proof (digits_decimal_pos p) as Hd. by rewrite Hnil in Hd.
  - rewrite decimal_neg, count_digits_minus in *. unfold PyInt.int.
    rewrite int_strip_nonspace
      by (constructor; [done | apply decimal_pos_nonspace]).
    unfold PyInt.number. rewrite (proj2 (Nat.ltb_ge _ _) Hc).
    by rewrite digits_decimal_pos.
Qed.

End IntRoundTrip.

(** ** The digits of a number and its size *)

Section DigitLimit.

Lemma digit_val_range (c : ascii) :
  PyInt.is_digit c = true -> (0 <= PyInt.digit_val c <= 9)%Z.
Proof.
  unfold PyInt.is_digit, PyInt.digit_val.
  intros H. apply andb_true_iff in H as [H1 H2].
  apply Nat.leb_le in H1, H2. lia.
Qed.

(** The number read from [acc] followed by the digits [s]. *)
Lemma digits_bounds (s : pystr) (acc v : Z) :
  Forall (fun c => PyInt.is_digit c = true) s ->
  (0 <= acc)%Z ->
  PyInt.digits acc true s = Some v ->
  (acc * 10 ^ Z.of_nat (length s) <= v < (acc + 1) * 10 ^ Z.of_nat (length s))%Z.
Proof.
  intros Hs. revert acc. induction Hs as [|c s Hc _ IH]; intros acc Hacc.
  - cbn. intros [= <-]. lia.
  - rewrite digits_cons_digit by done. intros Hv.
    pose proof (digit_val_range c Hc) as Hd.
    apply IH in Hv; [|lia].
    cbn [length]. rewrite Nat2Z.inj_succ, Z.pow_succ_r by lia.
    assert (0 < 10 ^ Z.of_nat (length s))%Z as Hpow by (apply Z.pow_pos_nonneg; lia).
    nia.
Qed.

(** The decimal text of a positive number starts with a digit that is not
    zero. *)
Lemma decimal_pos_leading (p : positive) :
  exists c s,
    PyInt.decimal (Z.pos p) = c :: s
    /\ PyInt.is_digit c = true /\ (1 <= PyInt.digit_val c)%Z.
Proof.
  rewrite decimal_pos.
  assert (Decimal.unorm (Pos.to_uint p) = Pos.to_uint p) as Hnorm.
  { rewrite <- (DecimalPos.Unsigned.to_of (Pos.to_uint p)).
    by rewrite DecimalPos.Unsigned.of_to. }
  pose proof (Unsigned.to_uint_nonnil p) as Hnil.
  pose proof (Unsigned.to_uint_nonzero p) as Hzero.
  destruct (Pos.to_uint p) as [|d|d|d|d|d|d|d|d|d|d] eqn:Hd; [done | ..];
    cbn [NilEmpty.string_of_uint str list_ascii_of_string].
  2-10: eexists _, _; split; [reflexivity |]; split; [reflexivity | by cbv].
  exfalso. rewrite DecimalFacts.unorm_D0 in Hnorm. unfold Decimal.unorm in Hnorm.
  destruct (Decimal.nzhead d) eqn:Hhead.
  2: { by apply DecimalFacts.nzhead_nonzero in Hhead. }
  all: try (injection Hnorm as <-; by apply Hzero).
  all: discriminate.
Qed.

Lemma decimal_pos_size (p : positive) :
  (10 ^ Z.of_nat (length (PyInt.decimal (Z.pos p)) - 1) <= Z.pos p
   < 10 ^ Z.of_nat (length (PyInt.decimal (Z.pos p))))%Z.
Proof.
  pose proof (digits_decimal_pos p) as Hread.
  pose proof (decimal_pos_digits p) as Hall.
  destruct (decimal_pos_leading p) as (c & s & Heq & Hc & Hlead).
  rewrite Heq in *. apply Forall_cons in Hall as [_ Hs].
  rewrite digits_cons_digit in Hread by done.
  pose proof (digit_val_range c Hc) as Hd.
  apply digits_bounds in Hread; [|done | lia].
  cbn [length]. replace (S (length s) - 1) with (length s) by lia.
  rewrite Nat2Z.inj_succ, Z.pow_succ_r by lia.
  assert (0 < 10 ^ Z.of_nat (length s))%Z as Hpow by (apply Z.pow_pos_nonneg; lia).
  nia.
Qed.

Lemma count_digits_decimal_pos (p : positive) :
  PyInt.max_str_digits < PyInt.count_digits (PyInt.decimal (Z.pos p))
  <-> (10 ^ Z.of_nat PyInt.max_str_digits <= Z.pos p)%Z.
Proof.
  rewrite count_digits_all by apply decimal_pos_digits.
  pose proof (decimal_pos_size p) as [Hlow Hhigh].
  generalize dependent (length (PyInt.decimal (Z.pos p))).
  generalize PyInt.max_str_digits. intros limit len Hlow Hhigh. split.
  - intros Hlt. etransitivity; [|exact Hlow].
    apply Z.pow_le_mono_r; lia.
  - intros Hle. destruct (decide (limit < len)) as [|Hge]; [done |].
    assert (10 ^ Z.of_nat len <= 10 ^ Z.of_nat limit)%Z
      by (apply Z.pow_le_mono_r; lia).
    lia.
Qed.

(** [str(n)] raises exactly from [10 ** max_str_digits] on, in size. *)
Lemma to_str_None (n : Z) :
  PyInt.to_str n = None
  <-> (10 ^ Z.of_nat PyInt.max_str_digits <= Z.abs n)%Z.
Proof.
  unfold PyInt.to_str.
  assert (0 < 10 ^ Z.of_nat PyInt.max_str_digits)%Z as Hpos
    by (apply Z.pow_pos_nonneg; lia).
  destruct n as [|p|p].
  - change (PyInt.max_str_digits <? PyInt.count_digits (PyInt.decimal 0)) with false.
    cbn [Z.abs]. split; [done | lia].
  - change (Z.abs (Z.pos p)) with (Z.pos p). rewrite <- count_digits_decimal_pos.
    destruct (_ <? _) eqn:Hc; [apply Nat.ltb_lt in Hc | apply Nat.ltb_ge in Hc].
    + by split.
    + split; [done | lia].
  - rewrite decimal_neg, count_digits_minus.
    change (Z.abs (Z.neg p)) with (Z.pos p). rewrite <- count_digits_decimal_pos.
    destruct (_ <? _) eqn:Hc; [apply Nat.ltb_lt in Hc | apply Nat.ltb_ge in Hc].
    + by split.
    + split; [done | lia].
Qed.

End DigitLimit.

(** X5. [str(n)] of a pixel size returns unless the size has more than
    [sys.int_max_str_digits] digits, that is from [10 ** 4300] on; a size the
    image step has written reads back as the same number with [int]; so on
    an image whose [width] and [height] were written by the transform the
    area key of the above-fold heuristic is their product and does not
    raise. *)
Theorem X5_written_size_reads_back (σ : store) (img : nat) (w h : Z)
    (width_text height_text : pystr) :
  (PyInt.to_str w = None
   <-> (10 ^ Z.of_nat PyInt.max_str_digits <= Z.abs w)%Z)
  /\ (PyInt.to_str w = Some width_text -> PyInt.int width_text = Some w)
  /\ (PyInt.to_str w = Some width_text ->
      PyInt.to_str h = Some height_text ->
      attr_get (str "width") (attrs_of σ img) = Some (AStr width_text) ->
      attr_get (str "height") (attrs_of σ img) = Some (AStr height_text) ->
      area_key σ img = Ok (w * h)%Z).
Proof.
  split; [apply to_str_None |]. split; [apply int_to_str |].
  intros Hwt Hht Hw Hh.
  unfold area_key, getitem. rewrite Hw, Hh. cbn.
  by rewrite (int_to_str w width_text Hwt), (int_to_str h height_text Hht).
Qed.

Lemma X5_witness :
  area_key [ tag "img" [(str "width", AStr (str "-12"));
                        (str "height", AStr (str "340"))] [] None ] 0
  = Ok (-12 * 340)%Z.
Proof.
  apply (proj2 (proj2 (X5_written_size_reads_back _ 0 (-12) 340
                         (str "-12") (str "340"))));
    reflexivity.
Defined.

Section IntRejects.

Lemma int_cons (s : pystr) (x : ascii) (d : pystr) :
  PyInt.strip s = x :: d ->
  PyInt.int s
  = if Ascii.eqb x "-" then Z.opp <$> PyInt.number d
    else if Ascii.eqb x "+" then PyInt.number d
         else PyInt.number (x :: d).
Proof.
  unfold PyInt.int. intros ->.
  destruct x as [b0 b1 b2 b3 b4 b5 b6 b7].
  destruct b0, b1, b2, b3, b4, b5, b6, b7; reflexivity.
Qed.

Lemma digits_reject (c : ascii) (s : pystr) (acc : Z) (b : bool) :
  c ∈ s -> PyInt.is_digit c = false -> Ascii.eqb c "_" = false ->
  PyInt.digits acc b s = None.
Proof.
  intros Hc Hd Hu. revert acc b.
  induction s as [|x s IH]; intros acc b; [by apply elem_of_nil in Hc |].
  cbn [PyInt.digits]. apply elem_of_cons in Hc as [<- | Hc].
  - by rewrite Hd, Hu.
  - destruct (PyInt.is_digit x); [by apply IH |].
    destruct (Ascii.eqb x "_"); [|done]. destruct b; [by apply IH | done].
Qed.

Lemma number_reject (c : ascii) (s : pystr) :
  c ∈ s -> PyInt.is_digit c = false -> Ascii.eqb c "_" = false ->
  PyInt.number s = None.
Proof.
  intros Hc Hd Hu. unfold PyInt.number.
  destruct (_ <? _); [done | by apply (digits_reject c)].
Qed.

Lemma elem_of_int_lstrip (c : ascii) (s : pystr) :
  c ∈ s -> PyInt.isspace c = false -> c ∈ PyInt.lstrip s.
Proof.
  intros Hc Hs. induction s as [|x s IH]; [done |]. cbn [PyInt.lstrip].
  destruct (PyInt.isspace x) eqn:Hx; [|done].
  apply elem_of_cons in Hc as [-> | Hc]; [congruence | by apply IH].
Qed.

Lemma elem_of_int_strip (c : ascii) (s : pystr) :
  c ∈ s -> PyInt.isspace c = false -> c ∈ PyInt.strip s.
Proof.
  intros Hc Hs. unfold PyInt.strip.
  apply list_elem_of_In, in_rev. rewrite rev_involutive.
  apply list_elem_of_In, elem_of_int_lstrip; [|done].
  apply list_elem_of_In, in_rev. rewrite rev_involutive.
  by apply list_elem_of_In, elem_of_int_lstrip.
Qed.

(** [int] raises on a text with a character that is no digit, underscore,
    sign or white space. *)
Lemma int_rejects (c : ascii) (s : pystr) :
  c ∈ s -> numeric_char c = false -> PyInt.int s = None.
Proof.
  unfold numeric_char. rewrite !orb_false_iff.
  intros Hc ((((Hd & Hs) & Hu) & Hplus) & Hminus).
  pose proof (elem_of_int_strip c s Hc Hs) as Hin.
  destruct (PyInt.strip s) as [|x d] eqn:Hstrip; [by apply elem_of_nil in Hin |].
  rewrite (int_cons s x d Hstrip). apply elem_of_cons in Hin as [<- | Hin].
  - rewrite Hminus, Hplus. apply (number_reject c); [left | done | done].
  - destruct (Ascii.eqb x "-"); [by rewrite (number_reject c d) |].
    destruct (Ascii.eqb x "+"); [by apply (number_reject c) |].
    apply (number_reject c); [by right | done | done].
Qed.

Lemma area_key_rejects (σ : store) (img : nat) (k w : pystr) (c : ascii) :
  k ∈ [str "width"; str "height"] ->
  attr_get k (attrs_of σ img) = Some (AStr w) ->
  c ∈ w -> numeric_char c = false ->
  declares_size σ img = false.
Proof.
  intros Hk Hattr Hc Hnum. pose proof (int_rejects c w Hc Hnum) as Hint.
  unfold declares_size, area_key, getitem.
  apply elem_of_cons in Hk as [-> | Hk].
  - rewrite Hattr. cbn. by rewrite Hint.
  - apply elem_of_cons in Hk as [-> | Hk]; [|by apply elem_of_nil in Hk]. rewrite Hattr.
    destruct (attr_get (str "width") (attrs_of σ img)) as [v|]; cbn; [|done].
    destruct (int_of_attr v); cbn; [|done]. by rewrite Hint.
Qed.

End IntRejects.

(** X6. A [width] or [height] text with a character that is no digit,
    underscore, sign or white space (as in [100px], [50%], [auto]) is not an
    integer for [int]; one image carrying both attributes with such a text
    makes the above-fold heuristic raise, and with it the whole extraction:
    no critical CSS is produced for the page. *)
Theorem X6_non_numeric_size_raises (repr_list : list pystr -> pystr) (σ : store)
    (dom : nat) (cc : list (pystr * pystr)) (img : nat) (k w : pystr) (c : ascii) :
  img ∈ find_all σ dom is_img ->
  has_size σ img = true ->
  k ∈ [str "width"; str "height"] ->
  attr_get k (attrs_of σ img) = Some (AStr w) ->
  c ∈ w -> numeric_char c = false ->
  PyInt.int w = None
  /\ (exists e, find_above_fold_elements σ dom = Raise e)
  /\ (exists e, critical_css_of repr_list σ dom cc = Raise e).
Proof.
  intros Himg Hsize Hk Hattr Hc Hnum.
  split; [by apply (int_rejects c) |].
  destruct (find_above_fold_elements_raises σ dom img Himg Hsize) as [e He].
  { by apply (area_key_rejects σ img k w c). }
  split; [by exists e |]. exists e. unfold critical_css_of. by rewrite He.
Qed.

Lemma X6_witness :
  PyInt.int (str "100px") = None
  /\ (exists e,
        find_above_fold_elements
          [ tag "[document]" [] [1] None;
            tag "img" [(str "width", AStr (str "100px"));
                       (str "height", AStr (str "50"))] [] (Some 0) ] 0 = Raise e)
  /\ (exists e,
        critical_css_of (fun _ => [])
          [ tag "[document]" [] [1] None;
            tag "img" [(str "width", AStr (str "100px"));
                       (str "height", AStr (str "50"))] [] (Some 0) ] 0 [] = Raise e).
Proof.
  apply (X6_non_numeric_size_raises _ _ 0 [] 1 (str "width") (str "100px") "p").
  - apply (bool_decide_unpack _). vm_compute. exact I.
  - reflexivity.
  - apply (bool_decide_unpack _). vm_compute. exact I.
  - reflexivity.
  - apply (bool_decide_unpack _). vm_compute. exact I.
  - reflexivity.
Defined.

(** ** What the parser returns *)

Section Trimmed.

Lemma lstrip_nonspace_head (s : pystr) :
  match s with c :: _ => Py.isspace c = false | [] => True end ->
  Py.lstrip s = s.
Proof. destruct s as [|c s]; cbn; [done |]. by intros ->. Qed.

Lemma lstrip_starts (s : pystr) :
  match Py.lstrip s with c :: _ => Py.isspace c = false | [] => True end.
Proof.
  induction s as [|c s IH]; cbn; [done |].
  by destruct (Py.isspace c) eqn:Hc.
Qed.

Lemma lstrip_idem (s : pystr) : Py.lstrip (Py.lstrip s) = Py.lstrip s.
Proof. apply lstrip_nonspace_head, lstrip_starts. Qed.

Lemma rstrip_idem (s : pystr) : Py.rstrip (Py.rstrip s) = Py.rstrip s.
Proof. unfold Py.rstrip. by rewrite rev_involutive, lstrip_idem. Qed.

Lemma strip_starts (s : pystr) :
  match Py.strip s with c :: _ => Py.isspace c = false | [] => True end.
Proof.
  destruct (Py.strip s) as [|c t] eqn:Hs; [done |]. by apply strip_head in Hs.
Qed.

(** [s.strip().strip() == s.strip()] *)
Lemma strip_idem (s : pystr) : Py.strip (Py.strip s) = Py.strip s.
Proof.
  unfold Py.strip at 1. rewrite (lstrip_nonspace_head _ (strip_starts s)).
  unfold Py.strip. apply rstrip_idem.
Qed.

Lemma elem_of_lstrip (c : ascii) (s : pystr) : c ∈ Py.lstrip s -> c ∈ s.
Proof.
  induction s as [|x s IH]; cbn; [done |].
  destruct (Py.isspace x); [|done]. intros H. right. by apply IH.
Qed.

Lemma elem_of_strip (c : ascii) (s : pystr) : c ∈ Py.strip s -> c ∈ s.
Proof.
  unfold Py.strip, Py.rstrip. intros H.
  apply list_elem_of_In, in_rev, list_elem_of_In in H.
  apply elem_of_lstrip in H.
  apply list_elem_of_In, in_rev, list_elem_of_In in H.
  by apply elem_of_lstrip.
Qed.

(** The parts of a split hold no separator, and only characters of the
    text. *)
Lemma split_parts (sep : ascii) (s part : pystr) :
  part ∈ Py.split sep s -> (sep ∉ part) /\ forall c, c ∈ part -> c ∈ s.
Proof.
  revert part. induction s as [|x s IH]; intros part; cbn [Py.split].
  - intros H. apply elem_of_cons in H as [-> | H]; [|by apply elem_of_nil in H].
    split; [apply not_elem_of_nil | done].
  - destruct (Ascii.eqb x sep) eqn:Hx.
    + intros H. apply elem_of_cons in H as [-> | H].
      * split; [apply not_elem_of_nil | intros c Hc; by apply elem_of_nil in Hc].
      * destruct (IH _ H) as [Hsep Hsub]. split; [done |].
        intros c Hc. right. by apply Hsub.
    + apply Ascii.eqb_neq in Hx.
      destruct (Py.split sep s) as [|p ps] eqn:Hsplit.
      * intros H. apply elem_of_cons in H as [-> | H]; [|by apply elem_of_nil in H].
        split.
        -- intros H. apply elem_of_cons in H as [-> | H]; [done | by apply elem_of_nil in H].
        -- intros c Hc. apply elem_of_cons in Hc as [-> | Hc]; [left | by apply elem_of_nil in Hc].
      * intros H. apply elem_of_cons in H as [-> | H].
        -- destruct (IH p) as [Hsep Hsub]; [left |]. split.
           ++ intros H. apply elem_of_cons in H as [-> | H]; [done | by apply Hsep].
           ++ intros c Hc. apply elem_of_cons in Hc as [-> | Hc]; [left | right; by apply Hsub].
        -- destruct (IH part) as [Hsep Hsub]; [by right |]. split; [done |].
           intros c Hc. right. by apply Hsub.
Qed.

End Trimmed.

Section Captures.

Lemma star_cls_inv {R} (p : ascii -> bool) (s : pystr) (k : pystr -> option R)
    (x : R) :
  star_cls p s k = Some x ->
  exists run rest,
    s = run ++ rest /\ Forall (fun c => p c = true) run /\ k rest = Some x.
Proof.
  induction s as [|c s IH]; cbn [star_cls].
  - intros Hk. by exists [], [].
  - destruct (p c) eqn:Hc.
    + destruct (star_cls p s k) as [y|] eqn:Hs.
      * intros [= <-]. destruct (IH eq_refl) as (run & rest & -> & Hrun & Hk).
        exists (c :: run), rest. split; [done |]. split; [by constructor | done].
      * intros Hk. by exists [], (c :: s).
    + intros Hk. by exists [], (c :: s).
Qed.

(** The group of a match of the selector pattern holds no opening brace. *)
Lemma match_at_selector_group (s : pystr) (caps : list pystr) (rest : pystr) :
  match_at selector_pattern s = Some (caps, rest) ->
  "{" ∉ nth 0 caps [].
Proof.
  unfold match_at, selector_pattern. cbn [rmatch].
  destruct s as [|x s]; [done |]. destruct (not_char "{" x) eqn:Hx; [|done].
  intros H. apply star_cls_inv in H as (run & s1 & -> & Hrun & H).
  destruct s1 as [|y s1]; [done |]. destruct (Ascii.eqb y "{"); [|done].
  apply star_cls_inv in H as (run2 & s2 & -> & _ & H).
  destruct s2 as [|z s2]; [done |]. destruct (Ascii.eqb z "}"); [|done].
  injection H as <- <-. cbn [app nth].
  change (x :: run ++ y :: run2 ++ z :: s2)
    with ((x :: run) ++ y :: run2 ++ z :: s2).
  replace (length (run ++ y :: run2 ++ z :: s2) - length (run2 ++ z :: s2))
    with (length (x :: run))
    by (rewrite length_app; cbn [length]; lia).
  rewrite take_app_length. intros Hin.
  apply elem_of_cons in Hin as [<- | Hin].
  - by apply not_char_true in Hx.
  - rewrite Forall_forall in Hrun. by apply Hrun, not_char_true in Hin.
Qed.

Lemma findall_from_Forall (r : regex) (P : list pystr -> Prop) :
  (forall s caps rest, match_at r s = Some (caps, rest) -> P caps) ->
  forall skip s, Forall P (findall_from r skip s).
Proof.
  intros Hmatch skip s. revert skip.
  induction s as [|c s IH]; intros skip; cbn [findall_from]; [done |].
  destruct skip as [|n]; [|apply IH].
  destruct (match_at r (c :: s)) as [[caps rest]|] eqn:Hm; [|apply IH].
  constructor; [by eapply Hmatch | apply IH].
Qed.

Lemma selector_matches_no_brace (css m : pystr) :
  m ∈ selector_matches css -> "{" ∉ m.
Proof.
  unfold selector_matches, findall. intros Hm.
  apply list_elem_of_In, in_map_iff in Hm as (caps & <- & Hcaps).
  pose proof (findall_from_Forall selector_pattern _ match_at_selector_group
                0 css) as Hall.
  rewrite Forall_forall in Hall. by apply Hall, list_elem_of_In.
Qed.

End Captures.

(** X7. Every selector [parse_css] returns is trimmed (stripping it again
    changes nothing) and holds neither a comma nor an opening brace. *)
Theorem X7_parsed_selectors_clean (css s : pystr) :
  s ∈ parse_css css ->
  Py.strip s = s /\ ("," ∉ s) /\ ("{" ∉ s).
Proof.
  intros Hs. apply elem_of_parse_css in Hs as (m & Hm & _ & Hs).
  unfold split_selectors in Hs.
  apply list_elem_of_In, in_map_iff in Hs as (part & <- & Hpart).
  apply list_elem_of_In, split_parts in Hpart as [Hsep Hsub].
  split; [apply strip_idem |]. split.
  - intros Hc. by apply elem_of_strip in Hc.
  - intros Hc. apply elem_of_strip, Hsub, elem_of_strip in Hc.
    by apply (selector_matches_no_brace css m).
Qed.

Lemma X7_witness :
  Py.strip (str "b") = str "b" /\ ("," ∉ str "b") /\ ("{" ∉ str "b").
Proof.
  apply (X7_parsed_selectors_clean (str " a , b { c: d }")).
  apply (bool_decide_unpack _). vm_compute. exact I.
Defined.


(** ** Attribute dictionaries *)

Section Attrs.

Lemma attr_get_set (k : pystr) (v : attr_value) (attrs : list (pystr * attr_value)) :
  attr_get k (attr_set k v attrs) = Some v.
Proof.
  induction attrs as [|[k' v'] attrs IH]; cbn.
  - by rewrite bool_decide_eq_true_2.
  - destruct (bool_decide (k' = k)) eqn:Hk; cbn.
    + by rewrite bool_decide_eq_true_2.
    + by rewrite Hk.
Qed.

Lemma attr_get_set_ne (k k' : pystr) (v : attr_value)
    (attrs : list (pystr * attr_value)) :
  k <> k' -> attr_get k' (attr_set k v attrs) = attr_get k' attrs.
Proof.
  intros Hne. induction attrs as [|[k0 v0] attrs IH]; cbn.
  - by rewrite bool_decide_eq_false_2.
  - destruct (bool_decide (k0 = k)) eqn:Hk; cbn.
    + apply bool_decide_eq_true in Hk as ->.
      by rewrite !bool_decide_eq_false_2.
    + by rewrite IH.
Qed.

Lemma attr_get_elem_of (k : pystr) (v : attr_value)
    (attrs : list (pystr * attr_value)) :
  attr_get k attrs = Some v -> (k, v) ∈ attrs.
Proof.
  induction attrs as [|[k' v'] attrs IH]; cbn; [done |].
  destruct (bool_decide (k' = k)) eqn:Hk.
  - apply bool_decide_eq_true in Hk as ->. intros [= ->]. left.
  - intros H. right. by apply IH.
Qed.

(** Two dictionaries that give one key different values are not equal. *)
Lemma attrs_eqb_differ (k : pystr) (v : attr_value)
    (a b : list (pystr * attr_value)) :
  attr_get k a = Some v -> attr_get k b <> Some v -> attrs_eqb a b = false.
Proof.
  intros Ha Hb. unfold attrs_eqb. apply andb_false_iff. right.
  destruct (forallb _ a) eqn:Hall; [|done].
  rewrite forallb_forall in Hall.
  apply attr_get_elem_of, list_elem_of_In, Hall in Ha.
  by apply bool_decide_eq_true in Ha.
Qed.

End Attrs.

(** ** The effect of an update on what is read from the store *)

Section Updates.

Variable σ : store.
Variable i : nat.
Variable f : node -> node.

Lemma attrs_of_alter_ne j : i <> j -> attrs_of (alter f i σ) j = attrs_of σ j.
Proof. intros Hne. unfold attrs_of. by rewrite list_lookup_alter_ne. Qed.

Lemma name_of_alter_ne j : i <> j -> name_of (alter f i σ) j = name_of σ j.
Proof. intros Hne. unfold name_of. by rewrite list_lookup_alter_ne. Qed.

Lemma is_tag_alter_ne j : i <> j -> is_tag (alter f i σ) j = is_tag σ j.
Proof. intros Hne. unfold is_tag. by rewrite list_lookup_alter_ne. Qed.

Lemma contents_of_alter_ne j : i <> j -> contents_of (alter f i σ) j = contents_of σ j.
Proof. intros Hne. unfold contents_of. by rewrite list_lookup_alter_ne. Qed.

Lemma parent_of_alter_ne j : i <> j -> parent_of (alter f i σ) j = parent_of σ j.
Proof. intros Hne. unfold parent_of. by rewrite list_lookup_alter_ne. Qed.

Lemma name_of_alter j :
  (forall nd, n_name (f nd) = n_name nd) -> name_of (alter f i σ) j = name_of σ j.
Proof.
  intros Hf. unfold name_of. destruct (decide (i = j)) as [<- | Hne].
  - rewrite list_lookup_alter_eq. destruct (σ !! i); cbn; [apply Hf | done].
  - by rewrite list_lookup_alter_ne.
Qed.

Lemma is_tag_alter j :
  (forall nd, n_text (f nd) = n_text nd) -> is_tag (alter f i σ) j = is_tag σ j.
Proof.
  intros Hf. unfold is_tag. destruct (decide (i = j)) as [<- | Hne].
  - rewrite list_lookup_alter_eq. destruct (σ !! i); cbn; [by rewrite Hf | done].
  - by rewrite list_lookup_alter_ne.
Qed.

Lemma attrs_of_alter j :
  (forall nd, n_attrs (f nd) = n_attrs nd) -> attrs_of (alter f i σ) j = attrs_of σ j.
Proof.
  intros Hf. unfold attrs_of. destruct (decide (i = j)) as [<- | Hne].
  - rewrite list_lookup_alter_eq. destruct (σ !! i); cbn; [apply Hf | done].
  - by rewrite list_lookup_alter_ne.
Qed.

Lemma contents_of_alter j :
  (forall nd, n_contents (f nd) = n_contents nd) ->
  contents_of (alter f i σ) j = contents_of σ j.
Proof.
  intros Hf. unfold contents_of. destruct (decide (i = j)) as [<- | Hne].
  - rewrite list_lookup_alter_eq. destruct (σ !! i); cbn; [apply Hf | done].
  - by rewrite list_lookup_alter_ne.
Qed.

Lemma parent_of_alter j :
  (forall nd, n_parent (f nd) = n_parent nd) ->
  parent_of (alter f i σ) j = parent_of σ j.
Proof.
  intros Hf. unfold parent_of. destruct (decide (i = j)) as [<- | Hne].
  - rewrite list_lookup_alter_eq. destruct (σ !! i); cbn; [apply Hf | done].
  - by rewrite list_lookup_alter_ne.
Qed.

End Updates.

Section SetAttr.

(** [tag[k] = v] *)
Lemma set_attr_run (i : nat) (k : pystr) (v : attr_value) (σ : store) :
  exists σ',
    set_attr i k v σ = (Ok tt, σ')
    /\ length σ' = length σ
    /\ (forall j, name_of σ' j = name_of σ j)
    /\ (forall j, is_tag σ' j = is_tag σ j)
    /\ (forall j, contents_of σ' j = contents_of σ j)
    /\ (forall j, parent_of σ' j = parent_of σ j)
    /\ (forall j, j <> i -> σ' !! j = σ !! j)
    /\ (i < length σ -> attrs_of σ' i = attr_set k v (attrs_of σ i)).
Proof.
  eexists. split; [reflexivity |]. split; [apply length_alter |].
  split; [intros j; by apply name_of_alter |].
  split; [intros j; by apply is_tag_alter |].
  split; [intros j; by apply contents_of_alter |].
  split; [intros j; by apply parent_of_alter |].
  split; [intros j Hj; by apply list_lookup_alter_ne |].
  intros Hi. unfold attrs_of. rewrite list_lookup_alter_eq.
  apply lookup_lt_is_Some in Hi as [nd ->]. done.
Qed.

Lemma attrs_of_eq (σ σ' : store) (j : nat) :
  σ' !! j = σ !! j -> attrs_of σ' j = attrs_of σ j.
Proof. unfold attrs_of. by intros ->. Qed.

Lemma attrs_of_out (σ : store) (j : nat) : length σ <= j -> attrs_of σ j = [].
Proof. intros Hj. unfold attrs_of. by rewrite lookup_ge_None_2. Qed.

End SetAttr.

(** ** Step 3 of the transform and the downloaded style sheets *)

Section CssLinks.

Lemma stylesheet_rel (σ : store) (e : nat) :
  is_stylesheet_link σ e = true ->
  exists v, attr_get (str "rel") (attrs_of σ e) = Some v
            /\ v <> AStr (str "preload").
Proof.
  unfold is_stylesheet_link, attr_is, attr_satisfies.
  intros H. apply andb_true_iff in H as [_ H].
  destruct (attr_get (str "rel") (attrs_of σ e)) as [[s|l]|]; [| |done].
  - apply bool_decide_eq_true in H as ->. by eexists.
  - by eexists.
Qed.

Lemma same_node_same_link (σ σ' : store) (e : nat) :
  σ' !! e = σ !! e ->
  is_tag σ' e = is_tag σ e
  /\ is_stylesheet_link σ' e = is_stylesheet_link σ e.
Proof.
  intros H. unfold is_stylesheet_link, name_in, name_of, attr_is,
    attr_satisfies, attrs_of, is_tag. by rewrite H.
Qed.

(** Two tags that give one attribute different values are not equal. *)
Lemma tag_eq_attr_differs (σ : store) (e l : nat) (k : pystr) (v : attr_value) :
  e <> l -> is_tag σ e = true ->
  attr_get k (attrs_of σ e) = Some v ->
  attr_get k (attrs_of σ l) <> Some v ->
  tag_eq σ e l = false.
Proof.
  intros Hne Htag He Hl. unfold tag_eq. cbn [node_eqb].
  apply Nat.eqb_neq in Hne as ->. cbn [orb].
  unfold is_tag in Htag. unfold attrs_of in He, Hl.
  destruct (σ !! e) as [a|]; [|done].
  destruct (σ !! l) as [b|]; [|done].
  destruct (n_text a); [done |]. destruct (n_text b); [done |].
  rewrite (attrs_eqb_differ k v _ _ He Hl).
  by rewrite andb_false_r.
Qed.

Lemma use_local_paths_noop (rs : list resource) (tag : nat) (k : pystr)
    (σ : store) :
  (forall r, r ∈ rs -> tag_eq σ (r_element r) tag = false) ->
  use_local_paths rs tag k σ = (Ok tt, σ).
Proof.
  unfold use_local_paths. induction rs as [|r rs IH]; intros Hrs; [done |].
  cbn [for_each]. rewrite bind_run, bind_run. cbn [get_store].
  assert (tag_eq σ (r_element r) tag = false) as Hr by (apply Hrs; left).
  destruct (r_local_path r); rewrite ?Hr; cbn; apply IH;
    intros r' Hr'; apply Hrs; by right.
Qed.

(** What the loop of step 3 needs of the resources: their elements are
    style sheet links and none of them is one of the links of the loop. *)
Local Abbreviation foreign rs links σ :=
  (forall r, r ∈ rs ->
     is_tag σ (r_element r) = true
     /\ is_stylesheet_link σ (r_element r) = true
     /\ r_element r ∉ links).

Lemma preload_css_links_cons (rs : list resource) (link : nat)
    (links : list nat) (σ : store) :
  foreign rs (link :: links) σ ->
  exists σ',
    (set_attr link (str "rel") (AStr (str "preload")) ;;
     set_attr link (str "as") (AStr (str "style")) ;;
     set_attr link (str "onload")
       (AStr (str "this.onload=null;this.rel='stylesheet'")) ;;
     use_local_paths rs link (str "href")) σ = (Ok tt, σ')
    /\ (set_attr link (str "rel") (AStr (str "preload")) ;;
        set_attr link (str "as") (AStr (str "style")) ;;
        set_attr link (str "onload")
          (AStr (str "this.onload=null;this.rel='stylesheet'")) ;;
        use_local_paths [] link (str "href")) σ = (Ok tt, σ')
    /\ foreign rs links σ'.
Proof.
  intros Hrs.
  destruct (set_attr_run link (str "rel") (AStr (str "preload")) σ)
    as (σ1 & Hrun1 & Hlen1 & _ & _ & _ & _ & Hother1 & Hattr1).
  destruct (set_attr_run link (str "as") (AStr (str "style")) σ1)
    as (σ2 & Hrun2 & Hlen2 & _ & _ & _ & _ & Hother2 & Hattr2).
  destruct (set_attr_run link (str "onload")
              (AStr (str "this.onload=null;this.rel='stylesheet'")) σ2)
    as (σ3 & Hrun3 & Hlen3 & _ & _ & _ & _ & Hother3 & Hattr3).
  assert (forall j, j <> link -> σ3 !! j = σ !! j) as Hother.
  { intros j Hj. by rewrite Hother3, Hother2, Hother1. }
  assert (forall v, v <> AStr (str "preload") ->
            attr_get (str "rel") (attrs_of σ3 link) <> Some v) as Hrel.
  { intros v Hv. destruct (decide (link < length σ)) as [Hin | Hout].
    - rewrite Hattr3, Hattr2, Hattr1 by lia.
      rewrite !attr_get_set_ne by done. rewrite attr_get_set. congruence.
    - rewrite attrs_of_out by lia. done. }
  assert (foreign rs links σ3) as Hrs3.
  { intros r Hr. destruct (Hrs r Hr) as (Htag & Hlink & Hnot).
    assert (r_element r <> link) as Hne by (intros Heq; apply Hnot; rewrite Heq; left).
    destruct (same_node_same_link σ σ3 (r_element r) (Hother _ Hne)) as [-> ->].
    repeat split; [done | done |]. intros Hin. apply Hnot. by right. }
  exists σ3. split; [|split; [|done]].
  - rewrite (bind_ok _ _ _ _ _ Hrun1), (bind_ok _ _ _ _ _ Hrun2),
      (bind_ok _ _ _ _ _ Hrun3).
    apply use_local_paths_noop. intros r Hr.
    destruct (Hrs r Hr) as (Htag & Hlink & Hnot).
    assert (r_element r <> link) as Hne by (intros Heq; apply Hnot; rewrite Heq; left).
    destruct (same_node_same_link σ σ3 (r_element r) (Hother _ Hne)) as [Htag3 Hlink3].
    rewrite <- Hlink3 in Hlink. rewrite <- Htag3 in Htag.
    destruct (stylesheet_rel σ3 _ Hlink) as (v & Hv & Hvne).
    apply (tag_eq_attr_differs σ3 _ _ (str "rel") v); [done | done | done |].
    by apply Hrel.
  - by rewrite (bind_ok _ _ _ _ _ Hrun1), (bind_ok _ _ _ _ _ Hrun2),
      (bind_ok _ _ _ _ _ Hrun3).
Qed.

(** The loop of step 3 never takes a local path from the resources. *)
Lemma preload_css_links_ignores (rs : list resource) (links : list nat)
    (σ : store) :
  foreign rs links σ ->
  preload_css_links rs links σ = preload_css_links [] links σ.
Proof.
  unfold preload_css_links. revert σ.
  induction links as [|link links IH]; intros σ Hrs; [done |].
  cbn [for_each].
  destruct (preload_css_links_cons rs link links σ Hrs) as (σ' & H1 & H2 & Hrs').
  rewrite (bind_ok _ _ _ _ _ H1), (bind_ok _ _ _ _ _ H2). by apply IH.
Qed.

Lemma external_domains_without_css_paths (netloc : pystr -> pystr)
    (res : resources) :
  external_domains netloc (without_css_paths res) = external_domains netloc res.
Proof.
  unfold external_domains, without_css_paths. cbn.
  rewrite !fold_left_app. f_equal. f_equal. f_equal.
  generalize (∅ : gset pystr).
  induction (res_css res) as [|r rs IH]; intros acc; [done |]. cbn. apply IH.
Qed.

Lemma add_resource_hints_without_css_paths (netloc : pystr -> pystr)
    (head : nat) (res : resources) :
  add_resource_hints netloc head (without_css_paths res)
  = add_resource_hints netloc head res.
Proof.
  unfold add_resource_hints. by rewrite external_domains_without_css_paths.
Qed.

End CssLinks.

(** X8. The transform never points a style sheet link at its downloaded
    copy.  Step 3 sets [rel] to [preload] on the link before it compares
    the link with the elements of the style sheet resources, which are
    links of the fetched page with [rel] [stylesheet]: no comparison can
    succeed, and the page written is the one written when no style sheet
    has a local path. *)
Theorem X8_css_local_paths_unused
    (reparse : store -> nat -> list node) (repr_len : store -> nat -> nat)
    (netloc : pystr -> pystr) (σ0 : store) (dom : nat) (res : resources)
    (critical_css : option pystr) :
  (forall r, r ∈ res_css res -> css_resource_of σ0 r) ->
  _optimize_html reparse repr_len netloc dom res critical_css σ0
  = _optimize_html reparse repr_len netloc dom (without_css_paths res)
      critical_css σ0.
Proof.
  intros Hres. unfold _optimize_html.
  apply (bind_agree (frame_inv σ0) _ _ _ (le (length σ0)));
    [apply framed_copy_document | | apply frame_inv_init].
  intros optimized_dom σa Hdom Hσa.
  apply (bind_agree (frame_inv σ0) _ _ _ (le (length σ0)));
    [by apply framed_ensure_head | | done].
  intros head σb Hhead Hσb.
  apply (bind_agree (frame_inv σ0) _ _ _ (fun _ => True));
    [by apply framed_inline_critical_css | | done].
  intros [] σ1 _ Hσ1. rewrite !(bind_run get_store). cbn [get_store].
  assert (forall rs,
            (forall r, r ∈ rs -> css_resource_of σ0 r) ->
            preload_css_links rs (find_all σ1 optimized_dom is_stylesheet_link) σ1
            = preload_css_links [] (find_all σ1 optimized_dom is_stylesheet_link) σ1)
    as Hignore.
  { intros rs Hrs. apply preload_css_links_ignores. intros r Hr.
    destruct (Hrs r Hr) as (Hlt & Htag & Hlink).
    pose proof (frame_find_all σ0 σ1 optimized_dom is_stylesheet_link Hσ1 Hdom)
      as Hall.
    destruct Hσ1 as (Hun & _ & _).
    destruct (same_node_same_link σ0 σ1 (r_element r) (Hun _ Hlt)) as [-> ->].
    repeat split; [done | done |]. intros Hin.
    rewrite Forall_forall in Hall. apply Hall in Hin. lia. }
  rewrite !bind_run.
  rewrite (Hignore (res_css res) Hres).
  rewrite (Hignore (res_css (without_css_paths res))).
  - by rewrite add_resource_hints_without_css_paths.
  - intros r Hr. cbn in Hr.
    apply list_elem_of_In, in_map_iff in Hr as (r' & <- & Hr').
    change (css_resource_of σ0 r'). apply Hres. by apply list_elem_of_In.
Qed.

Lemma X8_witness :
  _optimize_html reparse_same repr_len_const netloc_none 0 linked_resources None
    linked_page
  = _optimize_html reparse_same repr_len_const netloc_none 0
      (without_css_paths linked_resources) None linked_page.
Proof.
  apply X8_css_local_paths_unused. intros r Hr.
  apply elem_of_cons in Hr as [-> | Hr]; [|by apply elem_of_nil in Hr].
  split; [cbn; lia |]. split; reflexivity.
Defined.

(** ** The resource table *)

Section ResourceTable.

Variable urljoin : pystr -> attr_value -> result pystr.
Variable url : pystr.
Variable σ : store.

Lemma elem_of_find_all (root x : nat) (f : store -> nat -> bool) :
  x ∈ find_all σ root f ->
  x < length σ /\ is_tag σ x = true /\ f σ x = true.
Proof.
  unfold find_all. intros H.
  apply list_elem_of_In, filter_In in H as [_ H].
  apply andb_true_iff in H as [Htag Hf]. split; [|done].
  unfold is_tag in Htag. destruct (σ !! x) eqn:Hx; [|done].
  by apply lookup_lt_Some in Hx.
Qed.

Lemma add_links_ok links table out :
  SiteOptimizer.add_links urljoin url σ links table = Ok out ->
  exists new,
    out = table ++ new
    /\ map r_element new
       = List.filter (fun l => has_attr σ l (str "href")) links
    /\ Forall (fun r =>
                 fresh_resource r
                 /\ exists href,
                      attr_get (str "href") (attrs_of σ (r_element r)) = Some href
                      /\ urljoin url href = Ok (r_url r)) new.
Proof.
  revert table out. induction links as [|l links IH]; intros table out;
    cbn [SiteOptimizer.add_links List.filter].
  - intros [= <-]. exists []. by rewrite app_nil_r.
  - unfold has_attr at 1.
    destruct (attr_get (str "href") (attrs_of σ l)) as [href|] eqn:Hhref; [|apply IH].
    destruct (urljoin url href) as [u|e] eqn:Hu;
      rewrite ?result_bind_ok, ?result_bind_raise; [|done].
    intros H. apply IH in H as (new & -> & Hmap & Hall).
    exists (SiteOptimizer.new_resource u l :: new).
    split; [by rewrite <- app_assoc |]. split; [cbn [map r_element SiteOptimizer.new_resource]; by rewrite Hmap |].
    constructor; [|done]. split; [done |]. by exists href.
Qed.

Lemma add_tags_ok k tags table out :
  SiteOptimizer.add_tags urljoin url σ k tags table = Ok out ->
  exists new,
    out = table ++ new
    /\ map r_element new = tags
    /\ Forall (fun r =>
                 fresh_resource r
                 /\ exists v,
                      attr_get k (attrs_of σ (r_element r)) = Some v
                      /\ urljoin url v = Ok (r_url r)) new.
Proof.
  revert table out. induction tags as [|t tags IH]; intros table out;
    cbn [SiteOptimizer.add_tags].
  - intros [= <-]. exists []. by rewrite app_nil_r.
  - unfold getitem.
    destruct (attr_get k (attrs_of σ t)) as [v|] eqn:Hv;
      rewrite ?result_bind_ok, ?result_bind_raise; [|done].
    destruct (urljoin url v) as [u|e] eqn:Hu;
      rewrite ?result_bind_ok, ?result_bind_raise; [|done].
    intros H. apply IH in H as (new & -> & Hmap & Hall).
    exists (SiteOptimizer.new_resource u t :: new).
    split; [by rewrite <- app_assoc |]. split; [cbn [map r_element SiteOptimizer.new_resource]; by rewrite Hmap |].
    constructor; [|done]. split; [done |]. by exists v.
Qed.

Lemma add_links_raise links table e :
  SiteOptimizer.add_links urljoin url σ links table = Raise e ->
  exists v, urljoin url v = Raise e.
Proof.
  revert table. induction links as [|l links IH]; intros table;
    cbn [SiteOptimizer.add_links]; [done |].
  destruct (attr_get (str "href") (attrs_of σ l)) as [href|]; [|apply IH].
  destruct (urljoin url href) as [u|e'] eqn:Hu;
    rewrite ?result_bind_ok, ?result_bind_raise; [apply IH |].
  intros [= <-]. by exists href.
Qed.

Lemma add_tags_raise k tags table e :
  Forall (fun t => has_attr σ t k = true) tags ->
  SiteOptimizer.add_tags urljoin url σ k tags table = Raise e ->
  exists v, urljoin url v = Raise e.
Proof.
  intros Htags. revert table.
  induction Htags as [|t tags Ht _ IH]; intros table;
    cbn [SiteOptimizer.add_tags]; [done |].
  unfold has_attr in Ht. unfold getitem.
  destruct (attr_get k (attrs_of σ t)) as [v|];
    rewrite ?result_bind_ok, ?result_bind_raise; [|done].
  destruct (urljoin url v) as [u|e'] eqn:Hu;
    rewrite ?result_bind_ok, ?result_bind_raise; [apply IH |].
  intros [= <-]. by exists v.
Qed.

Lemma find_all_present (root : nat) (name k : pystr) :
  Forall (fun t => has_attr σ t k = true)
    (find_all σ root (fun σ i => name_in [name] σ i && attr_present k σ i)).
Proof.
  apply Forall_forall. intros t Ht.
  apply elem_of_find_all in Ht as (_ & _ & Ht).
  by apply andb_true_iff in Ht as [_ Ht].
Qed.

End ResourceTable.

(** X9. [extract_resources] on a fetched page, from the empty table: the
    style sheet entries are the [link rel=stylesheet] tags that have an
    [href], in document order (a link without [href] is passed over), the
    script and image entries are all [script] and [img] tags with a [src],
    the font entries the [link] tags with [font] in [rel] and an [href];
    every entry holds the joined URL of its element and nothing else, and
    every style sheet entry names a style sheet link of the page.  The only
    exceptions are those of [urljoin]. *)
Theorem X9_extract_resources_table
    (urljoin : pystr -> attr_value -> result pystr) (url : pystr) (σ : store)
    (dom : nat) :
  (forall res,
     SiteOptimizer.extract_resources urljoin url σ dom no_resources = Ok res ->
     map r_element (res_css res)
     = List.filter (fun l => has_attr σ l (str "href"))
         (find_all σ dom is_stylesheet_link)
     /\ map r_element (res_js res) = find_all σ dom is_external_script
     /\ map r_element (res_images res) = find_all σ dom is_img_with_src
     /\ map r_element (res_fonts res)
        = List.filter (fun l => has_attr σ l (str "href"))
            (find_all σ dom SiteOptimizer.is_font_link)
     /\ Forall (fun r => css_resource_of σ r) (res_css res)
     /\ Forall fresh_resource
          (res_css res ++ res_js res ++ res_images res ++ res_fonts res))
  /\ (forall e,
        SiteOptimizer.extract_resources urljoin url σ dom no_resources = Raise e ->
        exists v, urljoin url v = Raise e).
Proof.
  unfold SiteOptimizer.extract_resources, no_resources. cbn [res_css res_js res_images res_fonts].
  split.
  - intros res.
    destruct (SiteOptimizer.add_links urljoin url σ
                (find_all σ dom is_stylesheet_link) []) as [css|] eqn:Hcss; [|done].
    destruct (SiteOptimizer.add_tags urljoin url σ (str "src")
                (find_all σ dom is_external_script) []) as [js|] eqn:Hjs; [|done].
    destruct (SiteOptimizer.add_tags urljoin url σ (str "src")
                (find_all σ dom is_img_with_src) []) as [images|] eqn:Himages; [|done].
    destruct (SiteOptimizer.add_links urljoin url σ
                (find_all σ dom SiteOptimizer.is_font_link) []) as [fonts|] eqn:Hfonts;
      [|done].
    cbn. intros [= <-]. cbn [res_css res_js res_images res_fonts].
    apply add_links_ok in Hcss as (css' & -> & Hcss & Hcssall).
    apply add_tags_ok in Hjs as (js' & -> & Hjs & Hjsall).
    apply add_tags_ok in Himages as (images' & -> & Himages & Himagesall).
    apply add_links_ok in Hfonts as (fonts' & -> & Hfonts & Hfontsall).
    cbn [app]. repeat split; try done.
    + apply Forall_forall. intros r Hr.
      assert (r_element r ∈ map r_element css') as Hin.
      { by apply list_elem_of_In, in_map, list_elem_of_In. }
      rewrite Hcss in Hin. apply list_elem_of_In, filter_In in Hin as [Hin _].
      apply list_elem_of_In, elem_of_find_all in Hin. exact Hin.
    + rewrite !Forall_app. repeat split;
        (eapply Forall_impl; [eassumption |]); by intros r [Hr _].
  - intros e.
    destruct (SiteOptimizer.add_links urljoin url σ
                (find_all σ dom is_stylesheet_link) []) as [css|e1] eqn:Hcss;
      rewrite ?result_bind_ok, ?result_bind_raise.
    2: { intros [= <-]. by eapply add_links_raise. }
    destruct (SiteOptimizer.add_tags urljoin url σ (str "src")
                (find_all σ dom is_external_script) []) as [js|e2] eqn:Hjs;
      rewrite ?result_bind_ok, ?result_bind_raise.
    2: { intros [= <-]. eapply add_tags_raise; [|exact Hjs]. apply find_all_present. }
    destruct (SiteOptimizer.add_tags urljoin url σ (str "src")
                (find_all σ dom is_img_with_src) []) as [images|e3] eqn:Himages;
      rewrite ?result_bind_ok, ?result_bind_raise.
    2: { intros [= <-]. eapply add_tags_raise; [|exact Himages]. apply find_all_present. }
    destruct (SiteOptimizer.add_links urljoin url σ
                (find_all σ dom SiteOptimizer.is_font_link) []) as [fonts|e4] eqn:Hfonts;
      rewrite ?result_bind_ok, ?result_bind_raise; [done |].
    intros [= <-]. by eapply add_links_raise.
Qed.

Lemma X9_witness :
  map r_element [SiteOptimizer.new_resource (str "a.css") 3]
  = List.filter (fun l => has_attr linked_page l (str "href"))
      (find_all linked_page 0 is_stylesheet_link)
  /\ Forall (fun r => css_resource_of linked_page r)
       [SiteOptimizer.new_resource (str "a.css") 3].
Proof.
  destruct (proj1 (X9_extract_resources_table urljoin_ref [] linked_page 0)
              (mkResources [SiteOptimizer.new_resource (str "a.css") 3] [] [] [])
              ltac:(vm_compute; reflexivity))
    as (Hcss & _ & _ & _ & Hall & _).
  split; [exact Hcss | exact Hall].
Defined.

(** ** Steps that only write attributes *)

Section AttrSteps.

Lemma same_tree_refl (σ : store) : same_tree σ σ.
Proof. by split. Qed.

Lemma same_tree_trans (σ1 σ2 σ3 : store) :
  same_tree σ1 σ2 -> same_tree σ2 σ3 -> same_tree σ1 σ3.
Proof.
  intros [Hl1 H1] [Hl2 H2]. split; [congruence |]. intros j.
  destruct (H1 j) as (? & ? & ? & ?), (H2 j) as (? & ? & ? & ?).
  repeat split; congruence.
Qed.

Lemma has_attr_get (σ : store) (j : nat) (k : pystr) :
  has_attr σ j k = true <-> is_Some (get_attr σ j k).
Proof.
  unfold has_attr, get_attr. destruct (attr_get k (attrs_of σ j)).
  - split; [by eexists | done].
  - split; [done | by intros [? ?]].
Qed.

(** What one attribute assignment changes. *)
Lemma set_attr_effect (i : nat) (k : pystr) (v : attr_value) (σ : store) :
  exists σ',
    set_attr i k v σ = (Ok tt, σ')
    /\ same_tree σ σ'
    /\ (forall j, j <> i -> attrs_of σ' j = attrs_of σ j)
    /\ (forall j k', k' <> k -> get_attr σ' j k' = get_attr σ j k')
    /\ (forall j k', has_attr σ j k' = true -> has_attr σ' j k' = true)
    /\ (i < length σ -> get_attr σ' i k = Some v).
Proof.
  destruct (set_attr_run i k v σ)
    as (σ' & Hrun & Hlen & Hname & Htag & Hcs & Hp & Hother & Hattr).
  assert (forall j k', k' <> k -> get_attr σ' j k' = get_attr σ j k') as Hget.
  { intros j k' Hk. unfold get_attr. destruct (decide (j = i)) as [-> | Hj].
    - destruct (decide (i < length σ)) as [Hin | Hout].
      + rewrite Hattr by done. by apply attr_get_set_ne.
      + by rewrite !attrs_of_out by lia.
    - by rewrite (attrs_of_eq _ _ _ (Hother j Hj)). }
  exists σ'. split; [done |]. split; [by split |].
  split; [intros j Hj; by apply attrs_of_eq, Hother |].
  split; [done |]. split.
  - intros j k' Hk'. destruct (decide (k' = k)) as [-> | Hne].
    + destruct (decide (j = i)) as [-> | Hj].
      * destruct (decide (i < length σ)) as [Hin | Hout].
        -- unfold has_attr. rewrite Hattr by done. by rewrite attr_get_set.
        -- unfold has_attr in Hk'. by rewrite attrs_of_out in Hk' by lia.
      * unfold has_attr. by rewrite (attrs_of_eq _ _ _ (Hother j Hj)).
    + apply has_attr_get. rewrite Hget by done. by apply has_attr_get.
  - intros Hin. unfold get_attr. rewrite Hattr by done. apply attr_get_set.
Qed.

(** The loop over the resources writes at most the attribute [k] of
    [tag]. *)
Lemma use_local_paths_effect (rs : list resource) (tag : nat) (k : pystr)
    (σ : store) :
  exists σ',
    use_local_paths rs tag k σ = (Ok tt, σ')
    /\ same_tree σ σ'
    /\ (forall j, j <> tag -> attrs_of σ' j = attrs_of σ j)
    /\ (forall j k', k' <> k -> get_attr σ' j k' = get_attr σ j k')
    /\ (forall j k', has_attr σ j k' = true -> has_attr σ' j k' = true).
Proof.
  unfold use_local_paths. revert σ.
  induction rs as [|r rs IH]; intros σ; cbn [for_each].
  - exists σ. split; [done |]. split; [apply same_tree_refl |]. by repeat split.
  - rewrite !bind_run. cbn [get_store].
    assert (exists σ1,
              match r_local_path r with
              | Some local_path =>
                  when (tag_eq σ (r_element r) tag) (set_attr tag k (AStr local_path))
              | None => mret ()
              end σ = (Ok tt, σ1)
              /\ same_tree σ σ1
              /\ (forall j, j <> tag -> attrs_of σ1 j = attrs_of σ j)
              /\ (forall j k', k' <> k -> get_attr σ1 j k' = get_attr σ j k')
              /\ (forall j k', has_attr σ j k' = true -> has_attr σ1 j k' = true))
      as (σ1 & -> & Ht1 & Ho1 & Hg1 & Hh1).
    { destruct (r_local_path r) as [local_path|].
      - destruct (tag_eq σ (r_element r) tag); cbn [when].
        + destruct (set_attr_effect tag k (AStr local_path) σ)
            as (σ1 & ? & ? & ? & ? & ? & _). by exists σ1.
        + exists σ. split; [done |]. split; [apply same_tree_refl |]. by repeat split.
      - exists σ. split; [done |]. split; [apply same_tree_refl |]. by repeat split. }
    destruct (IH σ1) as (σ' & -> & Ht & Ho & Hg & Hh).
    exists σ'. split; [done |]. split; [by eapply same_tree_trans |].
    split; [intros j Hj; by rewrite Ho, Ho1 |].
    split; [intros j k' Hk; by rewrite Hg, Hg1 |].
    intros j k' Hk'. by apply Hh, Hh1.
Qed.

End AttrSteps.

(** ** Step 5: the scripts *)

Section DeferScripts.

(** What a run of the script loop over [scripts] may change. *)
Local Abbreviation script_step scripts σ σ' :=
  (same_tree σ σ'
   /\ (forall j, j ∉ scripts -> attrs_of σ' j = attrs_of σ j)
   /\ (forall j k, k <> str "src" -> k <> str "defer" ->
         get_attr σ' j k = get_attr σ j k)
   /\ (forall j, has_attr σ j (str "async") = true ->
         get_attr σ' j (str "defer") = get_attr σ j (str "defer"))
   /\ (forall j k, has_attr σ j k = true -> has_attr σ' j k = true)).

Lemma defer_script_body (rs : list resource) (script : nat) (σ : store) :
  script < length σ ->
  exists σ',
    (σ ← get_store;
     when (negb (has_attr σ script (str "async")))
          (set_attr script (str "defer") (AStr [])) ;;
     use_local_paths rs script (str "src")) σ = (Ok tt, σ')
    /\ script_step [script] σ σ'
    /\ has_attr σ' script (str "async") || has_attr σ' script (str "defer") = true.
Proof.
  intros Hin. rewrite bind_run. cbn [get_store]. rewrite bind_run.
  destruct (has_attr σ script (str "async")) eqn:Hasync; cbn [negb when].
  - change ((mret () : M unit) σ) with (Ok (), σ). cbv beta iota.
    destruct (use_local_paths_effect rs script (str "src") σ)
      as (σ' & -> & Ht & Ho & Hg & Hh).
    exists σ'. split; [done |]. split.
    + split; [done |]. split.
      { intros j Hj. apply Ho. intros ->. apply Hj. left. }
      split; [intros j k Hk _; by apply Hg |].
      split; [intros j _; by apply Hg |]. done.
    + by rewrite (Hh _ _ Hasync).
  - destruct (set_attr_effect script (str "defer") (AStr []) σ)
      as (σ1 & -> & Ht1 & Ho1 & Hg1 & Hh1 & Hset).
    cbv beta iota.
    destruct (use_local_paths_effect rs script (str "src") σ1)
      as (σ' & -> & Ht & Ho & Hg & Hh).
    exists σ'. split; [done |]. split.
    + split; [by eapply same_tree_trans |]. split.
      { intros j Hj. assert (j <> script) by (intros ->; apply Hj; left).
        by rewrite Ho, Ho1. }
      split; [intros j k Hk Hk'; by rewrite Hg, Hg1 |]. split.
      * intros j Hj. destruct (decide (j = script)) as [-> | Hne]; [congruence |].
        unfold get_attr. by rewrite Ho, Ho1.
      * intros j k Hk. by apply Hh, Hh1.
    + apply orb_true_iff. right. apply Hh, has_attr_get.
      rewrite Hset by done. by eexists.
Qed.

Lemma defer_scripts_run (rs : list resource) (scripts : list nat) (σ : store) :
  Forall (fun s => s < length σ) scripts ->
  exists σ',
    defer_scripts rs scripts σ = (Ok tt, σ')
    /\ script_step scripts σ σ'
    /\ forall s, s ∈ scripts ->
         has_attr σ' s (str "async") || has_attr σ' s (str "defer") = true.
Proof.
  unfold defer_scripts. revert σ.
  induction scripts as [|x scripts IH]; intros σ Hall; cbn [for_each].
  - exists σ. split; [done |]. split.
    + split; [apply same_tree_refl |]. by repeat split.
    + intros s Hs. by apply elem_of_nil in Hs.
  - apply Forall_cons in Hall as [Hx Hall].
    destruct (defer_script_body rs x σ Hx)
      as (σ1 & Hrun1 & (Ht1 & Ho1 & Hg1 & Ha1 & Hh1) & Hdone).
    rewrite (bind_ok _ _ _ _ _ Hrun1).
    destruct (IH σ1) as (σ' & -> & (Ht & Ho & Hg & Ha & Hh) & Hrest).
    { destruct Ht1 as [Hlen _]. by rewrite Hlen. }
    exists σ'. split; [done |]. split.
    + split; [by eapply same_tree_trans |]. split.
      { intros j Hj. rewrite Ho, Ho1; [done | |].
        - intros Hin. apply Hj. apply elem_of_cons in Hin as [-> | Hin]; [left |].
          by apply elem_of_nil in Hin.
        - intros Hin. apply Hj. by right. }
      split; [intros j k Hk Hk'; by rewrite Hg, Hg1 |]. split.
      * intros j Hj. rewrite Ha, Ha1; [done | done |]. by apply Hh1.
      * intros j k Hk. by apply Hh, Hh1.
    + intros s Hs. apply elem_of_cons in Hs as [-> | Hs]; [|by apply Hrest].
      apply orb_true_iff in Hdone as [Hd | Hd];
        apply orb_true_iff; [left | right]; by apply Hh.
Qed.

End DeferScripts.

(** X10. Step 5 of the transform never raises; afterwards every script of
    the loop has [async] or [defer]; a script that had [async] keeps the
    [defer] it had (none, if it had none); the loop leaves the tree as it
    is and writes nothing but [defer] and [src], and only on the scripts of
    the loop. *)
Theorem X10_scripts_deferred (rs : list resource) (scripts : list nat)
    (σ : store) :
  Forall (fun s => s < length σ) scripts ->
  exists σ',
    defer_scripts rs scripts σ = (Ok tt, σ')
    /\ (forall s, s ∈ scripts ->
          has_attr σ' s (str "async") || has_attr σ' s (str "defer") = true)
    /\ (forall s, has_attr σ s (str "async") = true ->
          get_attr σ' s (str "defer") = get_attr σ s (str "defer"))
    /\ same_tree σ σ'
    /\ (forall j, j ∉ scripts -> attrs_of σ' j = attrs_of σ j)
    /\ (forall j k, k <> str "src" -> k <> str "defer" ->
          get_attr σ' j k = get_attr σ j k).
Proof.
  intros Hall.
  destruct (defer_scripts_run rs scripts σ Hall)
    as (σ' & Hrun & (Ht & Ho & Hg & Ha & _) & Hdone).
  exists σ'. exact (conj Hrun (conj Hdone (conj Ha (conj Ht (conj Ho Hg))))).
Qed.

Lemma X10_witness :
  exists σ',
    defer_scripts [] [1; 2] script_page = (Ok tt, σ')
    /\ (forall s, s ∈ [1; 2] ->
          has_attr σ' s (str "async") || has_attr σ' s (str "defer") = true)
    /\ (forall s, has_attr script_page s (str "async") = true ->
          get_attr σ' s (str "defer") = get_attr script_page s (str "defer"))
    /\ same_tree script_page σ'
    /\ (forall j, j ∉ [1; 2] -> attrs_of σ' j = attrs_of script_page j)
    /\ (forall j k, k <> str "src" -> k <> str "defer" ->
          get_attr σ' j k = get_attr script_page j k).
Proof.
  apply X10_scripts_deferred. repeat constructor; cbn; lia.
Defined.

(** ** Lazy loading of the other images *)

Section LazyLoad.

Variable lcp_candidate : option nat.

Local Abbreviation lazy := (AStr (str "lazy")).

(** What a run of the loop over [images] may change. *)
Local Abbreviation lazy_step images σ σ' :=
  (same_tree σ σ'
   /\ (forall j, j ∉ images -> attrs_of σ' j = attrs_of σ j)
   /\ (forall j k, k <> str "loading" -> get_attr σ' j k = get_attr σ j k)
   /\ (forall j, get_attr σ j (str "loading") = Some lazy ->
         get_attr σ' j (str "loading") = Some lazy)
   /\ (forall c, lcp_candidate = Some c -> attrs_of σ' c = attrs_of σ c)).

Lemma tag_eq_refl (σ : store) (i : nat) : tag_eq σ i i = true.
Proof. unfold tag_eq. cbn [node_eqb]. by rewrite Nat.eqb_refl. Qed.

Lemma lazy_step_refl (images : list nat) (σ : store) : lazy_step images σ σ.
Proof. split; [apply same_tree_refl |]. by repeat split. Qed.

Lemma lazy_load_body (img : nat) (σ : store) :
  img < length σ ->
  exists σ',
    (σ ← get_store;
     let same := match lcp_candidate with
                 | Some lcp => tag_eq σ img lcp
                 | None => false
                 end in
     when (negb same) (set_attr img (str "loading") lazy)) σ = (Ok tt, σ')
    /\ lazy_step [img] σ σ'
    /\ (get_attr σ' img (str "loading") = Some lazy \/ σ' = σ)
    /\ (lcp_candidate = None -> get_attr σ' img (str "loading") = Some lazy).
Proof.
  intros Hin. rewrite bind_run. cbn [get_store]. cbv zeta.
  destruct (match lcp_candidate with
            | Some lcp => tag_eq σ img lcp
            | None => false
            end) eqn:Hsame; cbn [negb when].
  - exists σ. split; [done |]. split; [apply lazy_step_refl |].
    split; [by right |]. intros ->. done.
  - destruct (set_attr_effect img (str "loading") lazy σ)
      as (σ' & Hrun & Ht & Ho & Hg & Hh & Hset).
    exists σ'. split; [done |]. split; [|split; [left; by apply Hset | intros _; by apply Hset]].
    split; [done |]. split.
    { intros j Hj. apply Ho. intros ->. apply Hj. left. }
    split; [done |]. split.
    + intros j Hj. destruct (decide (j = img)) as [-> | Hne]; [by apply Hset |].
      unfold get_attr. by rewrite Ho.
    + intros c ->. apply Ho. intros ->. by rewrite tag_eq_refl in Hsame.
Qed.

Lemma lazy_load_run (images : list nat) (σ : store) :
  Forall (fun i => i < length σ) images ->
  exists σ',
    lazy_load_others images lcp_candidate σ = (Ok tt, σ')
    /\ lazy_step images σ σ'
    /\ (forall img, img ∈ images ->
          get_attr σ' img (str "loading") = Some lazy
          \/ attrs_of σ' img = attrs_of σ img)
    /\ (lcp_candidate = None ->
        forall img, img ∈ images -> get_attr σ' img (str "loading") = Some lazy).
Proof.
  unfold lazy_load_others. revert σ.
  induction images as [|x images IH]; intros σ Hall; cbn [for_each].
  - exists σ. split; [done |]. split; [apply lazy_step_refl |].
    split; intros; by match goal with H : _ ∈ [] |- _ => apply elem_of_nil in H end.
  - apply Forall_cons in Hall as [Hx Hall].
    destruct (lazy_load_body x σ Hx)
      as (σ1 & Hrun1 & (Ht1 & Ho1 & Hg1 & Hl1 & Hc1) & Hx1 & Hnone1).
    rewrite (bind_ok _ _ _ _ _ Hrun1).
    destruct (IH σ1) as (σ' & -> & (Ht & Ho & Hg & Hl & Hc) & Hrest & Hnone).
    { destruct Ht1 as [Hlen _]. by rewrite Hlen. }
    assert (forall j, j <> x -> attrs_of σ1 j = attrs_of σ j) as Ho1'.
    { intros j Hj. apply Ho1. intros Hin.
      apply elem_of_cons in Hin as [-> | Hin]; [done | by apply elem_of_nil in Hin]. }
    exists σ'. split; [done |]. split; [|split].
    + split; [by eapply same_tree_trans |]. split.
      { intros j Hj. rewrite Ho, Ho1'; [done | |].
        - intros ->. apply Hj. left.
        - intros Hin. apply Hj. by right. }
      split; [intros j k Hk; by rewrite Hg, Hg1 |].
      split; [intros j Hj; by apply Hl, Hl1 |].
      intros c Hcand. by rewrite (Hc c Hcand), (Hc1 c Hcand).
    + intros img Himg.
      assert (get_attr σ' x (str "loading") = Some lazy
              \/ attrs_of σ' x = attrs_of σ x) as Hxfinal.
      { destruct Hx1 as [Hset | ->].
        - left. by apply Hl.
        - destruct (decide (x ∈ images)) as [Hin | Hnot].
          + by apply Hrest.
          + right. by apply Ho. }
      destruct (decide (img = x)) as [-> | Hne]; [done |].
      apply elem_of_cons in Himg as [-> | Himg]; [done |].
      destruct (Hrest img Himg) as [Hlazy | Hsame]; [by left |].
      right. by rewrite Hsame, Ho1'.
    + intros Hcand img Himg. apply elem_of_cons in Himg as [-> | Himg].
      * by apply Hl, Hnone1.
      * by apply Hnone.
Qed.

End LazyLoad.

(** X11. The loop that marks the other images lazy never raises.  It
    leaves the tree as it is and writes nothing but [loading], and only on
    the images of the loop; an image of the loop ends with [loading=lazy]
    or untouched; the LCP candidate is untouched; without a candidate every
    image of the loop ends with [loading=lazy]. *)
Theorem X11_lazy_loading (images : list nat) (lcp_candidate : option nat)
    (σ : store) :
  Forall (fun i => i < length σ) images ->
  exists σ',
    lazy_load_others images lcp_candidate σ = (Ok tt, σ')
    /\ same_tree σ σ'
    /\ (forall j, j ∉ images -> attrs_of σ' j = attrs_of σ j)
    /\ (forall j k, k <> str "loading" -> get_attr σ' j k = get_attr σ j k)
    /\ (forall img, img ∈ images ->
          get_attr σ' img (str "loading") = Some (AStr (str "lazy"))
          \/ attrs_of σ' img = attrs_of σ img)
    /\ (forall c, lcp_candidate = Some c -> attrs_of σ' c = attrs_of σ c)
    /\ (lcp_candidate = None ->
        forall img, img ∈ images ->
          get_attr σ' img (str "loading") = Some (AStr (str "lazy"))).
Proof.
  intros Hall.
  destruct (lazy_load_run lcp_candidate images σ Hall)
    as (σ' & Hrun & (Ht & Ho & Hg & _ & Hc) & Hrest & Hnone).
  exists σ'.
  exact (conj Hrun (conj Ht (conj Ho (conj Hg (conj Hrest (conj Hc Hnone)))))).
Qed.

Lemma X11_witness :
  exists σ',
    lazy_load_others [4; 5] (Some 4) two_image_page = (Ok tt, σ')
    /\ same_tree two_image_page σ'
    /\ (forall j, j ∉ [4; 5] -> attrs_of σ' j = attrs_of two_image_page j)
    /\ (forall j k, k <> str "loading" ->
          get_attr σ' j k = get_attr two_image_page j k)
    /\ (forall img, img ∈ [4; 5] ->
          get_attr σ' img (str "loading") = Some (AStr (str "lazy"))
          \/ attrs_of σ' img = attrs_of two_image_page img)
    /\ (forall c, Some 4 = Some c -> attrs_of σ' c = attrs_of two_image_page c)
    /\ (Some 4 = None ->
        forall img, img ∈ [4; 5] ->
          get_attr σ' img (str "loading") = Some (AStr (str "lazy"))).
Proof.
  apply X11_lazy_loading. repeat constructor; cbn; lia.
Defined.

(** ** The effect of tree surgery *)

Section TreeSurgery.

Lemma same_labels_refl (σ : store) : same_labels σ σ.
Proof. by split. Qed.

Lemma same_labels_trans (σ1 σ2 σ3 : store) :
  same_labels σ1 σ2 -> same_labels σ2 σ3 -> same_labels σ1 σ3.
Proof.
  intros [Hl1 H1] [Hl2 H2]. split; [congruence |]. intros j.
  destruct (H1 j) as (? & ? & ?), (H2 j) as (? & ? & ?).
  repeat split; congruence.
Qed.

Lemma contents_of_lt (σ : store) (p : nat) :
  contents_of σ p <> [] -> p < length σ.
Proof.
  unfold contents_of. destruct (σ !! p) eqn:Hp; [|done].
  intros _. by apply lookup_lt_Some in Hp.
Qed.

Lemma parent_of_lt (σ : store) (i p : nat) :
  parent_of σ i = Some p -> i < length σ.
Proof.
  unfold parent_of. destruct (σ !! i) eqn:Hi; [|done].
  intros _. by apply lookup_lt_Some in Hi.
Qed.

(** [tag.contents = cs] *)
Lemma set_contents_effect (p : nat) (cs : list nat) (σ : store) :
  exists σ',
    set_contents p cs σ = (Ok tt, σ')
    /\ same_labels σ σ'
    /\ (p < length σ -> contents_of σ' p = cs)
    /\ (forall j, j <> p -> contents_of σ' j = contents_of σ j)
    /\ (forall j, parent_of σ' j = parent_of σ j).
Proof.
  eexists. split; [reflexivity |]. split; [|split; [|split]].
  - split; [apply length_alter |]. intros j.
    split; [by apply name_of_alter |].
    split; [by apply is_tag_alter | by apply attrs_of_alter].
  - intros Hp. unfold contents_of. rewrite list_lookup_alter_eq.
    apply lookup_lt_is_Some in Hp as [nd ->]. done.
  - intros j Hj. by apply contents_of_alter_ne.
  - intros j. by apply parent_of_alter.
Qed.

(** [tag.parent = q] *)
Lemma set_parent_effect (i : nat) (q : option nat) (σ : store) :
  exists σ',
    set_parent i q σ = (Ok tt, σ')
    /\ same_labels σ σ'
    /\ (i < length σ -> parent_of σ' i = q)
    /\ (forall j, j <> i -> parent_of σ' j = parent_of σ j)
    /\ (forall j, contents_of σ' j = contents_of σ j).
Proof.
  eexists. split; [reflexivity |]. split; [|split; [|split]].
  - split; [apply length_alter |]. intros j.
    split; [by apply name_of_alter |].
    split; [by apply is_tag_alter | by apply attrs_of_alter].
  - intros Hi. unfold parent_of. rewrite list_lookup_alter_eq.
    apply lookup_lt_is_Some in Hi as [nd ->]. done.
  - intros j Hj. by apply parent_of_alter_ne.
  - intros j. by apply contents_of_alter.
Qed.

(** Extracting a node that is in no tree does nothing. *)
Lemma extract_detached (i : nat) (σ : store) :
  parent_of σ i = None -> extract i σ = (Ok tt, σ).
Proof.
  intros Hp. unfold extract. rewrite bind_run. cbn [get_store]. by rewrite Hp.
Qed.

(** Extracting a child: it leaves the contents of its parent and has no
    parent afterwards. *)
Lemma extract_effect (i p ix : nat) (σ : store) :
  parent_of σ i = Some p ->
  index_of i (contents_of σ p) = Some ix ->
  exists σ',
    extract i σ = (Ok tt, σ')
    /\ same_labels σ σ'
    /\ contents_of σ' p
       = take ix (contents_of σ p) ++ drop (S ix) (contents_of σ p)
    /\ (forall j, j <> p -> contents_of σ' j = contents_of σ j)
    /\ parent_of σ' i = None
    /\ (forall j, j <> i -> parent_of σ' j = parent_of σ j).
Proof.
  intros Hp Hix. unfold extract. rewrite bind_run. cbn [get_store].
  rewrite Hp, Hix.
  assert (p < length σ) as Hplt.
  { apply contents_of_lt. by destruct (contents_of σ p). }
  pose proof (parent_of_lt _ _ _ Hp) as Hilt.
  destruct (set_contents_effect p
              (take ix (contents_of σ p) ++ drop (S ix) (contents_of σ p)) σ)
    as (σ1 & Hrun1 & Hl1 & Hc1 & Hco1 & Hp1).
  destruct (set_parent_effect i None σ1)
    as (σ2 & Hrun2 & Hl2 & Hp2 & Hpo2 & Hc2).
  rewrite (bind_ok _ _ _ _ _ Hrun1), Hrun2.
  exists σ2. split; [done |]. split; [by eapply same_labels_trans |].
  split; [by rewrite Hc2, Hc1 |].
  split; [intros j Hj; by rewrite Hc2, Hco1 |].
  split; [apply Hp2; destruct Hl1 as [-> _]; done |].
  intros j Hj. by rewrite Hpo2, Hp1.
Qed.

(** Inserting a node that is in no tree. *)
Lemma insert_effect (p position c : nat) (σ : store) :
  detached σ c -> c <> p -> p < length σ ->
  exists σ',
    insert p position c σ = (Ok tt, σ')
    /\ same_labels σ σ'
    /\ contents_of σ' p
       = take position (contents_of σ p) ++ c :: drop position (contents_of σ p)
    /\ (forall j, j <> p -> contents_of σ' j = contents_of σ j)
    /\ parent_of σ' c = Some p
    /\ (forall j, j <> c -> parent_of σ' j = parent_of σ j).
Proof.
  intros [Hclt Hc] Hne Hplt. unfold insert.
  apply Nat.eqb_neq in Hne as Hneb. rewrite Hneb.
  rewrite bind_run. cbn [get_store]. rewrite Hc.
  rewrite (bind_ok _ _ _ _ _ (extract_detached c σ Hc)).
  destruct (set_parent_effect c (Some p) σ)
    as (σ1 & Hrun1 & Hl1 & Hp1 & Hpo1 & Hc1).
  rewrite (bind_ok _ _ _ _ _ Hrun1). rewrite bind_run. cbn [get_store].
  destruct (set_contents_effect p
              (take (position `min` length (contents_of σ p)) (contents_of σ1 p)
               ++ c :: drop (position `min` length (contents_of σ p))
                         (contents_of σ1 p)) σ1)
    as (σ2 & Hrun2 & Hl2 & Hc2 & Hco2 & Hp2).
  rewrite Hrun2. exists σ2. split; [done |].
  split; [by eapply same_labels_trans |]. split.
  - rewrite Hc2 by (destruct Hl1 as [-> _]; done). rewrite Hc1.
    destruct (decide (position <= length (contents_of σ p))) as [Hle | Hgt].
    + by rewrite Nat.min_l by done.
    + rewrite Nat.min_r by lia.
      by rewrite !firstn_all, !drop_all, !take_ge, !drop_ge by lia.
  - split; [intros j Hj; by rewrite Hco2, Hc1 |].
    split; [rewrite Hp2; by apply Hp1 |].
    intros j Hj. by rewrite Hp2, Hpo1.
Qed.

(** Appending a node that is in no tree. *)
Lemma append_effect (p c : nat) (σ : store) :
  detached σ c -> c <> p -> p < length σ ->
  exists σ',
    append p c σ = (Ok tt, σ')
    /\ same_labels σ σ'
    /\ contents_of σ' p = contents_of σ p ++ [c]
    /\ (forall j, j <> p -> contents_of σ' j = contents_of σ j)
    /\ parent_of σ' c = Some p
    /\ (forall j, j <> c -> parent_of σ' j = parent_of σ j).
Proof.
  intros Hc Hne Hplt. unfold append. rewrite bind_run. cbn [get_store].
  destruct (insert_effect p (length (contents_of σ p)) c σ Hc Hne Hplt)
    as (σ' & Hrun & Hl & Hcs & Hco & Hp & Hpo).
  exists σ'. split; [done |]. split; [done |].
  split; [by rewrite Hcs, firstn_all, drop_all |]. done.
Qed.

(** A new tag: the next object, in no tree, without attributes or
    contents. *)
Lemma new_tag_effect (name : pystr) (σ : store) :
  exists σ',
    new_tag name σ = (Ok (length σ), σ')
    /\ length σ' = S (length σ)
    /\ (forall j, j < length σ -> σ' !! j = σ !! j)
    /\ σ' !! length σ = Some (new_node name).
Proof.
  eexists. split; [reflexivity |]. split; [rewrite length_app; cbn; lia |].
  split.
  - intros j Hj. by apply lookup_app_l.
  - rewrite lookup_app_r by lia. by rewrite Nat.sub_diag.
Qed.

Lemma observe_eq (σ σ' : store) (j : nat) :
  σ' !! j = σ !! j ->
  name_of σ' j = name_of σ j /\ is_tag σ' j = is_tag σ j
  /\ attrs_of σ' j = attrs_of σ j /\ contents_of σ' j = contents_of σ j
  /\ parent_of σ' j = parent_of σ j.
Proof.
  intros H. unfold name_of, is_tag, attrs_of, contents_of, parent_of.
  by rewrite H.
Qed.

Lemma observe_new (σ : store) (j : nat) (name : pystr) :
  σ !! j = Some (new_node name) ->
  name_of σ j = name /\ is_tag σ j = true /\ attrs_of σ j = []
  /\ contents_of σ j = [] /\ parent_of σ j = None.
Proof.
  intros H. unfold name_of, is_tag, attrs_of, contents_of, parent_of.
  by rewrite H.
Qed.

End TreeSurgery.

(** ** The picture wrapper *)

Section Picture.

Lemma index_of_app (i : nat) (pre post : list nat) :
  i ∉ pre -> index_of i (pre ++ i :: post) = Some (length pre).
Proof.
  induction pre as [|x pre IH]; intros Hi; cbn [app index_of length].
  - by rewrite Nat.eqb_refl.
  - assert (x <> i) as Hx by (intros ->; apply Hi; left).
    apply Nat.eqb_neq in Hx as ->. rewrite IH; [done |].
    intros Hin. apply Hi. by right.
Qed.

Lemma take_drop_middle_out (i : nat) (pre post : list nat) :
  take (length pre) (pre ++ i :: post) ++ drop (S (length pre)) (pre ++ i :: post)
  = pre ++ post.
Proof.
  rewrite take_app_length.
  change (pre ++ i :: post) with (pre ++ [i] ++ post).
  rewrite app_assoc, drop_app_length'; [done |].
  rewrite length_app. cbn. lia.
Qed.

End Picture.

(** X12. The picture wrapper, for an image that is a child of [p]: the
    image is taken out of the contents of [p], a new [picture] holding a
    new [source] (with the WebP path and type) and the image is appended
    to [p], after the siblings that followed the image: the image moves to
    the end of its parent.  Nothing else changes in the document. *)
Theorem X12_picture_appended_last (img p : nat) (webp_path : pystr)
    (pre post : list nat) (σ : store) :
  parent_of σ img = Some p ->
  contents_of σ p = pre ++ img :: post ->
  img ∉ pre ->
  exists σ',
    wrap_in_picture img webp_path σ = (Ok tt, σ')
    /\ length σ' = S (S (length σ))
    /\ contents_of σ' p = pre ++ post ++ [length σ]
    /\ contents_of σ' (length σ) = [S (length σ); img]
    /\ parent_of σ' img = Some (length σ)
    /\ parent_of σ' (length σ) = Some p
    /\ parent_of σ' (S (length σ)) = Some (length σ)
    /\ name_of σ' (length σ) = str "picture"
    /\ name_of σ' (S (length σ)) = str "source"
    /\ get_attr σ' (S (length σ)) (str "srcset") = Some (AStr webp_path)
    /\ get_attr σ' (S (length σ)) (str "type") = Some (AStr (str "image/webp"))
    /\ (forall j, j < length σ ->
          name_of σ' j = name_of σ j /\ is_tag σ' j = is_tag σ j
          /\ attrs_of σ' j = attrs_of σ j)
    /\ (forall j, j < length σ -> j <> p -> contents_of σ' j = contents_of σ j)
    /\ (forall j, j < length σ -> j <> img -> parent_of σ' j = parent_of σ j).
Proof.
  intros Hparent Hcontents Hpre.
  pose proof (parent_of_lt _ _ _ Hparent) as Himg.
  assert (p < length σ) as Hp.
  { apply contents_of_lt. rewrite Hcontents. by destruct pre. }
  set (n := length σ) in *.
  unfold wrap_in_picture.
  (* the two new tags *)
  destruct (new_tag_effect (str "picture") σ) as (σ1 & Hrun1 & Hlen1 & Hold1 & Hnew1).
  fold n in Hrun1, Hlen1, Hold1, Hnew1.
  rewrite (bind_ok _ _ _ _ _ Hrun1).
  destruct (new_tag_effect (str "source") σ1) as (σ2 & Hrun2 & Hlen2 & Hold2 & Hnew2).
  rewrite Hlen1 in Hrun2, Hlen2, Hold2, Hnew2.
  rewrite (bind_ok _ _ _ _ _ Hrun2).
  assert (forall j, j < n -> σ2 !! j = σ !! j) as Hold.
  { intros j Hj. rewrite Hold2 by lia. by apply Hold1. }
  assert (σ2 !! n = Some (new_node (str "picture"))) as Hpic.
  { rewrite Hold2 by lia. done. }
  destruct (observe_new _ _ _ Hpic) as (Hpic_name & Hpic_tag & Hpic_attrs & Hpic_cs & Hpic_par).
  destruct (observe_new _ _ _ Hnew2) as (Hsrc_name & Hsrc_tag & Hsrc_attrs & Hsrc_cs & Hsrc_par).
  (* the attributes of the source *)
  destruct (set_attr_effect (S n) (str "srcset") (AStr webp_path) σ2)
    as (σ3 & Hrun3 & [Hlen3 Ht3] & Ho3 & Hg3 & _ & Hset3).
  rewrite (bind_ok _ _ _ _ _ Hrun3).
  destruct (set_attr_effect (S n) (str "type") (AStr (str "image/webp")) σ3)
    as (σ4 & Hrun4 & [Hlen4 Ht4] & Ho4 & Hg4 & _ & Hset4).
  rewrite (bind_ok _ _ _ _ _ Hrun4).
  rewrite bind_run. cbn [get_store]. cbv zeta.
  assert (forall j, name_of σ4 j = name_of σ2 j /\ is_tag σ4 j = is_tag σ2 j
                    /\ contents_of σ4 j = contents_of σ2 j
                    /\ parent_of σ4 j = parent_of σ2 j) as Ht.
  { intros j. destruct (Ht3 j) as (? & ? & ? & ?), (Ht4 j) as (? & ? & ? & ?).
    repeat split; congruence. }
  assert (forall j, j <> S n -> attrs_of σ4 j = attrs_of σ2 j) as Ho.
  { intros j Hj. by rewrite Ho4, Ho3. }
  assert (length σ4 = S (S n)) as Hlen by congruence.
  assert (forall j, j < n ->
            name_of σ4 j = name_of σ j /\ is_tag σ4 j = is_tag σ j
            /\ attrs_of σ4 j = attrs_of σ j /\ contents_of σ4 j = contents_of σ j
            /\ parent_of σ4 j = parent_of σ j) as Hold4.
  { intros j Hj. destruct (Ht j) as (-> & -> & -> & ->). rewrite Ho by lia.
    apply observe_eq. by apply Hold. }
  (* the image leaves its parent *)
  assert (parent_of σ4 img = Some p) as Hparent4.
  { destruct (Hold4 img Himg) as (_ & _ & _ & _ & ->). done. }
  assert (contents_of σ4 p = pre ++ img :: post) as Hcontents4.
  { destruct (Hold4 p Hp) as (_ & _ & _ & -> & _). done. }
  destruct (extract_effect img p (length pre) σ4 Hparent4)
    as (σ5 & Hrun5 & [Hlen5 Hl5] & Hcs5 & Hco5 & Hpar5 & Hpo5).
  { rewrite Hcontents4. by apply index_of_app. }
  rewrite Hparent4. rewrite (bind_ok _ _ _ _ _ Hrun5).
  rewrite Hcontents4, take_drop_middle_out in Hcs5.
  (* the source and the image enter the picture *)
  destruct (append_effect n (S n) σ5)
    as (σ6 & Hrun6 & [Hlen6 Hl6] & Hcs6 & Hco6 & Hpar6 & Hpo6).
  { split; [lia |]. rewrite Hpo5 by lia. destruct (Ht (S n)) as (_ & _ & _ & ->).
    done. }
  { lia. }
  { lia. }
  rewrite (bind_ok _ _ _ _ _ Hrun6).
  destruct (append_effect n img σ6)
    as (σ7 & Hrun7 & [Hlen7 Hl7] & Hcs7 & Hco7 & Hpar7 & Hpo7).
  { split; [lia |]. rewrite Hpo6 by lia. done. }
  { lia. }
  { lia. }
  rewrite (bind_ok _ _ _ _ _ Hrun7).
  (* the picture is appended to the parent *)
  destruct (append_effect p n σ7)
    as (σ8 & Hrun8 & [Hlen8 Hl8] & Hcs8 & Hco8 & Hpar8 & Hpo8).
  { split; [lia |]. rewrite Hpo7, Hpo6, Hpo5 by lia.
    destruct (Ht n) as (_ & _ & _ & ->). done. }
  { lia. }
  { lia. }
  rewrite Hrun8. exists σ8. split; [done |]. split; [lia |].
  assert (forall j, name_of σ8 j = name_of σ4 j /\ is_tag σ8 j = is_tag σ4 j
                    /\ attrs_of σ8 j = attrs_of σ4 j) as Hl.
  { intros j. destruct (Hl5 j) as (? & ? & ?), (Hl6 j) as (? & ? & ?),
      (Hl7 j) as (? & ? & ?), (Hl8 j) as (? & ? & ?).
    repeat split; congruence. }
  split.
  { rewrite Hcs8, Hco7, Hco6, Hcs5 by lia. by rewrite <- app_assoc. }
  split.
  { rewrite Hco8, Hcs7, Hcs6, Hco5 by lia.
    destruct (Ht n) as (_ & _ & -> & _). by rewrite Hpic_cs. }
  split; [by rewrite Hpo8 by lia |]. split; [done |].
  split; [by rewrite Hpo8, Hpo7 by lia |].
  split.
  { destruct (Hl n) as (-> & _). destruct (Ht n) as (-> & _). done. }
  split.
  { destruct (Hl (S n)) as (-> & _). destruct (Ht (S n)) as (-> & _). done. }
  split.
  { unfold get_attr. destruct (Hl (S n)) as (_ & _ & ->).
    fold (get_attr σ4 (S n) (str "srcset")). rewrite Hg4 by done.
    apply Hset3. lia. }
  split.
  { unfold get_attr. destruct (Hl (S n)) as (_ & _ & ->).
    apply Hset4. lia. }
  split.
  { intros j Hj. destruct (Hl j) as (-> & -> & ->).
    destruct (Hold4 j Hj) as (? & ? & ? & _). done. }
  split.
  { intros j Hj Hjp. rewrite Hco8, Hco7, Hco6, Hco5 by lia.
    by destruct (Hold4 j Hj) as (_ & _ & _ & ? & _). }
  intros j Hj Hjimg. rewrite Hpo8, Hpo7, Hpo6, Hpo5 by lia.
  by destruct (Hold4 j Hj) as (_ & _ & _ & _ & ?).
Qed.

Lemma X12_witness :
  exists σ',
    wrap_in_picture 4 (str "images/a.webp") two_image_page = (Ok tt, σ')
    /\ contents_of σ' 3 = [5; 6]
    /\ contents_of σ' 6 = [7; 4].
Proof.
  destruct (X12_picture_appended_last 4 3 (str "images/a.webp") [] [5]
              two_image_page)
    as (σ' & Hrun & _ & Hp & Hpic & _); [reflexivity | reflexivity | |].
  - apply not_elem_of_nil.
  - exists σ'. split; [exact Hrun |]. split; [exact Hp | exact Hpic].
Defined.

(** ** Step 1: the head *)

Section Head.

Lemma new_tag_run (name : pystr) (σ : store) :
  new_tag name σ = (Ok (length σ), σ ++ [new_node name]).
Proof. reflexivity. Qed.

Lemma find_Some (σ : store) (root x : nat) (f : store -> nat -> bool) :
  find σ root f = Some x ->
  x < length σ /\ is_tag σ x = true /\ f σ x = true.
Proof.
  unfold find. intros H. apply (elem_of_find_all σ root).
  destruct (find_all σ root f) as [|y l]; [done |].
  injection H as ->. left.
Qed.

Lemma name_in_singleton (σ : store) (x : nat) (name : pystr) :
  name_in [name] σ x = true -> name_of σ x = name.
Proof.
  unfold name_in. intros H. apply bool_decide_eq_true in H.
  apply elem_of_cons in H as [H | H]; [done | by apply elem_of_nil in H].
Qed.

End Head.

(** X13. Step 1 of the transform never raises on a document of the store
    and returns a tag named [head].  When the document has a [head], that
    one is returned and nothing is changed.  Otherwise a new [head] is
    made: it becomes the first child of the [html] element when there is
    one, and else the only child of a new [html] element that is appended
    to the document.  The nodes that existed keep their names and
    attributes. *)
Theorem X13_head_found_or_created (dom : nat) (σ : store) :
  dom < length σ ->
  exists head σ',
    ensure_head dom σ = (Ok head, σ')
    /\ name_of σ' head = str "head"
    /\ is_tag σ' head = true
    /\ (forall j, j < length σ ->
          name_of σ' j = name_of σ j /\ is_tag σ' j = is_tag σ j
          /\ attrs_of σ' j = attrs_of σ j)
    /\ match find σ dom (name_in [str "head"]) with
       | Some h => head = h /\ σ' = σ
       | None =>
           head = length σ
           /\ match find (σ ++ [new_node (str "head")]) dom
                      (name_in [str "html"]) with
              | Some html =>
                  length σ' = S (length σ)
                  /\ contents_of σ' html
                     = head :: contents_of (σ ++ [new_node (str "head")]) html
                  /\ parent_of σ' head = Some html
              | None =>
                  length σ' = S (S (length σ))
                  /\ name_of σ' (S (length σ)) = str "html"
                  /\ contents_of σ' (S (length σ)) = [head]
                  /\ parent_of σ' head = Some (S (length σ))
                  /\ contents_of σ' dom = contents_of σ dom ++ [S (length σ)]
                  /\ parent_of σ' (S (length σ)) = Some dom
              end
       end.
Proof.
  intros Hdom. unfold ensure_head. rewrite bind_run. cbn [get_store].
  destruct (find σ dom (name_in [str "head"])) as [h|] eqn:Hfind.
  { exists h, σ. apply find_Some in Hfind as (Hlt & Htag & Hname).
    split; [done |]. split; [by apply name_in_singleton |]. done. }
  set (n := length σ) in *.
  rewrite (bind_ok _ _ _ _ _ (new_tag_run (str "head") σ)). fold n.
  set (σ1 := σ ++ [new_node (str "head")]).
  assert (length σ1 = S n) as Hlen1.
  { unfold σ1. rewrite length_app. cbn. lia. }
  assert (forall j, j < n -> σ1 !! j = σ !! j) as Hold1.
  { intros j Hj. by apply lookup_app_l. }
  assert (σ1 !! n = Some (new_node (str "head"))) as Hnew1.
  { unfold σ1. rewrite lookup_app_r by lia. by rewrite Nat.sub_diag. }
  destruct (observe_new _ _ _ Hnew1) as (Hh_name & Hh_tag & Hh_attrs & Hh_cs & Hh_par).
  rewrite bind_run. cbn [get_store].
  destruct (find σ1 dom (name_in [str "html"])) as [html|] eqn:Hhtml.
  - apply find_Some in Hhtml as (Hhtml_lt & Hhtml_tag & Hhtml_name).
    apply name_in_singleton in Hhtml_name.
    assert (n <> html) as Hne.
    { intros <-. rewrite Hh_name in Hhtml_name. discriminate. }
    destruct (insert_effect html 0 n σ1)
      as (σ2 & Hrun2 & [Hlen2 Hl2] & Hcs2 & Hco2 & Hpar2 & Hpo2).
    { split; [lia | done]. }
    { done. }
    { done. }
    rewrite (bind_ok _ _ _ _ _ Hrun2).
    exists n, σ2. split; [done |].
    destruct (Hl2 n) as (Hn2 & Ht2 & _).
    split; [congruence |]. split; [congruence |]. split.
    + intros j Hj. destruct (Hl2 j) as (-> & -> & ->).
      destruct (observe_eq _ _ _ (Hold1 j Hj)) as (? & ? & ? & _). done.
    + split; [done |]. split; [congruence |]. split; [|done].
      by rewrite Hcs2.
  - destruct (new_tag_effect (str "html") σ1)
      as (σ2 & Hrun2 & Hlen2 & Hold2 & Hnew2).
    rewrite Hlen1 in Hrun2, Hlen2, Hold2, Hnew2.
    destruct (observe_new _ _ _ Hnew2) as (Hm_name & Hm_tag & Hm_attrs & Hm_cs & Hm_par).
    assert (σ2 !! n = Some (new_node (str "head"))) as Hnew1'.
    { rewrite Hold2 by lia. done. }
    destruct (observe_new _ _ _ Hnew1') as (Hh_name2 & Hh_tag2 & _ & Hh_cs2 & Hh_par2).
    destruct (append_effect (S n) n σ2)
      as (σ3 & Hrun3 & [Hlen3 Hl3] & Hcs3 & Hco3 & Hpar3 & Hpo3).
    { split; [lia | done]. }
    { lia. }
    { lia. }
    destruct (append_effect dom (S n) σ3)
      as (σ4 & Hrun4 & [Hlen4 Hl4] & Hcs4 & Hco4 & Hpar4 & Hpo4).
    { split; [lia |]. by rewrite Hpo3 by lia. }
    { lia. }
    { lia. }
    assert ((html ← new_tag (str "html"); append html n ;; append dom html) σ1
            = (Ok tt, σ4)) as Hinner.
    { rewrite (bind_ok _ _ _ _ _ Hrun2), (bind_ok _ _ _ _ _ Hrun3). exact Hrun4. }
    rewrite (bind_ok _ _ _ _ _ Hinner).
    exists n, σ4. split; [done |].
    assert (forall j, name_of σ4 j = name_of σ2 j /\ is_tag σ4 j = is_tag σ2 j
                      /\ attrs_of σ4 j = attrs_of σ2 j) as Hl.
    { intros j. destruct (Hl3 j) as (? & ? & ?), (Hl4 j) as (? & ? & ?).
      repeat split; congruence. }
    destruct (Hl n) as (Hn4 & Ht4 & _).
    split; [congruence |]. split; [congruence |]. split.
    + intros j Hj. destruct (Hl j) as (-> & -> & ->).
      assert (σ2 !! j = σ !! j) as Hj2.
      { rewrite Hold2 by lia. by apply Hold1. }
      destruct (observe_eq _ _ _ Hj2) as (? & ? & ? & _). done.
    + split; [done |]. split; [lia |].
      destruct (Hl (S n)) as (Hm4 & _).
      split; [congruence |].
      split; [rewrite Hco4 by lia; by rewrite Hcs3, Hm_cs |].
      split; [rewrite Hpo4 by lia; done |].
      split; [|done].
      rewrite Hcs4, Hco3 by lia.
      assert (σ2 !! dom = σ !! dom) as Hd2.
      { rewrite Hold2 by lia. by apply Hold1. }
      destruct (observe_eq _ _ _ Hd2) as (_ & _ & _ & -> & _). done.
Qed.

Lemma X13_witness :
  exists head σ',
    ensure_head 0 [ tag "[document]" [] [] None ] = (Ok head, σ')
    /\ name_of σ' head = str "head"
    /\ contents_of σ' 0 = [2]
    /\ contents_of σ' 2 = [1].
Proof.
  destruct (X13_head_found_or_created 0 [ tag "[document]" [] [] None ])
    as (head & σ' & Hrun & Hname & _ & _ & Hcase); [cbn; lia |].
  cbn in Hcase. destruct Hcase as (-> & _ & _ & Hcs & _ & Hdom & _).
  exists 1, σ'. split; [exact Hrun |]. split; [exact Hname |].
  split; [exact Hdom | exact Hcs].
Defined.

(** ** Step 4: the noscript fallbacks *)

Section AttrsKept.

Variable σ0 : store.

Local Abbreviation kept := (holds (attrs_kept σ0)).

Lemma attrs_kept_refl : attrs_kept σ0 σ0.
Proof. by split. Qed.

Lemma kept_alloc (nd : node) : kept (alloc nd) (le (length σ0)).
Proof.
  intros σ [Hlen Hattrs]. unfold alloc. cbn. split.
  - split; [rewrite length_app; lia |]. intros j Hj.
    rewrite <- Hattrs by done. unfold attrs_of. by rewrite lookup_app_l by lia.
  - intros a [= <-]. done.
Qed.

Lemma kept_update (i : nat) (f : node -> node) :
  (forall nd, n_attrs (f nd) = n_attrs nd) -> kept (update i f) (fun _ => True).
Proof.
  intros Hf σ [Hlen Hattrs]. unfold update. cbn. split; [|done].
  split; [by rewrite length_alter |]. intros j Hj.
  rewrite <- Hattrs by done. by apply attrs_of_alter.
Qed.

Lemma kept_set_attr (i : nat) (k : pystr) (v : attr_value) :
  length σ0 <= i -> kept (set_attr i k v) (fun _ => True).
Proof.
  intros Hi σ [Hlen Hattrs]. unfold set_attr, update. cbn. split; [|done].
  split; [by rewrite length_alter |]. intros j Hj.
  rewrite <- Hattrs by done. apply attrs_of_alter_ne. lia.
Qed.

Lemma kept_get_item (i : nat) (k : pystr) : kept (get_item i k) (fun _ => True).
Proof.
  unfold get_item. eapply holds_bind; [apply holds_get_store |].
  intros σ _. destruct (attr_get k (attrs_of σ i)).
  - by apply holds_ret.
  - apply holds_raise.
Qed.

Lemma kept_extract (i : nat) : kept (extract i) (fun _ => True).
Proof.
  unfold extract. eapply holds_bind; [apply holds_get_store |]. intros σ _.
  destruct (parent_of σ i) as [p|]; [|by apply holds_ret].
  destruct (index_of i (contents_of σ p)); [|apply holds_raise].
  eapply holds_bind; [by apply kept_update |]. intros _ _.
  by apply kept_update.
Qed.

Lemma kept_insert (p position c : nat) : kept (insert p position c) (fun _ => True).
Proof.
  unfold insert. destruct (c =? p); [apply holds_raise |].
  eapply holds_bind; [apply holds_get_store |]. intros σ _.
  eapply holds_bind; [apply kept_extract |]. intros _ _.
  eapply holds_bind; [by apply kept_update |]. intros _ _.
  eapply holds_bind; [apply holds_get_store |]. intros σ' _.
  by apply kept_update.
Qed.

Lemma kept_append (p c : nat) : kept (append p c) (fun _ => True).
Proof.
  unfold append. eapply holds_bind; [apply holds_get_store |]. intros σ _.
  apply kept_insert.
Qed.

Lemma kept_insert_after (i successor : nat) :
  kept (insert_after i successor) (fun _ => True).
Proof.
  unfold insert_after. eapply holds_bind; [apply holds_get_store |]. intros σ _.
  destruct (parent_of σ i) as [p|]; [|apply holds_raise].
  destruct (successor =? i); [apply holds_raise |].
  eapply holds_bind; [apply kept_extract |]. intros _ _.
  eapply holds_bind; [apply holds_get_store |]. intros σ' _.
  destruct (index_of i (contents_of σ' p)); [|apply holds_raise].
  apply kept_insert.
Qed.

(** One fallback: the attributes of the objects that were there stay. *)
Lemma kept_fallback (link : nat) :
  kept (noscript ← new_tag (str "noscript");
        fallback_link ← new_tag (str "link");
        set_attr fallback_link (str "rel") (AStr (str "stylesheet")) ;;
        href ← get_item link (str "href");
        set_attr fallback_link (str "href") href ;;
        append noscript fallback_link ;;
        insert_after link noscript) (fun _ => True).
Proof.
  eapply holds_bind; [apply kept_alloc |]. intros noscript Hn.
  eapply holds_bind; [apply kept_alloc |]. intros fallback Hf.
  eapply holds_bind; [by apply kept_set_attr |]. intros _ _.
  eapply holds_bind; [apply kept_get_item |]. intros href _.
  eapply holds_bind; [by apply kept_set_attr |]. intros _ _.
  eapply holds_bind; [apply kept_append |]. intros _ _.
  apply kept_insert_after.
Qed.

End AttrsKept.

Section Fallback.

(** A link without [href] stops the loop with [KeyError]. *)
Lemma fallback_raises (link : nat) (σ : store) :
  link < length σ -> has_attr σ link (str "href") = false ->
  exists σ',
    (noscript ← new_tag (str "noscript");
     fallback_link ← new_tag (str "link");
     set_attr fallback_link (str "rel") (AStr (str "stylesheet")) ;;
     href ← get_item link (str "href");
     set_attr fallback_link (str "href") href ;;
     append noscript fallback_link ;;
     insert_after link noscript) σ = (Raise KeyError, σ').
Proof.
  intros Hlink Hhref.
  destruct (new_tag_effect (str "noscript") σ) as (σ1 & Hrun1 & Hlen1 & Hold1 & _).
  destruct (new_tag_effect (str "link") σ1) as (σ2 & Hrun2 & Hlen2 & Hold2 & _).
  destruct (set_attr_effect (length σ1) (str "rel") (AStr (str "stylesheet")) σ2)
    as (σ3 & Hrun3 & _ & Ho3 & _).
  rewrite (bind_ok _ _ _ _ _ Hrun1), (bind_ok _ _ _ _ _ Hrun2),
    (bind_ok _ _ _ _ _ Hrun3).
  exists σ3. unfold get_item. rewrite !bind_run. cbn [get_store].
  assert (attrs_of σ3 link = attrs_of σ link) as Hsame.
  { rewrite Ho3 by lia. apply attrs_of_eq. rewrite Hold2 by lia. by apply Hold1. }
  unfold has_attr in Hhref. rewrite Hsame.
  by destruct (attr_get (str "href") (attrs_of σ link)).
Qed.

End Fallback.

(** X14. Step 4 of the transform cannot get past a link without [href]:
    when one of the links of the loop has no [href] the loop raises, for
    every document, and it raises [KeyError] when that link is the first of
    the loop.  The attributes of the objects that existed are as they
    were when it stops. *)
Theorem X14_fallback_needs_href (links : list nat) (l : nat) (σ : store) :
  l ∈ links -> l < length σ -> has_attr σ l (str "href") = false ->
  exists e σ',
    add_noscript_fallbacks links σ = (Raise e, σ')
    /\ attrs_kept σ σ'
    /\ (head links = Some l -> e = KeyError).
Proof.
  unfold add_noscript_fallbacks.
  assert (forall σ0 σ,
            attrs_kept σ0 σ -> l ∈ links -> l < length σ0 ->
            has_attr σ0 l (str "href") = false ->
            exists e σ',
              for_each links
                (fun link =>
                   noscript ← new_tag (str "noscript");
                   fallback_link ← new_tag (str "link");
                   set_attr fallback_link (str "rel") (AStr (str "stylesheet")) ;;
                   href ← get_item link (str "href");
                   set_attr fallback_link (str "href") href ;;
                   append noscript fallback_link ;;
                   insert_after link noscript) σ = (Raise e, σ')
              /\ attrs_kept σ0 σ'
              /\ (head links = Some l -> e = KeyError)) as Hgen.
  { clear σ. intros σ0. induction links as [|x links IH]; intros σ Hkept Hin Hlt Hhref.
    { by apply elem_of_nil in Hin. }
    cbn [for_each]. rewrite bind_run.
    pose proof (kept_fallback σ0 x σ Hkept) as [Hkept' _].
    assert (l < length σ /\ has_attr σ l (str "href") = false) as [Hlt' Hhref'].
    { destruct Hkept as [Hlen Hattrs]. split; [lia |].
      unfold has_attr. by rewrite Hattrs. }
    destruct (decide (x = l)) as [-> | Hne].
    - destruct (fallback_raises l σ Hlt' Hhref') as (σ' & Hraise).
      rewrite Hraise in Hkept' |- *. cbn [snd] in Hkept'.
      exists KeyError, σ'. split; [done |]. split; [done | done].
    - apply elem_of_cons in Hin as [-> | Hin]; [done |].
      destruct ((noscript ← new_tag (str "noscript");
                 fallback_link ← new_tag (str "link");
                 set_attr fallback_link (str "rel") (AStr (str "stylesheet")) ;;
                 href ← get_item x (str "href");
                 set_attr fallback_link (str "href") href ;;
                 append noscript fallback_link ;;
                 insert_after x noscript) σ) as [[[]|e] σ1] eqn:Hbody.
      + cbn [snd] in Hkept'.
        destruct (IH σ1 Hkept' Hin Hlt Hhref) as (e & σ' & Hrun & Hk & _).
        exists e, σ'. split; [done |]. split; [done |].
        cbn [head]. intros [= ->]. done.
      + exists e, σ1. split; [done |]. split; [done |].
        cbn [head]. intros [= ->]. done. }
  intros Hin Hlt Hhref. by apply (Hgen σ σ (attrs_kept_refl σ)).
Qed.

Lemma X14_witness :
  exists e σ',
    add_noscript_fallbacks [3] bare_link_page = (Raise e, σ')
    /\ attrs_kept bare_link_page σ'
    /\ (head [3] = Some 3 -> e = KeyError).
Proof.
  apply (X14_fallback_needs_href [3] 3 bare_link_page).
  - left.
  - cbn. lia.
  - reflexivity.
Defined.

(** ** The style sheets of a page *)

Section StyleSheetFacts.

Lemma decimal_inj (a b : Z) : PyInt.decimal a = PyInt.decimal b -> a = b.
Proof.
  unfold PyInt.decimal, str. intros H.
  apply (f_equal string_of_list_ascii) in H.
  rewrite !string_of_list_ascii_of_string in H.
  assert (forall z, NilZero.int_of_string (NilZero.string_of_int (Z.to_int z))
                    = Some (Z.to_int z)) as Hread.
  { intros z. apply NilZero.isi; destruct z; cbn; try discriminate;
      intros [= Hnil]; by apply Unsigned.to_uint_nonnil in Hnil. }
  apply DecimalZ.to_int_inj.
  pose proof (Hread a) as Ha. rewrite H, Hread in Ha. by injection Ha.
Qed.

Lemma inline_key_inj (i j : nat) : inline_key i = inline_key j -> i = j.
Proof.
  unfold inline_key. intros H. apply app_inv_head, decimal_inj in H. lia.
Qed.

Lemma inline_key_prefix (i : nat) :
  Py.is_prefix (str "inline-") (inline_key i) = true.
Proof. apply is_prefix_spec. by eexists. Qed.

Lemma dict_set_app_l (k v : pystr) (d r : list (pystr * pystr)) :
  k ∉ map fst d -> dict_set k v (d ++ r) = d ++ dict_set k v r.
Proof.
  induction d as [|[k' v'] d IH]; intros Hk; cbn [app dict_set]; [done |].
  rewrite bool_decide_eq_false_2.
  - rewrite IH; [done |]. intros Hin. apply Hk. cbn. by right.
  - intros ->. apply Hk. cbn. left.
Qed.

Lemma dict_set_fresh (k v : pystr) (d : list (pystr * pystr)) :
  k ∉ map fst d -> dict_set k v d = d ++ [(k, v)].
Proof.
  intros Hk. rewrite <- (app_nil_r d) at 1. by rewrite dict_set_app_l.
Qed.

Lemma inline_entries_keys (σ : store) (tags : list nat) (i : nat) (k : pystr) :
  k ∈ map fst (inline_entries σ tags i) ->
  exists j, i <= j /\ k = inline_key j.
Proof.
  revert i. induction tags as [|t tags IH]; intros i; cbn [inline_entries].
  - intros H. by apply elem_of_nil in H.
  - assert (k ∈ map fst (inline_entries σ tags (S i)) ->
            exists j, i <= j /\ k = inline_key j) as Hrest.
    { intros H. apply IH in H as (j & Hj & ->). exists j. split; [lia | done]. }
    destruct (string_of σ t) as [text|]; [|done].
    destruct (negb (length text =? 0)); [|done].
    cbn [map fst]. intros H. apply elem_of_cons in H as [-> | H]; [|by apply Hrest].
    by exists i.
Qed.

(** The inline blocks are added in order, one new key each. *)
Lemma add_inline_styles_spec (σ : store) (tags : list nat) (i : nat)
    (files : list pystr) (d : list (pystr * pystr)) :
  (forall k, k ∈ map fst d -> exists j, j < i /\ k = inline_key j) ->
  add_inline_styles σ tags i (mkExtractor files d)
  = mkExtractor (files ++ map fst (inline_entries σ tags i))
                (d ++ inline_entries σ tags i).
Proof.
  revert i files d. induction tags as [|t tags IH]; intros i files d Hd;
    cbn [add_inline_styles inline_entries].
  - cbn. by rewrite !app_nil_r.
  - assert (forall k, k ∈ map fst d -> exists j, j < S i /\ k = inline_key j) as Hd'.
    { intros k Hk. destruct (Hd k Hk) as (j & Hj & ->). exists j. split; [lia | done]. }
    destruct (string_of σ t) as [text|]; [|by apply IH].
    destruct (negb (length text =? 0)); [|by apply IH].
    cbn [css_files css_contents]. rewrite dict_set_fresh.
    + rewrite IH.
      * cbn [map fst]. by rewrite <- !app_assoc.
      * intros k Hk. rewrite map_app in Hk. apply elem_of_app in Hk as [Hk | Hk].
        -- by apply Hd'.
        -- cbn in Hk. apply elem_of_cons in Hk as [-> | Hk];
             [by exists i; split; [lia |] | by apply elem_of_nil in Hk].
    + intros Hin. destruct (Hd _ Hin) as (j & Hj & Heq).
      apply inline_key_inj in Heq. lia.
Qed.

Section Links.

Variable urljoin : pystr -> attr_value -> result pystr.
Variable url : pystr.
Variable σ : store.

Lemma add_css_links_ok links files out :
  add_css_links urljoin url σ links files = Ok out ->
  exists urls,
    out = files ++ urls
    /\ Forall2 (fun link css_url =>
                  exists href,
                    attr_get (str "href") (attrs_of σ link) = Some href
                    /\ urljoin url href = Ok css_url)
         (List.filter (fun l => has_attr σ l (str "href")) links) urls.
Proof.
  revert files out. induction links as [|l links IH]; intros files out;
    cbn [add_css_links List.filter].
  - intros [= <-]. exists []. by rewrite app_nil_r.
  - unfold has_attr at 1.
    destruct (attr_get (str "href") (attrs_of σ l)) as [href|] eqn:Hhref; [|apply IH].
    destruct (urljoin url href) as [u|e] eqn:Hu;
      rewrite ?result_bind_ok, ?result_bind_raise; [|done].
    intros H. apply IH in H as (urls & -> & Hall).
    exists (u :: urls). split; [by rewrite <- app_assoc |].
    constructor; [by exists href | done].
Qed.

Lemma add_css_links_raise links files e :
  add_css_links urljoin url σ links files = Raise e ->
  exists v, urljoin url v = Raise e.
Proof.
  revert files. induction links as [|l links IH]; intros files;
    cbn [add_css_links]; [done |].
  destruct (attr_get (str "href") (attrs_of σ l)) as [href|]; [|apply IH].
  destruct (urljoin url href) as [u|e'] eqn:Hu;
    rewrite ?result_bind_ok, ?result_bind_raise; [apply IH |].
  intros [= <-]. by exists href.
Qed.

End Links.

Section Fetch.

Variable fetch : nat -> pystr -> option pystr.

(** An entry that is not an inline block and holds a response. *)
Local Abbreviation fetched_entry :=
  (fun e : pystr * pystr =>
     Py.is_prefix (str "inline-") (fst e) = false
     /\ exists i, fetch i (fst e) = Some (snd e)).

Lemma dict_set_Forall (P : pystr * pystr -> Prop) (k v : pystr)
    (d : list (pystr * pystr)) :
  P (k, v) -> Forall P d -> Forall P (dict_set k v d).
Proof.
  intros Hkv. induction 1 as [|[k' v'] d Hk Hd IH]; cbn [dict_set].
  - by constructor.
  - destruct (bool_decide (k' = k)); by constructor.
Qed.

(** The fetched sheets are entered after the inline blocks. *)
Lemma fetch_from_spec (i : nat) (files : list pystr) (d r : list (pystr * pystr)) :
  Forall (fun e => Py.is_prefix (str "inline-") (fst e) = true) d ->
  Forall fetched_entry r ->
  exists rest,
    fetch_from fetch i files (d ++ r) = d ++ rest
    /\ Forall fetched_entry rest.
Proof.
  intros Hd. revert i r. induction files as [|f files IH]; intros i r Hr;
    cbn [fetch_from].
  - by exists r.
  - destruct (Py.is_prefix (str "inline-") f) eqn:Hf; [by apply IH |].
    destruct (fetch i f) as [text|] eqn:Hfetch; [|by apply IH].
    rewrite dict_set_app_l.
    + apply IH. apply dict_set_Forall; [|done]. split; [done | by exists i].
    + intros Hin. apply list_elem_of_In, in_map_iff in Hin as (e & He & Hin).
      rewrite Forall_forall in Hd. apply list_elem_of_In, Hd in Hin.
      congruence.
Qed.

End Fetch.

Lemma all_rule_matches_app (a b : list (pystr * pystr)) :
  all_rule_matches (a ++ b) = all_rule_matches a ++ all_rule_matches b.
Proof. unfold all_rule_matches. apply flat_map_app. Qed.

Lemma inline_entries_prefixed (σ : store) (tags : list nat) (i : nat) :
  Forall (fun e => Py.is_prefix (str "inline-") (fst e) = true)
    (inline_entries σ tags i).
Proof.
  apply Forall_forall. intros e He.
  assert (fst e ∈ map fst (inline_entries σ tags i)) as Hk.
  { by apply list_elem_of_In, in_map, list_elem_of_In. }
  apply inline_entries_keys in Hk as (j & _ & ->). apply inline_key_prefix.
Qed.

Lemma extract_css_files_ok (urljoin : pystr -> attr_value -> result pystr)
    (url : pystr) (σ : store) (dom : nat) (self : extractor) :
  extract_css_files urljoin url σ dom new_extractor = Ok self ->
  css_contents self
  = inline_entries σ (find_all σ dom (name_in [str "style"])) 0
  /\ exists urls,
       css_files self
       = urls ++ map fst (inline_entries σ (find_all σ dom (name_in [str "style"])) 0)
       /\ Forall2 (fun link css_url =>
                     exists href,
                       attr_get (str "href") (attrs_of σ link) = Some href
                       /\ urljoin url href = Ok css_url)
            (List.filter (fun l => has_attr σ l (str "href"))
               (find_all σ dom is_stylesheet_link)) urls.
Proof.
  unfold extract_css_files, new_extractor. cbn [css_files css_contents].
  destruct (add_css_links urljoin url σ (find_all σ dom is_stylesheet_link) [])
    as [files|e] eqn:Hfiles; rewrite ?result_bind_ok, ?result_bind_raise; [|done].
  intros [= <-]. apply add_css_links_ok in Hfiles as (urls & -> & Hall).
  rewrite add_inline_styles_spec.
  - cbn [css_files css_contents app]. split; [done |]. by exists urls.
  - intros k Hk. by apply elem_of_nil in Hk.
Qed.

End StyleSheetFacts.

(** X15. [extract_css_files] on a fetched page, for a new extractor: the
    file list is the joined URL of every style sheet link that has an
    [href], in document order (a link without one is passed over), followed
    by the keys of the inline blocks; the contents are the non-empty inline
    blocks in document order, block number [i] under the key [inline-i],
    where [i] counts every [style] tag of the page, empty ones included.
    The only exceptions are those of [urljoin]. *)
Theorem X15_css_files_of_page
    (urljoin : pystr -> attr_value -> result pystr) (url : pystr) (σ : store)
    (dom : nat) :
  (forall self,
     extract_css_files urljoin url σ dom new_extractor = Ok self ->
     let inline := inline_entries σ (find_all σ dom (name_in [str "style"])) 0 in
     css_contents self = inline
     /\ exists urls,
          css_files self = urls ++ map fst inline
          /\ Forall2 (fun link css_url =>
                        exists href,
                          attr_get (str "href") (attrs_of σ link) = Some href
                          /\ urljoin url href = Ok css_url)
               (List.filter (fun l => has_attr σ l (str "href"))
                  (find_all σ dom is_stylesheet_link)) urls)
  /\ (forall e,
        extract_css_files urljoin url σ dom new_extractor = Raise e ->
        exists v, urljoin url v = Raise e).
Proof.
  split.
  - intros self Hself. cbv zeta. by apply extract_css_files_ok.
  - unfold extract_css_files, new_extractor. cbn [css_files css_contents].
    intros e.
    destruct (add_css_links urljoin url σ (find_all σ dom is_stylesheet_link) [])
      as [files|e'] eqn:Hfiles; rewrite ?result_bind_ok, ?result_bind_raise; [done |].
    intros [= <-]. by eapply add_css_links_raise.
Qed.

Lemma X15_witness :
  css_contents (mkExtractor [str "a.css"; inline_key 0] [(inline_key 0, str "p{x:y}")])
  = inline_entries styled_page (find_all styled_page 0 (name_in [str "style"])) 0.
Proof.
  apply (proj1 (X15_css_files_of_page urljoin_ref [] styled_page 0)
           (mkExtractor [str "a.css"; inline_key 0] [(inline_key 0, str "p{x:y}")])).
  vm_compute. reflexivity.
Defined.

(** X16. The critical CSS of a page, for a new extractor, when it is
    produced: the style sheets read are the non-empty inline blocks
    followed by the fetched sheets, each of which holds a response and has
    a key that does not begin with [inline-]; so after the header and the
    preamble come the critical rules of all inline blocks, and only then
    those of the linked sheets, whatever the order of the [style] and
    [link] tags in the document. *)
Theorem X16_inline_rules_first
    (urljoin : pystr -> attr_value -> result pystr)
    (fetch : nat -> pystr -> option pystr) (repr_list : list pystr -> pystr)
    (url : pystr) (σ : store) (dom : nat) (out : pystr) :
  extract_critical_css urljoin fetch repr_list url σ dom new_extractor = Ok out ->
  exists fetched above,
    find_above_fold_elements σ dom = Ok above
    /\ let inline := inline_entries σ (find_all σ dom (name_in [str "style"])) 0 in
       let crit :=
         all_critical_selectors (extract_element_selectors repr_list σ above)
           (inline ++ fetched) in
       out = generate_critical_css (inline ++ fetched) crit
       /\ out = header_comment ++ preamble
                 ++ flat_map (emit_rule crit) (all_rule_matches inline)
                 ++ flat_map (emit_rule crit) (all_rule_matches fetched)
       /\ Forall (fun e => Py.is_prefix (str "inline-") (fst e) = true) inline
       /\ Forall (fun e => Py.is_prefix (str "inline-") (fst e) = false
                           /\ exists i, fetch i (fst e) = Some (snd e)) fetched.
Proof.
  unfold extract_critical_css, new_extractor. cbn [css_files css_contents].
  destruct (extract_css_files urljoin url σ dom {| css_files := []; css_contents := [] |})
    as [self|e] eqn:Hself; rewrite ?result_bind_ok, ?result_bind_raise; [|done].
  apply extract_css_files_ok in Hself as [Hcontents _].
  unfold fetch_css_contents. cbn [css_contents].
  rewrite Hcontents.
  set (inline := inline_entries σ (find_all σ dom (name_in [str "style"])) 0).
  destruct (fetch_from_spec fetch 0 (css_files self) inline [])
    as (fetched & Hfetched & Hnot).
  { apply inline_entries_prefixed. }
  { constructor. }
  rewrite app_nil_r in Hfetched. rewrite Hfetched.
  intros Hout. apply critical_css_of_ok in Hout as (above & Habove & ->).
  exists fetched, above. split; [done |]. cbv zeta. split; [done |].
  split; [|split; [apply inline_entries_prefixed | done]].
  by rewrite generate_critical_css_unfold, all_rule_matches_app, flat_map_app.
Qed.

Lemma X16_witness :
  exists out fetched above,
    extract_critical_css urljoin_ref fetch_const (fun _ => []) [] styled_page 0
      new_extractor = Ok out
    /\ find_above_fold_elements styled_page 0 = Ok above
    /\ let inline :=
         inline_entries styled_page
           (find_all styled_page 0 (name_in [str "style"])) 0 in
       let crit :=
         all_critical_selectors
           (extract_element_selectors (fun _ => []) styled_page above)
           (inline ++ fetched) in
       out = generate_critical_css (inline ++ fetched) crit
       /\ out = header_comment ++ preamble
                 ++ flat_map (emit_rule crit) (all_rule_matches inline)
                 ++ flat_map (emit_rule crit) (all_rule_matches fetched)
       /\ Forall (fun e => Py.is_prefix (str "inline-") (fst e) = true) inline
       /\ Forall (fun e => Py.is_prefix (str "inline-") (fst e) = false
                           /\ exists i, fetch_const i (fst e) = Some (snd e))
            fetched.
Proof.
  eexists.
  assert (extract_critical_css urljoin_ref fetch_const (fun _ => []) []
            styled_page 0 new_extractor = Ok _) as H by (vm_compute; reflexivity).
  destruct (X16_inline_rules_first _ _ _ _ _ _ _ H)
    as (fetched & above & Habove & Hrest).
  exists fetched, above. split; [exact H |]. split; [exact Habove | exact Hrest].
Defined.

(** ** The text of an emitted rule *)

Section FormatRule.

Lemma fold_left_lines (parts : list pystr) (acc : pystr) :
  fold_left (fun css rule => css ++ str "    " ++ rule ++ str ";" ++ nl) parts acc
  = acc ++ flat_map (fun rule => str "    " ++ rule ++ str ";" ++ nl) parts.
Proof. apply fold_left_append. Qed.

Lemma rule_parts_clean (rules part : pystr) :
  part ∈ rule_parts rules ->
  part <> [] /\ Py.strip part = part /\ (";" ∉ part)
  /\ exists raw, raw ∈ Py.split ";" rules /\ part = Py.strip raw.
Proof.
  unfold rule_parts. intros H.
  apply list_elem_of_In, in_map_iff in H as (raw & <- & Hraw).
  apply list_elem_of_In, list_elem_of_filter in Hraw as [Hne Hraw].
  apply Is_true_true, negb_true_iff, Nat.eqb_neq in Hne.
  destruct (split_parts ";" rules raw Hraw) as [Hsep _].
  split; [by destruct (Py.strip raw) |]. split; [apply strip_idem |].
  split; [|by exists raw].
  intros Hin. by apply elem_of_strip in Hin.
Qed.

End FormatRule.

(** X17. The text written for a critical rule is the trimmed selector
    group, an opening brace, one line per declaration and a closing brace
    followed by a blank line.  The declarations are the pieces of the block
    between semicolons, trimmed, the blank ones left out: every line holds
    a declaration that is not empty, is trimmed and has no semicolon of its
    own, indented by four blanks and ended by one semicolon. *)
Theorem X17_emitted_rule_text (selector rules : pystr) :
  format_rule selector rules
  = selector ++ str " {" ++ nl
      ++ flat_map (fun rule => str "    " ++ rule ++ str ";" ++ nl)
                  (rule_parts rules)
      ++ str "}" ++ nl ++ nl
  /\ Forall (fun part =>
               part <> [] /\ Py.strip part = part /\ (";" ∉ part)
               /\ exists raw, raw ∈ Py.split ";" rules /\ part = Py.strip raw)
            (rule_parts rules).
Proof.
  split.
  - unfold format_rule. by rewrite fold_left_lines.
  - apply Forall_forall. intros part Hpart. by apply rule_parts_clean.
Qed.
